(** * Simupynk / pyrunner: execution-order resolution, name registry and
    property collections

    A shallow embedding of
    - [pyrunner/runners/base_runner.py] ([BaseOrganizer], and the imports
      of [BaseBuilder]) with the [map_component] of
      [pyrunner/runners/seq_runner.py],
    - [pyrunner/components/systems/diagram.py] ([_NameManager]),
    - [pyrunner/components/base_comp.py] ([_ComponentProperty], and
      [pass_default_parameters] of [BaseComponent]),
    followed by the properties of the specification that concern them and
    by further properties of the same code.

    Python objects are mutable and shared; every method is therefore a
    function from the state of the object to an outcome that carries the
    state the object is left in, also when the method raises. *)

From stdpp Require Import gmap strings list fin_maps pretty.
From Stdlib Require Import ZArith Ascii String Lia.

Local Open Scope Z_scope.

(** ** Exceptions and outcomes *)

(** The exception classes the modelled code raises.  Two raise sites of
    [AttributeError] are told apart by their message: the scope guard
    ([_block_outside_modification]) and the erase guard of order-dependent
    properties ([_non_erasable_order_dependent_method]). *)
Inductive exn : Type :=
| AttributeError_outside   (* "You can only modify property items through
                              the publicly available methods." *)
| AttributeError_erase     (* "You cannot erase the items of an
                              order-dependent property." *)
| KeyError
| TypeError
| ValueError
| IndexError
| NameError
| AlgebraicLoopError.      (* [raise Exception("System cannot process
                              algebraic loops. ...")] *)

Global Instance exn_eq_dec : EqDecision exn.
Proof. solve_decision. Defined.

(** An outcome of running a method on an object in state [S]: a normal
    return, a raised exception (the object keeps the mutations made before
    the raise), or the exhaustion of the recursion budget of the model. *)
Inductive outcome (S A : Type) : Type :=
| Ret (a : A) (s : S)
| Raise (e : exn) (s : S)
| OutOfFuel.
Global Arguments Ret {S A} a s.
Global Arguments Raise {S A} e s.
Global Arguments OutOfFuel {S A}.

Definition M (S A : Type) : Type := S → outcome S A.

Definition ret {S A} (a : A) : M S A := λ s, Ret a s.
Definition bind {S A B} (m : M S A) (k : A → M S B) : M S B :=
  λ s, match m s with
       | Ret a s' => k a s'
       | Raise e s' => Raise e s'
       | OutOfFuel => OutOfFuel
       end.
Definition raise {S A} (e : exn) : M S A := λ s, Raise e s.
Definition get {S} : M S S := λ s, Ret s s.
Definition modify {S} (f : S → S) : M S unit := λ s, Ret tt (f s).

Declare Scope py_scope.
Delimit Scope py_scope with py.
Notation "x <- m ;; k" := (bind m (λ x, k))
  (at level 100, m at next level, right associativity) : py_scope.
Notation "m ;;; k" := (bind m (λ _, k))
  (at level 100, right associativity) : py_scope.
Local Open Scope py_scope.

(** [try: m except cls: h]: the handler runs in the state the raise left. *)
Definition try_except {S A} (m : M S A) (catches : exn → bool) (h : M S A)
  : M S A :=
  λ s, match m s with
       | Raise e s' => if catches e then h s' else Raise e s'
       | r => r
       end.

(** The state an object is left in by a call, whatever its outcome. *)
Definition state_after {S A} (r : outcome S A) (s : S) : S :=
  match r with
  | Ret _ s' | Raise _ s' => s'
  | OutOfFuel => s
  end.

(** ** Order resolver: [BaseOrganizer] *)

Module Organizer.

(** Components are objects compared by identity; they are named by numbers
    ([nat]). *)

(** The organizer object together with the [is_not_mapped] flags of the
    components.  [sys_info c] is the list object [sys_info[c]['inputs']]:
    one list per key, mutated in place and never replaced, so every alias of
    it (the iterator of a running [for] loop in particular) sees it through
    this map.  [mapped] is the set of components whose [is_not_mapped] was
    set to [False]. *)
Record organizer : Type := Organizer {
  sys_info : gmap nat (list nat);
  sys_trail : list nat;
  ordered_comps : list nat;
  mapped : gset nat;
}.

Definition set_sys_info (f : gmap nat (list nat) → gmap nat (list nat))
    (o : organizer) : organizer :=
  Organizer (f (sys_info o)) (sys_trail o) (ordered_comps o) (mapped o).
Definition set_sys_trail (f : list nat → list nat) (o : organizer)
  : organizer :=
  Organizer (sys_info o) (f (sys_trail o)) (ordered_comps o) (mapped o).
Definition set_ordered_comps (f : list nat → list nat) (o : organizer)
  : organizer :=
  Organizer (sys_info o) (sys_trail o) (f (ordered_comps o)) (mapped o).
Definition set_mapped (f : gset nat → gset nat) (o : organizer) : organizer :=
  Organizer (sys_info o) (sys_trail o) (ordered_comps o) (f (mapped o)).

(** [list.index(x)]: position of the first element equal to [x]. *)
Fixpoint list_index (x : nat) (l : list nat) : option nat :=
  match l with
  | [] => None
  | y :: l' => if decide (y = x) then Some 0%nat else S <$> list_index x l'
  end.

(** [list.remove(x)]: drop the first element equal to [x]; [None] stands
    for the [ValueError] of an absent element. *)
Fixpoint list_remove (x : nat) (l : list nat) : option (list nat) :=
  match l with
  | [] => None
  | y :: l' => if decide (y = x) then Some l' else cons y <$> list_remove x l'
  end.

Section organizer.
(** [comp.direct_feedthrough], a class constant of each component. *)
Variable direct_feedthrough : nat → bool.

(** [Organizer.map_component] of the sequential runner. *)
Definition map_component (c : nat) : M organizer unit :=
  modify (set_ordered_comps (λ l, l ++ [c])).

(** [_get_component_input_in_loop]: the next element of the loop, the
    first one after the last. *)
Definition _get_component_input_in_loop (loop_comp_index : nat)
    (sys_loop : list nat) : option nat :=
  match sys_loop !! S loop_comp_index with
  | Some c => Some c
  | None => sys_loop !! 0%nat      (* except IndexError *)
  end.

(** The [for ... in enumerate(sys_loop)] scan of [_get_loop_components],
    from position [i] on. *)
Fixpoint scan_loop (sys_loop : list nat) (rest : list nat) (i : nat)
  : option (nat * nat) :=
  match rest with
  | [] => None
  | loop_comp :: rest' =>
      match _get_component_input_in_loop i sys_loop with
      | Some loop_input_comp =>
          if negb (direct_feedthrough loop_input_comp)
          then Some (loop_comp, loop_input_comp)
          else scan_loop sys_loop rest' (S i)
      | None => None
      end
  end.

Definition _get_loop_components (c : nat) : M organizer (nat * nat) :=
  o <- get ;;
  match list_index c (sys_trail o) with
  | None => raise ValueError
  | Some input_index =>
      let sys_loop := drop input_index (sys_trail o) in
      match scan_loop sys_loop sys_loop 0 with
      | Some r => ret r
      | None => raise AlgebraicLoopError
      end
  end.

Definition _sever_system_loop (c : nat) : M organizer unit :=
  r <- _get_loop_components c ;;
  let '(non_direct_comp, loop_input_comp) := r in
  o <- get ;;
  match sys_info o !! non_direct_comp with
  | None => raise KeyError
  | Some inputs =>
      match list_remove loop_input_comp inputs with
      | None => raise ValueError
      | Some inputs' =>
          modify (set_sys_info (<[non_direct_comp := inputs']>)) ;;;
          modify (set_sys_trail (λ _, []))
      end
  end.

(** The tail of [build_system_order], after the [for] loop. *)
Definition finish_component (c : nat) : M organizer unit :=
  o <- get ;;
  if decide (c ∈ mapped o) then ret tt
  else
    map_component c ;;;
    modify (set_mapped (λ m, {[c]} ∪ m)) ;;;
    o' <- get ;;
    if decide (c ∈ sys_trail o')
    then modify (set_sys_trail (λ t, default t (list_remove c t)))
    else ret tt.

(** [build_system_order] and its [for input_comp in comp_inputs] loop.
    The loop reads element [idx] of the live list at every step, as the
    list iterator of Python does: [_sever_system_loop] may shorten the
    very list that is being iterated.  Every call and every iteration
    spends one unit of [fuel]. *)
Fixpoint build_system_order (fuel : nat) (c : nat) : M organizer unit :=
  match fuel with
  | O => λ _, OutOfFuel
  | S fuel =>
      modify (set_sys_trail (λ t, t ++ [c])) ;;;
      o <- get ;;
      match sys_info o !! c with
      | None => raise KeyError
      | Some _ => for_inputs fuel c 0
      end
  end
with for_inputs (fuel : nat) (c : nat) (idx : nat) : M organizer unit :=
  match fuel with
  | O => λ _, OutOfFuel
  | S fuel =>
      o <- get ;;
      match default [] (sys_info o !! c) !! idx with
      | None => finish_component c
      | Some input_comp =>
          (if decide (input_comp ∈ sys_trail o)
           then _sever_system_loop input_comp else ret tt) ;;;
          o' <- get ;;
          (if decide (input_comp ∈ mapped o') then ret tt
           else build_system_order fuel input_comp) ;;;
          for_inputs fuel c (S idx)
      end
  end.

(** The organizer right after [define_sys_info]. *)
Definition fresh (info : gmap nat (list nat)) : organizer :=
  Organizer info [] [] ∅.

(** *** What the properties below speak of *)

(** The input dependencies of [c] in the working data, none for a missing
    key. *)
Definition inputs_of (info : gmap nat (list nat)) (c : nat) : list nat :=
  default [] (info !! c).

(** [a] depends on [b]; what [c] reaches along dependencies. *)
Definition depends (info : gmap nat (list nat)) (a b : nat) : Prop :=
  b ∈ inputs_of info a.
Definition reachable (info : gmap nat (list nat)) (c x : nat) : Prop :=
  rtc (depends info) c x.

(** Every dependency is a key of the working data. *)
Definition closed (info : gmap nat (list nat)) : Prop :=
  ∀ a b, depends info a b → is_Some (info !! b).

(** A dependency between two direct-feedthrough components; an algebraic
    loop is a cycle of such dependencies. *)
Definition df_edge (info : gmap nat (list nat)) (a b : nat) : Prop :=
  depends info a b ∧ direct_feedthrough a = true
  ∧ direct_feedthrough b = true.
Definition algebraic_loop (info : gmap nat (list nat)) (x : nat) : Prop :=
  tc (df_edge info) x x.

(** A dependency on a direct-feedthrough component: a severance never
    removes one.  A cycle of dependencies through a component that is not
    direct feedthrough. *)
Definition hard_edge (info : gmap nat (list nat)) (a b : nat) : Prop :=
  depends info a b ∧ direct_feedthrough b = true.
Definition breakable_loop (info : gmap nat (list nat)) (x : nat) : Prop :=
  direct_feedthrough x = false ∧ tc (depends info) x x.

(** The number of dependency edges of the working data. *)
Definition edge_count (info : gmap nat (list nat)) : nat :=
  map_fold (λ _ l n, (List.length l + n)%nat) 0%nat info.

(** [y] comes before [x] in the order [l]. *)
Definition precedes (y x : nat) (l : list nat) : Prop :=
  ∃ i j : nat, l !! i = Some y ∧ l !! j = Some x ∧ (i < j)%nat.

(** *** Measures of the traversal *)

(** Every dependency lies in the finite set [V]; the components of [V]
    that are neither mapped nor on the trail. *)
Definition within_universe (V : gset nat) (info : gmap nat (list nat))
  : Prop :=
  ∀ c l, info !! c = Some l → ∀ x, x ∈ l → x ∈ V.
Definition pending (V : gset nat) (o : organizer) : nat :=
  size (V ∖ mapped o ∖ list_to_set (sys_trail o)).

(** From [o] to [o']: an edge was severed, or the edges are the same, the
    mapped components still are, and the trail lost mapped components
    only. *)
Definition progress (o o' : organizer) : Prop :=
  (edge_count (sys_info o') < edge_count (sys_info o))%nat
  ∨ (sys_info o' = sys_info o ∧ mapped o ⊆ mapped o' ∧
     ∀ x, x ∈ sys_trail o → x ∈ sys_trail o' ∨ x ∈ mapped o').

(** With enough fuel [run] ends on [o], always in the same way, not by
    exhaustion; when it returns it has made progress and mapped [c]. *)
Definition settles (V : gset nat) (run : nat → M organizer unit)
    (o : organizer) (c : nat) : Prop :=
  ∃ (n : nat) (r : outcome organizer unit),
    (∀ fuel, (n ≤ fuel)%nat → run fuel o = r) ∧ r ≠ OutOfFuel ∧
    ∀ u o', r = Ret u o' →
      progress o o' ∧ within_universe V (sys_info o') ∧ c ∈ mapped o'.

(** *** Invariant of the traversal *)

(** Consecutive components of the trail are linked by a dependency. *)
Definition trail_path (info : gmap nat (list nat)) (t : list nat) : Prop :=
  ∀ (i : nat) x y, t !! i = Some x → t !! S i = Some y → y ∈ inputs_of info x.

(** The state [o] reached while resolving the diagram [G]; [A] holds the
    components whose call of [build_system_order] has not returned yet. *)
Record invariant (G : gmap nat (list nat)) (A : gset nat) (o : organizer)
  : Prop := Invariant {
  inv_mapped : ∀ x, x ∈ mapped o ↔ x ∈ ordered_comps o;
  inv_nodup : NoDup (ordered_comps o);
  inv_order : ∀ x y, x ∈ mapped o → y ∈ inputs_of (sys_info o) x →
                     precedes y x (ordered_comps o);
  inv_trail_nodup : NoDup (sys_trail o);
  inv_trail_unmapped : ∀ x, x ∈ sys_trail o → x ∉ mapped o;
  inv_trail_path : trail_path (sys_info o) (sys_trail o);
  inv_trail_active : ∀ x, x ∈ sys_trail o → x ∈ A;
  inv_keys : ∀ x, is_Some (sys_info o !! x) ↔ is_Some (G !! x);
  inv_sub : ∀ x y, y ∈ inputs_of (sys_info o) x → y ∈ inputs_of G x;
  inv_hard : ∀ x y, y ∈ inputs_of G x → direct_feedthrough y = true →
                    y ∈ inputs_of (sys_info o) x;
  inv_severed : ∀ x y, y ∈ inputs_of G x →
                       y ∈ inputs_of (sys_info o) x ∨ y ∈ mapped o ∨ y ∈ A;
}.

(** What a call for [c] has done when it returns in [o'], started in [o]. *)
Definition step_post (G : gmap nat (list nat)) (A : gset nat) (c : nat)
    (o o' : organizer) : Prop :=
  invariant G A o' ∧ c ∈ mapped o' ∧ mapped o ⊆ mapped o' ∧
  (∀ x, inputs_of (sys_info o') x = inputs_of (sys_info o) x
        ∨ x ∈ mapped o') ∧
  (∀ x, x ∈ mapped o' → x ∈ mapped o ∨ reachable G c x).

(** An outcome is sound when a return satisfies [P] and the only
    exception is the one of an algebraic loop, raised when there is one. *)
Definition sound (G : gmap nat (list nat)) (r : outcome organizer unit)
    (P : organizer → Prop) : Prop :=
  match r with
  | Ret _ o' => P o'
  | Raise e _ => e = AlgebraicLoopError ∧ ∃ x, algebraic_loop G x
  | OutOfFuel => True
  end.

(** The same when a dependency of the diagram may be no key of the working
    data: the lookup of such a component raises [KeyError]. *)
Definition sound_or_missing (G : gmap nat (list nat))
    (r : outcome organizer unit) (P : organizer → Prop) : Prop :=
  match r with
  | Ret _ o' => P o'
  | Raise e _ =>
      e = KeyError ∨ (e = AlgebraicLoopError ∧ ∃ x, algebraic_loop G x)
  | OutOfFuel => True
  end.

(** The states of the organizer between two calls of [build_system_order]
    from outside: the one [define_sys_info] leaves, and those in which a
    call for an unmapped component of the diagram has returned. *)
Inductive resolving (G : gmap nat (list nat)) : organizer → Prop :=
| resolving_fresh : resolving G (fresh G)
| resolving_call o c fuel o' :
    resolving G o → is_Some (G !! c) → c ∉ mapped o →
    build_system_order fuel c o = Ret tt o' → resolving G o'.
End organizer.

(** *** What a call may change *)

(** From [o] to [o']: the order got new components at its end, each of
    them once, none of them mapped before, and they are what became
    mapped. *)
Definition extends (o o' : organizer) : Prop :=
  ∃ new, ordered_comps o' = ordered_comps o ++ new ∧
         mapped o' = mapped o ∪ list_to_set new ∧
         NoDup new ∧ ∀ x, x ∈ new → x ∉ mapped o.

(** From [o] to [o']: the working data has the same keys, and each list of
    inputs is what is left of the former one when some elements are crossed
    out. *)
Definition shrinks (o o' : organizer) : Prop :=
  dom (sys_info o') = dom (sys_info o) ∧
  ∀ x, inputs_of (sys_info o') x `sublist_of` inputs_of (sys_info o) x.

(** *** Two diagrams *)

(** Three components [A = 0], [B = 1], [C = 2] in a ring: [B] takes its
    input from [A], [C] from [B] and [A] from [C]; [C] is not direct
    feedthrough. *)
Definition ring : gmap nat (list nat) :=
  {[ 0%nat := [2%nat]; 1%nat := [0%nat]; 2%nat := [1%nat] ]}.
Definition ring_feedthrough (c : nat) : bool := negb (c =? 2)%nat.

(** A loop between [0] and [1] through the non-direct-feedthrough [1], and
    a loop of the direct-feedthrough [2] on itself. *)
Definition two_loops : gmap nat (list nat) :=
  {[ 0%nat := [1%nat; 2%nat]; 1%nat := [0%nat]; 2%nat := [2%nat] ]}.
Definition two_loops_feedthrough (c : nat) : bool := negb (c =? 1)%nat.

End Organizer.


(** ** Strings: the regular expressions and conversions the code uses *)

Definition is_digit (c : ascii) : bool :=
  (48 <=? N_of_ascii c)%N && (N_of_ascii c <=? 57)%N.
Definition is_nonzero_digit (c : ascii) : bool :=
  (49 <=? N_of_ascii c)%N && (N_of_ascii c <=? 57)%N.
Definition digit_value (c : ascii) : Z := Z.of_N (N_of_ascii c) - 48.

Definition starts_nonzero (d : string) : Prop :=
  match d with
  | String c _ => is_nonzero_digit c = true
  | EmptyString => False
  end.

(** [str(n)] and [f"{n}"] of an [int] are the decimal numeral [pretty n]. *)
Definition str (n : Z) : string := pretty n.

(** [int(s)] on a string of ASCII decimal digits; every other string is a
    [ValueError] here ([None]).  Python also accepts a sign and surrounding
    blanks: no string that reaches [int] below has them. *)
Fixpoint int_digits (acc : Z) (s : string) : option Z :=
  match s with
  | EmptyString => Some acc
  | String c s' =>
      if is_digit c then int_digits (10 * acc + digit_value c) s' else None
  end.
Definition int (s : string) : option Z :=
  match s with
  | EmptyString => None
  | _ => int_digits 0 s
  end.

(** [s.rsplit('_', maxsplit=1)[1]]: the text after the last underscore;
    [None] is the [IndexError] of a string without underscore. *)
Fixpoint rsplit_underscore_1 (s : string) : option string :=
  match s with
  | EmptyString => None
  | String c s' =>
      match rsplit_underscore_1 s' with
      | Some r => Some r
      | None => if decide (c = "_"%char) then Some s' else None
      end
  end.

Fixpoint strip_prefix (p s : string) : option string :=
  match p, s with
  | EmptyString, _ => Some s
  | String a p', String b s' =>
      if decide (a = b) then strip_prefix p' s' else None
  | String _ _, EmptyString => None
  end.

(** [re.match(prefix + "_[1-9][0-9]*", key)] for a [prefix] without
    metacharacters: [re.match] anchors at the start only and [[0-9]*] may be
    empty, so there is a match exactly when [key] starts with [prefix], an
    underscore and a digit from 1 to 9. *)
Definition re_match_generated (prefix key : string) : bool :=
  match strip_prefix (prefix +:+ "_") key with
  | Some (String c _) => is_nonzero_digit c
  | _ => false
  end.

(** The pattern of an index suffix in [diagram.py] is one or more groups,
    each an underscore, a digit 1-9 and any digits 0-9, followed by the end
    anchor.  This is its automaton: it reads whole groups and accepts
    after the digits of a group; [in_digits n] carries the number the
    digits of the current (the last captured) group spell. *)
Inductive index_state : Type :=
| want_underscore
| want_nonzero
| in_digits (n : Z).

Fixpoint index_groups (q : index_state) (s : string) : option Z :=
  match s with
  | EmptyString => match q with in_digits n => Some n | _ => None end
  | String c s' =>
      match q with
      | want_underscore =>
          if decide (c = "_"%char) then index_groups want_nonzero s' else None
      | want_nonzero =>
          if is_nonzero_digit c
          then index_groups (in_digits (digit_value c)) s' else None
      | in_digits n =>
          if is_digit c
          then index_groups (in_digits (10 * n + digit_value c)) s'
          else if decide (c = "_"%char)
               then index_groups want_nonzero s' else None
      end
  end.

(** Leftmost match of the groups that reaches the end of [s]: the text
    before the match and the number of the last group. *)
Fixpoint index_suffix (s : string) : option (string * Z) :=
  match index_groups want_underscore s with
  | Some n => Some (EmptyString, n)
  | None =>
      match s with
      | EmptyString => None
      | String c s' =>
          match index_suffix s' with
          | Some (b, n) => Some (String c b, n)
          | None => None
          end
      end
  end.

(** [$] also matches just before a newline that ends the string. *)
Fixpoint strip_final_newline (s : string) : string :=
  match s with
  | EmptyString => EmptyString
  | String c EmptyString =>
      if decide (c = "010"%char) then EmptyString else s
  | String c s' => String c (strip_final_newline s')
  end.

(** [re.search] of the index-suffix pattern in [name], with what [re.split] and
    [int(name_index.split('_')[1])] make of the match. *)
Definition re_search_index (name : string) : option (string * Z) :=
  index_suffix (strip_final_newline name).

(** ** Name registry: [_NameManager] *)

Module NameManager.

(** [self._registry], the only attribute: basename to count. *)
Abbreviation registry := (gmap string Z).

Definition get_name_attrs (name : string) : string * Z :=
  match re_search_index name with
  | Some (basename, name_index) => (basename, name_index)
  | None => (name, 0)          (* except ValueError *)
  end.

Definition _is_implicitly_registered (name : string) : M registry bool :=
  reg <- get ;;
  let '(basename, name_index) := get_name_attrs name in
  match reg !! basename with
  | Some cnt => ret (bool_decide (name_index < cnt))
  | None => ret false
  end.

Definition _unregister_name (name : string) : M registry unit :=
  reg <- get ;;
  match reg !! name with
  | None => raise KeyError
  | Some name_cnt =>
      if decide (name_cnt = 1) then modify (delete name)
      else if decide (name_cnt > 1) then modify (<[name := name_cnt - 1]>)
      else ret tt
  end.

Definition unregister_name (name : string) : M registry unit :=
  reg <- get ;;
  if decide (is_Some (reg !! name)) then _unregister_name name
  else
    match re_search_index name with
    | Some _ =>
        let '(basename, _) := get_name_attrs name in
        if decide (is_Some (reg !! basename)) then _unregister_name basename
        else ret tt
    | None => raise NameError
    end.

(** The [while True] loop of [register_name]; one unit of fuel per turn. *)
Fixpoint register_name_loop (fuel : nat) (name : string) : M registry string :=
  match fuel with
  | O => λ _, OutOfFuel
  | S fuel =>
      reg <- get ;;
      match reg !! name with
      | None => raise KeyError
      | Some cnt =>
          let new_name := name +:+ "_" +:+ str cnt in
          modify (<[name := cnt + 1]>) ;;;
          reg' <- get ;;
          if decide (is_Some (reg' !! new_name))
          then unregister_name new_name ;;; register_name_loop fuel name
          else ret new_name
      end
  end.

Definition register_name (fuel : nat) (name : string) : M registry string :=
  reg <- get ;;
  if decide (is_Some (reg !! name)) then register_name_loop fuel name
  else modify (<[name := 1]>) ;;; ret name.

Definition register_custom_name (fuel : nat) (name : string)
  : M registry string :=
  reg <- get ;;
  match re_search_index name with
  | Some _ =>
      if decide (is_Some (reg !! name)) then raise NameError
      else
        implicit <- _is_implicitly_registered name ;;
        if implicit : bool
        then register_name fuel (get_name_attrs name).1 ;;; ret name
        else register_name fuel name
  | None => register_name fuel name
  end.

Definition is_name_registered (name : string) : M registry bool :=
  reg <- get ;;
  if decide (is_Some (reg !! name)) then ret true
  else match re_search_index name with
       | Some _ => _is_implicitly_registered name
       | None => ret false
       end.

Definition get_name_count (name : string) : M registry (option Z) :=
  reg <- get ;;
  match reg !! name with
  | Some cnt => ret (Some cnt)
  | None =>
      implicit <- _is_implicitly_registered name ;;
      if implicit : bool
      then match reg !! (get_name_attrs name).1 with
           | Some cnt => ret (Some cnt)
           | None => raise KeyError
           end
      else ret None
  end.

(** *** Sequences of registrations, and what the properties below speak of *)

Definition generated_name (name : string) (k : Z) : string :=
  name +:+ "_" +:+ str k.

(** What [_unregister_name] makes of the entry of a key. *)
Definition unregistered (entry : option Z) : option Z :=
  match entry with
  | Some cnt =>
      if decide (cnt = 1) then None
      else if decide (cnt > 1) then Some (cnt - 1) else Some cnt
  | None => None
  end.

Fixpoint register_names (fuel : nat) (names : list string)
  : M (gmap string Z) unit :=
  match names with
  | [] => ret tt
  | name :: names' =>
      register_name fuel name ;;; register_names fuel names'
  end.

Fixpoint unregister_names (names : list string) : M (gmap string Z) unit :=
  match names with
  | [] => ret tt
  | name :: names' => unregister_name name ;;; unregister_names names'
  end.

(** Registering [name] generates a name that is an explicit key. *)
Definition collides (reg : gmap string Z) (name : string) : bool :=
  match reg !! name with
  | Some cnt => bool_decide (is_Some (reg !! generated_name name cnt))
  | None => false
  end.

(** The registry after a registration of [name] that does not collide. *)
Definition counted (name : string) (reg : gmap string Z) : gmap string Z :=
  <[name := default 0 (reg !! name) + 1]> reg.

Fixpoint collision_free (reg : gmap string Z) (names : list string) : Prop :=
  match names with
  | [] => True
  | name :: names' =>
      collides reg name = false ∧ collision_free (counted name reg) names'
  end.

Definition positive_counts (reg : gmap string Z) : Prop :=
  ∀ key cnt, reg !! key = Some cnt → 1 ≤ cnt.

(** The count of a key, 0 when it is absent, and the number of times a
    name occurs in a sequence. *)
Definition count_of (reg : gmap string Z) (key : string) : Z :=
  default 0 (reg !! key).

Definition occurrences (key : string) (names : list string) : Z :=
  Z.of_nat (List.length (filter (λ name, name = key) names)).

(** A registry in which ["x_1"] is an explicit key next to ["x"]. *)
Definition colliding_registry : gmap string Z :=
  <["x" := 1]> (<["x_1" := 1]> ∅).

(** *** The registries that calls from outside make *)

(** A call of a public method that changes the registry. *)
Inductive request : Type :=
| req_register_name (name : string)
| req_register_custom_name (name : string)
| req_unregister_name (name : string).

Definition serve (fuel : nat) (r : request) : M registry unit :=
  match r with
  | req_register_name name => register_name fuel name ;;; ret tt
  | req_register_custom_name name => register_custom_name fuel name ;;; ret tt
  | req_unregister_name name => unregister_name name
  end.

(** The registry of a new [_NameManager], and the registry any call leaves,
    with a result or with an exception. *)
Inductive served : registry → Prop :=
| served_new : served ∅
| served_request reg fuel r res :
    served reg → serve fuel r reg = res → res ≠ OutOfFuel →
    served (state_after res reg).

End NameManager.

(** ** Property collections: [_ComponentProperty] *)

Module ComponentProperty.

(** The values a property can be given: [None], a component (an instance
    of [BaseComponent], named by a number), or any other object. *)
Inductive value : Type :=
| PyNone
| Component (c : nat)
| Other (o : Z).

Global Instance value_eq_dec : EqDecision value.
Proof. solve_decision. Defined.

(** [isinstance(value, (BaseComponent, type(None)))]. *)
Definition is_component_or_none (v : value) : bool :=
  match v with
  | PyNone | Component _ => true
  | Other _ => false
  end.

(** The class attribute [_ALLOWED_TYPES], as the [isinstance] test of each
    entry; [None] for a missing key. *)
Definition _ALLOWED_TYPES (prop_name : string) : option (value → bool) :=
  if decide (prop_name = "inputs") then Some is_component_or_none
  else if decide (prop_name = "outputs") then Some is_component_or_none
  else if decide (prop_name = "parameters") then Some (λ _, true)
  else None.

(** The object: the [dict] it extends ([items]) and its attributes.
    [_key_gen_count] exists on order-invariant properties only; no method
    reads it on the others, where the model keeps 0. *)
Record property : Type := Property {
  prop_name : string;
  _within_method : bool;
  _key_gen_count : Z;
  is_order_invariant : bool;
  items : gmap string value;
}.

Definition set_within (b : bool) (p : property) : property :=
  Property (prop_name p) b (_key_gen_count p) (is_order_invariant p) (items p).
Definition set_count (f : Z → Z) (p : property) : property :=
  Property (prop_name p) (_within_method p) (f (_key_gen_count p))
       (is_order_invariant p) (items p).
Definition set_items (f : gmap string value → gmap string value) (p : property)
  : property :=
  Property (prop_name p) (_within_method p) (_key_gen_count p)
       (is_order_invariant p) (f (items p)).

(** [prop_name + f"_{i}"] and [(prop_name + "_{}").format(i)]. *)
Definition generated_key (prop_name : string) (i : Z) : string :=
  prop_name +:+ "_" +:+ str i.

(** The methods of [dict] itself. *)
Definition dict_getitem (key : string) : M property value :=
  self <- get ;;
  match items self !! key with
  | Some v => ret v
  | None => raise KeyError
  end.
Definition dict_setitem (key : string) (v : value) : M property unit :=
  modify (set_items (<[key := v]>)).
Definition dict_delitem (key : string) : M property unit :=
  self <- get ;;
  match items self !! key with
  | Some _ => modify (set_items (delete key))
  | None => raise KeyError
  end.

(** *** Decorators *)

Definition _non_erasable_order_dependent_method {A} (func : M property A)
  : M property A :=
  self <- get ;;
  if is_order_invariant self then func else raise AttributeError_erase.

(** The wrapper calls [func] and drops its result. *)
Definition _detect_invalid_key_entry {A} (func : M property A) : M property unit :=
  try_except (func ;;; ret tt) (λ e, bool_decide (e = KeyError))
             (raise KeyError).

Definition _block_outside_modification {A} (func : M property A) : M property unit :=
  self <- get ;;
  if _within_method self then func ;;; ret tt
  else raise AttributeError_outside.

(** *** Checks *)

(** Keys are strings in this model, so the [isinstance(key, str)] test of
    [_check_key_type] passes. *)
Definition _check_key_type (key : string) : M property unit := ret tt.

Definition _check_value_type (v : value) : M property unit :=
  self <- get ;;
  match _ALLOWED_TYPES (prop_name self) with
  | None => raise KeyError
  | Some prop_types => if prop_types v then ret tt else raise TypeError
  end.

(** [int(key.rsplit('_', maxsplit=1)[1])]. *)
Definition key_index_of (key : string) : M property Z :=
  match rsplit_underscore_1 key with
  | None => raise IndexError
  | Some digits =>
      match int digits with
      | None => raise ValueError
      | Some i => ret i
      end
  end.

Definition _check_for_key_generated_format (key : string) : M property unit :=
  self <- get ;;
  if re_match_generated (prop_name self) key then
    key_index <- key_index_of key ;;
    if decide (key_index > _key_gen_count self) then raise KeyError
    else ret tt
  else raise KeyError.

Definition _check_if_key_is_in_defined_variables (key : string)
  : M property unit :=
  self <- get ;;
  match items self !! key with
  | Some _ => ret tt
  | None => raise KeyError
  end.

(** *** Item assignment *)

Definition setitem_body (key : string) (v : value) : M property unit :=
  _check_key_type key ;;;
  _check_value_type v ;;;
  self <- get ;;
  (if is_order_invariant self then _check_for_key_generated_format key
   else _check_if_key_is_in_defined_variables key) ;;;
  dict_setitem key v.

(** [__setitem__], with its decorator. *)
Definition setitem (key : string) (v : value) : M property unit :=
  _block_outside_modification (setitem_body key v).

(** *** [update] *)

Definition _update (kwargs : gmap string value) : M property unit :=
  self <- get ;;
  if decide (map_Forall (λ key _, is_Some (items self !! key)) kwargs)
  then modify (set_items (λ d, kwargs ∪ d))       (* [dict.update] *)
  else raise KeyError.

(** The first argument of [update]: absent ([None]), a [dict], or some
    other object. *)
Inductive update_arg : Type :=
| no_dict
| a_dict (d : gmap string value)
| not_a_dict.

Definition update (update_dict : update_arg) (kwargs : gmap string value)
  : M property unit :=
  match update_dict with
  | a_dict d => _update d
  | no_dict => ret tt
  | not_a_dict => raise TypeError
  end ;;;
  _update kwargs.

(** *** Item deletion *)

(** The dict comprehension of [_shift_values_to_the_left], over the indices
    [indices]; a later binding of a key replaces an earlier one. *)
Fixpoint new_prop_entries_of (indices : list Z) (acc : gmap string value)
  : M property (gmap string value) :=
  match indices with
  | [] => ret acc
  | i :: is' =>
      self <- get ;;
      v <- dict_getitem (generated_key (prop_name self) (i + 1)) ;;
      new_prop_entries_of is' (<[generated_key (prop_name self) i := v]> acc)
  end.

Definition _shift_values_to_the_left (key : string) : M property unit :=
  key_index <- key_index_of key ;;
  self <- get ;;
  if decide (key_index < _key_gen_count self) then
    new_prop_entries <-
      new_prop_entries_of
        (seqZ key_index (_key_gen_count self - key_index)) ∅ ;;
    match new_prop_entries !! key with
    | None => raise KeyError
    | Some v =>
        setitem key v ;;;
        update (a_dict new_prop_entries) ∅ ;;;
        dict_delitem (generated_key (prop_name self) (_key_gen_count self))
    end
  else ret tt.

Definition delitem_body (key : string) : M property unit :=
  self <- get ;;
  if re_match_generated (prop_name self) key then
    modify (set_count (λ n, n - 1)) ;;;
    dict_delitem key ;;;
    _shift_values_to_the_left key
  else raise KeyError.

(** [__delitem__], with its two decorators. *)
Definition delitem (key : string) : M property unit :=
  _block_outside_modification
    (_non_erasable_order_dependent_method (delitem_body key)).

(** *** Public methods *)

Fixpoint add_args (args : list value) : M property unit :=
  match args with
  | [] => ret tt
  | v :: args' =>
      self <- get ;;
      setitem (generated_key (prop_name self) (_key_gen_count self)) v ;;;
      modify (set_count (λ n, n + 1)) ;;;
      add_args args'
  end.

Fixpoint add_kwargs (kwargs : list (string * value)) : M property unit :=
  match kwargs with
  | [] => ret tt
  | (key, v) :: kwargs' => setitem key v ;;; add_kwargs kwargs'
  end.

Definition add (args : list value) (kwargs : list (string * value))
  : M property unit :=
  modify (set_within true) ;;;
  self <- get ;;
  (if is_order_invariant self then add_args args else add_kwargs kwargs) ;;;
  modify (set_within false).

Definition pop (key : string) : M property unit :=
  _detect_invalid_key_entry
    (modify (set_within true) ;;;
     v <- dict_getitem key ;;
     delitem key ;;;
     modify (set_within false) ;;;
     ret v).

Definition popitem : M property unit :=
  _detect_invalid_key_entry
    (_non_erasable_order_dependent_method
       (modify (set_within true) ;;;
        self <- get ;;
        let prop_name := generated_key (prop_name self)
                                       (_key_gen_count self - 1) in
        v <- dict_getitem prop_name ;;
        delitem prop_name ;;;
        modify (set_within false) ;;;
        ret (prop_name, v))).

Definition clear : M property unit :=
  _non_erasable_order_dependent_method
    (modify (set_items (λ _, ∅)) ;;; modify (set_count (λ _, 1))).

(** [_ComponentProperty.init]: the constructor runs on an empty dict for
    an order-invariant property ([prop_info] is [None]) and on the declared
    keys, each bound to [None], otherwise; it rejects a [prop_name] that
    [_ALLOWED_TYPES] does not list. *)
Definition init (prop_name : string)
    (prop_info : option (list string * list string)) : exn + property :=
  let self :=
    match prop_info with
    | None => Property prop_name false 1 true ∅
    | Some (_, all_keys) =>
        Property prop_name false 0 false
             (foldl (λ d key, <[key := PyNone]> d) ∅ all_keys)
    end in
  match _ALLOWED_TYPES prop_name with
  | Some _ => inr self
  | None => inl NameError
  end.

(** An order-invariant [inputs] property as [init "inputs" None] builds it,
    and an order-dependent one with the single declared key ["test"]. *)
Definition unordered_inputs : property := Property "inputs" false 1 true ∅.
Definition ordered_inputs : property :=
  Property "inputs" false 0 false {["test" := PyNone]}.

(** *** Sequences of public calls *)

Inductive call : Type :=
| call_add (args : list value) (kwargs : list (string * value))
| call_pop (key : string)
| call_popitem.

Definition run_call (c : call) (p : property) : property :=
  match c with
  | call_add args kwargs => state_after (add args kwargs p) p
  | call_pop key => state_after (pop key p) p
  | call_popitem => state_after (popitem p) p
  end.

Definition run_calls (cs : list call) (p : property) : property :=
  foldl (λ p c, run_call c p) p cs.

(** The keys are the generated ones below the counter ([contiguous]), and
    every value has an allowed type ([well_typed]). *)
Definition contiguous (pn : string) (p : property) : Prop :=
  1 ≤ _key_gen_count p ∧
  ∀ key, is_Some (items p !! key) ↔
         ∃ i, 1 ≤ i < _key_gen_count p ∧ key = generated_key pn i.
Definition well_typed (allowed : value → bool) (p : property) : Prop :=
  ∀ key v, items p !! key = Some v → allowed v = true.
Definition unordered (pn : string) (p : property) : Prop :=
  prop_name p = pn ∧ is_order_invariant p = true.
Definition compact (pn : string) (allowed : value → bool) (p : property)
  : Prop :=
  unordered pn p ∧ contiguous pn p ∧ well_typed allowed p.

(** *** [sort] and [remove] *)

(** What [sort] gives: the list it returns, the [KeyError] of a generated
    key that the dict does not have, or its own [AttributeError] ("Order-
    dependent component properties do not need to be organized. ..."). *)
Inductive sort_outcome : Type :=
| sort_values (vs : list value)
| sort_KeyError
| sort_AttributeError.

(** [sort]: the values under the generated keys of [range(1,
    self._key_gen_count)]; the object is not changed. *)
Definition sort (self : property) : sort_outcome :=
  if is_order_invariant self then
    match mapM (λ i, items self !! generated_key (prop_name self) i)
               (seqZ 1 (_key_gen_count self - 1)) with
    | Some vs => sort_values vs
    | None => sort_KeyError
    end
  else sort_AttributeError.

(** The loop of [remove] over [self.copy().items()]: the keys and values
    are those of the copy, the deletions and assignments act on the
    object. *)
Fixpoint remove_loop (snapshot : list (string * value)) (v : value)
  : M property unit :=
  match snapshot with
  | [] => ret tt
  | (key, prop_comp) :: rest =>
      (if decide (prop_comp = v) then
         self <- get ;;
         if is_order_invariant self then delitem key
         else setitem key PyNone
       else ret tt) ;;;
      remove_loop rest v
  end.

(** [remove(value)].  A dict iterates in the order in which its keys were
    inserted, which [items] does not record: [order] is that order, the
    keys of the dict, each once. *)
Definition remove (order : list string) (v : value) : M property unit :=
  modify (set_within true) ;;;
  self <- get ;;
  remove_loop (omap (λ key, pair key <$> items self !! key) order) v ;;;
  modify (set_within false).

Definition key_order (p : property) (order : list string) : Prop :=
  NoDup order ∧ ∀ key, key ∈ order ↔ is_Some (items p !! key).

(** *** [BaseComponent.pass_default_parameters] *)

(** The second element of [prop_info["parameters"]]: a dict from the
    parameters to their default values, given by its items, or some other
    container of the parameters. *)
Inductive all_parameters_info : Type :=
| defaults_dict (all_parameters : list (string * value))
| no_defaults (all_parameters : list string).

(** The loop that fills [non_init_parameters]; the state is the property
    [self.parameters], which it reads. *)
Fixpoint non_init_parameters_of (req_parameters : list string)
    (all_parameters : list (string * value)) (acc : gmap string value)
  : M property (gmap string value) :=
  match all_parameters with
  | [] => ret acc
  | (parameter, default_value) :: rest =>
      if decide (parameter ∉ req_parameters) then
        w <- dict_getitem parameter ;;
        if decide (w = PyNone)
        then non_init_parameters_of req_parameters rest
               (<[parameter := default_value]> acc)
        else non_init_parameters_of req_parameters rest acc
      else non_init_parameters_of req_parameters rest acc
  end.

Definition pass_default_parameters
    (parameter_info : option (list string * all_parameters_info))
  : M property unit :=
  match parameter_info with
  | Some (req_parameters, defaults_dict all_parameters) =>
      non_init_parameters <-
        non_init_parameters_of req_parameters all_parameters ∅ ;;
      update (a_dict non_init_parameters) ∅
  | _ => ret tt
  end.

(** *** Sequences of calls of all the public methods that change the
    object *)

Inductive method : Type :=
| m_add (args : list value) (kwargs : list (string * value))
| m_pop (key : string)
| m_popitem
| m_clear
| m_update (update_dict : update_arg) (kwargs : gmap string value)
| m_remove (order : list string) (v : value).

Definition run_method (m : method) (p : property) : property :=
  match m with
  | m_add args kwargs => state_after (add args kwargs p) p
  | m_pop key => state_after (pop key p) p
  | m_popitem => state_after (popitem p) p
  | m_clear => state_after (clear p) p
  | m_update update_dict kwargs => state_after (update update_dict kwargs p) p
  | m_remove order v => state_after (remove order v p) p
  end.

Definition run_methods (ms : list method) (p : property) : property :=
  foldl (λ p m, run_method m p) p ms.

(** A call other than [remove] whose [update], if it is one, brings values
    of an allowed type only. *)
Definition typed_update (allowed : value → bool) (m : method) : Prop :=
  match m with
  | m_remove _ _ => False
  | m_update update_dict kwargs =>
      match update_dict with
      | a_dict d => map_Forall (λ _ v, allowed v = true) d
      | _ => True
      end ∧ map_Forall (λ _ v, allowed v = true) kwargs
  | _ => True
  end.

(** The same keys, the same name and the same kind of property. *)
Definition same_schema (p p' : property) : Prop :=
  dom (items p') = dom (items p) ∧ prop_name p' = prop_name p ∧
  is_order_invariant p' = is_order_invariant p.

End ComponentProperty.

(** ** Code assembly: [BaseBuilder] *)

Module Builder.

Definition newline : string := String "010"%char EmptyString.

(** [_create_imports(diagram, all_imports)]: [lib_deps] stands for
    [diagram.lib_deps.items()], each alternate name [None] or a string; the
    state is the set [all_imports], which the caller shares between the
    diagrams. *)
Fixpoint _create_imports_loop (lib_deps : list (string * option string))
    (imports : string) : M (gset string) string :=
  match lib_deps with
  | [] => ret imports
  | (lib_name, alt_name) :: rest =>
      all_imports <- get ;;
      if decide (lib_name ∈ all_imports)
      then _create_imports_loop rest imports
      else
        modify (λ s, {[lib_name]} ∪ s) ;;;
        let imports := imports +:+ ("import " +:+ lib_name) in
        let imports :=
          match alt_name with
          | Some alt => imports +:+ (" as " +:+ alt)
          | None => imports
          end in
        let imports := imports +:+ newline in
        _create_imports_loop rest imports
  end.

Definition _create_imports (lib_deps : list (string * option string))
  : M (gset string) string :=
  _create_imports_loop lib_deps EmptyString.

Section builder.
(** A diagram gives its library dependencies; [create_diagram_code] is
    the abstract method of the builder. *)
Variable diagram : Type.
Variable lib_deps : diagram → list (string * option string).
Variable create_diagram_code : diagram → string.

Fixpoint _create_code_string_loop (diagrams : list diagram)
    (code imports : string) : M (gset string) string :=
  match diagrams with
  | [] => ret (imports +:+ code)
  | d :: rest =>
      let code := code +:+ create_diagram_code d in
      new_imports <- _create_imports (lib_deps d) ;;
      _create_code_string_loop rest code (imports +:+ new_imports)
  end.

(** [_create_code_string(diagrams)]; [all_imports] starts empty. *)
Definition _create_code_string (diagrams : list diagram) : string :=
  match _create_code_string_loop diagrams EmptyString EmptyString ∅ with
  | Ret script _ => script
  | _ => EmptyString
  end.
End builder.

(** *** What the properties below speak of *)

(** The line written for one library. *)
Definition import_line (lib : string * option string) : string :=
  match lib.2 with
  | Some alt => "import " +:+ lib.1 +:+ " as " +:+ alt +:+ newline
  | None => "import " +:+ lib.1 +:+ newline
  end.

(** The concatenation of strings. *)
Definition concat_strings (l : list string) : string :=
  foldr String.append EmptyString l.

End Builder.

(** ** Facts about strings and numerals *)

Lemma append_nil (s : string) : EmptyString +:+ s = s.
Proof. reflexivity. Qed.
Lemma append_cons (c : ascii) (a s : string) :
  String c a +:+ s = String c (a +:+ s).
Proof. reflexivity. Qed.
Lemma append_nil_r (s : string) : s +:+ EmptyString = s.
Proof. induction s as [|c s IH]; [done|]. by rewrite append_cons, IH. Qed.
Lemma append_assoc (a b c : string) : (a +:+ b) +:+ c = a +:+ (b +:+ c).
Proof.
  induction a as [|x a IH]; [done|]. by rewrite !append_cons, IH.
Qed.

Lemma int_digits_snoc d c acc :
  int_digits acc (d +:+ String c EmptyString) =
  match int_digits acc d with
  | Some v => if is_digit c then Some (10 * v + digit_value c) else None
  | None => None
  end.
Proof.
  revert acc. induction d as [|a d IH]; intros acc;
    rewrite ?append_nil, ?append_cons; simpl.
  - by destruct (is_digit c).
  - destruct (is_digit a); [apply IH|done].
Qed.

Lemma pretty_N_char_digit x :
  (x < 10)%N →
  is_digit (pretty_N_char x) = true ∧
  digit_value (pretty_N_char x) = Z.of_N x ∧
  ((0 < x)%N → is_nonzero_digit (pretty_N_char x) = true).
Proof.
  intros Hx.
  assert (x = 0 ∨ x = 1 ∨ x = 2 ∨ x = 3 ∨ x = 4 ∨ x = 5 ∨ x = 6 ∨ x = 7
          ∨ x = 8 ∨ x = 9)%N as Hc by lia.
  repeat (destruct Hc as [->|Hc]); try subst x;
    (split; [done|split; [done|intros; done || lia]]).
Qed.

Lemma pretty_N_go_numeral x s :
  ∃ d, pretty_N_go x s = d +:+ s ∧ int_digits 0 d = Some (Z.of_N x) ∧
       ((0 < x)%N → starts_nonzero d) ∧ (x = 0%N → d = EmptyString).
Proof.
  revert s. induction (N.lt_wf_0 x) as [x _ IH]; intros s.
  destruct (decide (x = 0%N)) as [->|Hx].
  { exists EmptyString. rewrite pretty_N_go_0.
    split_and!; [done|done|lia|done]. }
  rewrite pretty_N_go_step by lia.
  destruct (IH (x `div` 10)%N) with (s := String (pretty_N_char (x `mod` 10)) s)
    as (d & Hd & Hint & Hnz & Hz).
  { apply N.div_lt; lia. }
  destruct (pretty_N_char_digit (x `mod` 10)) as (Hdig & Hval & Hnzc).
  { apply N.mod_lt; lia. }
  exists (d +:+ String (pretty_N_char (x `mod` 10)) EmptyString).
  split_and!; [| | |done].
  - rewrite Hd, append_assoc. done.
  - rewrite int_digits_snoc, Hint, Hdig, Hval. f_equal.
    pose proof (N.div_mod x 10 ltac:(lia)). lia.
  - intros _. destruct (decide (x `div` 10 = 0)%N) as [H0|H0].
    + rewrite (Hz H0), append_nil. simpl.
      apply Hnzc. pose proof (N.div_mod x 10 ltac:(lia)). lia.
    + destruct d as [|a d]; rewrite ?append_cons; simpl; [|by apply Hnz, N.neq_0_lt_0].
      exfalso. simpl in Hint. injection Hint. lia.
Qed.

Lemma str_numeral n :
  1 ≤ n → starts_nonzero (str n) ∧ int (str n) = Some n.
Proof.
  intros Hn. destruct n as [|p|p]; [lia| |lia].
  unfold str, pretty, pretty_Z, pretty, pretty_positive, pretty, pretty_N.
  rewrite decide_False by done.
  destruct (pretty_N_go_numeral (N.pos p) EmptyString)
    as (d & -> & Hint & Hnz & _).
  rewrite append_nil_r.
  specialize (Hnz ltac:(lia)). split; [done|].
  destruct d; [done|]. exact Hint.
Qed.

Lemma str_inj : Inj (=) (=) str.
Proof. unfold str. apply _. Qed.

(** A string that [int_digits] accepts has no underscore. *)
Lemma rsplit_digits acc d v :
  int_digits acc d = Some v → rsplit_underscore_1 d = None.
Proof.
  revert acc. induction d as [|c d IH]; intros acc; simpl; [done|].
  destruct (is_digit c) eqn:Hc; [|done]. intros H.
  rewrite (IH _ H). destruct (decide (c = "_"%char)) as [->|]; done.
Qed.

Lemma rsplit_generated p d :
  rsplit_underscore_1 d = None →
  rsplit_underscore_1 (p +:+ "_" +:+ d) = Some d.
Proof.
  intros Hd. induction p as [|c p IH].
  - rewrite append_nil, append_cons, append_nil. simpl. by rewrite Hd.
  - rewrite append_cons. simpl. by rewrite IH.
Qed.

Lemma strip_prefix_app p s : strip_prefix p (p +:+ s) = Some s.
Proof.
  induction p as [|c p IH]; [done|].
  rewrite append_cons. simpl. by rewrite decide_True.
Qed.

Lemma append_inj_l (p a b : string) : p +:+ a = p +:+ b → a = b.
Proof.
  induction p as [|c p IH]; [done|]. rewrite !append_cons. intros [=]. auto.
Qed.

Lemma append_length (a b : string) :
  String.length (a +:+ b) = (String.length a + String.length b)%nat.
Proof.
  induction a as [|c a IH]; [done|]. rewrite append_cons. simpl. by rewrite IH.
Qed.

(** ** Facts about property collections *)

Import ComponentProperty.

Ltac run := cbv [bind get ret raise modify].

Section property_facts.
Variable pn : string.
Variable allowed : value → bool.
Hypothesis pn_allowed : _ALLOWED_TYPES pn = Some allowed.

Lemma generated_key_inj i j :
  generated_key pn i = generated_key pn j → i = j.
Proof.
  unfold generated_key. intros H.
  apply append_inj_l in H. apply (append_inj_l "_") in H.
  by apply str_inj.
Qed.

Lemma re_match_generated_key i :
  1 ≤ i → re_match_generated pn (generated_key pn i) = true.
Proof.
  intros Hi. unfold re_match_generated, generated_key.
  rewrite <- append_assoc, strip_prefix_app.
  destruct (str_numeral i Hi) as [Hnz _]. by destruct (str i).
Qed.

Lemma key_index_of_generated i p :
  1 ≤ i → key_index_of (generated_key pn i) p = Ret i p.
Proof.
  intros Hi. unfold key_index_of, generated_key.
  destruct (str_numeral i Hi) as [Hnz Hint].
  rewrite rsplit_generated, Hint; [done|].
  unfold int in Hint. destruct (str i) eqn:E; [done|].
  by eapply rsplit_digits.
Qed.

Lemma setitem_generated p i v :
  unordered pn p → _within_method p = true →
  1 ≤ i ≤ _key_gen_count p → allowed v = true →
  setitem (generated_key pn i) v p
  = Ret tt (set_items (<[generated_key pn i := v]>) p).
Proof.
  intros [Hpn Hoi] Hw Hi Hv.
  unfold setitem, _block_outside_modification. run. rewrite Hw.
  unfold setitem_body, _check_key_type, _check_value_type. run.
  rewrite Hpn, pn_allowed, Hv, Hoi.
  unfold _check_for_key_generated_format. run.
  rewrite Hpn, re_match_generated_key by lia.
  rewrite key_index_of_generated by lia.
  rewrite decide_False by lia. done.
Qed.

Lemma setitem_bad_type p key v :
  prop_name p = pn → _within_method p = true → allowed v = false →
  setitem key v p = Raise TypeError p.
Proof.
  intros Hpn Hw Hv.
  unfold setitem, _block_outside_modification. run. rewrite Hw.
  unfold setitem_body, _check_key_type, _check_value_type. run.
  by rewrite Hpn, pn_allowed, Hv.
Qed.

Lemma compact_insert p v :
  compact pn allowed p → allowed v = true →
  compact pn allowed (set_count (λ n, n + 1)
             (set_items (<[generated_key pn (_key_gen_count p) := v]>) p)).
Proof.
  intros (Hu & [Hc Hk] & Ht) Hv. split_and!; [done| |].
  - split; simpl; [lia|]. intros key.
    rewrite lookup_insert_is_Some, Hk. split.
    + intros [<-|[_ (i & Hi & ->)]]; [exists (_key_gen_count p)|exists i];
        split; (lia || done).
    + intros (i & Hi & ->).
      destruct (decide (i = _key_gen_count p)) as [->|]; [by left|].
      right. split; [intros E; by apply generated_key_inj in E|].
      exists i. split; [lia|done].
  - intros key w. simpl. rewrite lookup_insert_Some.
    intros [[_ <-]|[_ Hw]]; [done|by eapply Ht].
Qed.

Lemma add_args_compact args p :
  compact pn allowed p → _within_method p = true →
  ∃ p', (add_args args p = Ret tt p' ∨ add_args args p = Raise TypeError p')
        ∧ compact pn allowed p' ∧ _within_method p' = true.
Proof.
  revert p. induction args as [|v args IH]; intros p Hp Hw.
  { exists p. split_and!; [by left|done..]. }
  destruct Hp as (Hu & Hc & Ht). simpl. run.
  destruct Hu as [Hpn Hoi]. rewrite Hpn.
  destruct (allowed v) eqn:Hv.
  - rewrite setitem_generated; [|done|done|destruct Hc; lia|done].
    apply IH; [|done].
    by apply (compact_insert p v).
  - rewrite setitem_bad_type by done.
    exists p. split_and!; [by right|done|done].
Qed.

Lemma compact_set_within b p : compact pn allowed p → compact pn allowed (set_within b p).
Proof. intros (? & ? & ?). done. Qed.

Lemma add_compact args kwargs p :
  compact pn allowed p →
  ∃ p', (add args kwargs p = Ret tt p' ∨ add args kwargs p = Raise TypeError p')
        ∧ compact pn allowed p'.
Proof.
  intros Hp. unfold add. run. simpl.
  destruct Hp as ([Hpn Hoi] & Hc & Ht). rewrite Hoi.
  destruct (add_args_compact args (set_within true p)) as (p' & Hr & Hp' & Hw');
    [done..|].
  destruct Hr as [-> | ->].
  - exists (set_within false p'). split; [by left|by apply compact_set_within].
  - exists p'. split; [by right|done].
Qed.

Lemma new_prop_entries_of_spec p js acc :
  prop_name p = pn → NoDup js →
  (∀ j, j ∈ js → is_Some (items p !! generated_key pn (j + 1))) →
  ∃ E, new_prop_entries_of js acc p = Ret E p ∧
       (∀ j, j ∈ js →
             E !! generated_key pn j = items p !! generated_key pn (j + 1)) ∧
       (∀ key, (∀ j, j ∈ js → key ≠ generated_key pn j) →
               E !! key = acc !! key).
Proof.
  intros Hpn. revert acc. induction js as [|j js IH]; intros acc Hnd Hin.
  { exists acc. split_and!; [done| |done]. intros j Hj. by inversion Hj. }
  apply NoDup_cons in Hnd as [Hj Hnd].
  simpl. run. unfold dict_getitem. run. rewrite Hpn.
  destruct (Hin j) as [v Hv]; [by left|]. rewrite Hv.
  destruct (IH (<[generated_key pn j := v]> acc)) as (E & -> & HE1 & HE2);
    [done|by intros; apply Hin; right|].
  exists E. split_and!; [done| |].
  - intros j' [->|Hj']%elem_of_cons; [|by apply HE1].
    rewrite HE2, lookup_insert_eq; [done|].
    intros j' Hj' Heq%generated_key_inj. by subst.
  - intros key Hkey. rewrite HE2 by (intros; apply Hkey; by right).
    rewrite lookup_insert_ne; [done|]. intros <-. by eapply Hkey; [left|].
Qed.

Lemma delitem_compact p i :
  compact pn allowed p → _within_method p = true → 1 ≤ i < _key_gen_count p →
  ∃ p', delitem (generated_key pn i) p = Ret tt p' ∧
        compact pn allowed p' ∧ _within_method p' = true ∧
        _key_gen_count p' = _key_gen_count p - 1 ∧
        (∀ j, 1 ≤ j < i →
              items p' !! generated_key pn j = items p !! generated_key pn j) ∧
        (∀ j, i ≤ j < _key_gen_count p - 1 →
              items p' !! generated_key pn j
              = items p !! generated_key pn (j + 1)).
Proof.
  intros ([Hpn Hoi] & [Hc Hk] & Ht) Hw Hi.
  set (n := _key_gen_count p - 1).
  assert (∀ j, 1 ≤ j ≤ n → is_Some (items p !! generated_key pn j)) as Hex.
  { intros j Hj. apply Hk. exists j. split; [lia|done]. }
  unfold delitem, _block_outside_modification. run. rewrite Hw.
  unfold _non_erasable_order_dependent_method. run. rewrite Hoi.
  unfold delitem_body. run. rewrite Hpn, re_match_generated_key by lia.
  unfold dict_delitem at 1. run. simpl.
  destruct (Hex i) as [vi Hvi]; [lia|]. rewrite Hvi.
  unfold _shift_values_to_the_left. run.
  rewrite key_index_of_generated by lia. simpl.
  destruct (decide (i < _key_gen_count p - 1)) as [Hlt|Hge].
  - set (p1 := set_items (delete (generated_key pn i))
                 (set_count (λ n, n - 1) p)).
    destruct (new_prop_entries_of_spec p1
                (seqZ i (_key_gen_count p - 1 - i)) ∅) as (E & -> & HE1 & HE2).
    { done. }
    { apply NoDup_seqZ. }
    { intros j [Hj1 Hj2]%elem_of_seqZ. simpl.
      rewrite lookup_delete_ne by (intros ?%generated_key_inj; lia).
      apply Hex. lia. }
    assert (∀ j, i ≤ j < n →
                 E !! generated_key pn j = items p !! generated_key pn (j + 1))
      as HEin.
    { intros j Hj. rewrite HE1 by (apply elem_of_seqZ; lia). simpl.
      apply lookup_delete_ne. intros ?%generated_key_inj; lia. }
    assert (∀ key, E !! key ≠ None →
                   ∃ j, i ≤ j < n ∧ key = generated_key pn j) as HEout.
    { intros key Hkey.
      destruct (decide (Exists (λ j, key = generated_key pn j)
                               (seqZ i (n - i)))) as [Hyes|Hno].
      - apply Exists_exists in Hyes as (j & Hj & ->).
        apply elem_of_seqZ in Hj. exists j. split; [lia|done].
      - exfalso. apply Hkey. rewrite HE2; [done|].
        intros j Hj ->. apply Hno, Exists_exists. by exists j. }
    rewrite HEin by lia.
    destruct (Hex (i + 1)) as [v Hv]; [lia|]. rewrite Hv.
    rewrite (setitem_generated p1 i v); [|done|done|simpl; lia|by eapply Ht].
    unfold update, _update. run. simpl.
    rewrite decide_True; cycle 1.
    { intros key w Hkw. destruct (HEout key) as (j & Hj & ->); [congruence|].
      destruct (decide (j = i)) as [->|]; [by rewrite lookup_insert_eq|].
      rewrite lookup_insert_ne by (intros ?%generated_key_inj; lia).
      rewrite lookup_delete_ne by (intros ?%generated_key_inj; lia).
      apply Hex. lia. }
    rewrite decide_True by apply map_Forall_empty.
    unfold dict_delitem. run. simpl. rewrite (left_id_L ∅ (∪)).
    rewrite Hpn.
    assert (E !! generated_key pn (_key_gen_count p - 1) = None) as HEn.
    { destruct (E !! generated_key pn (_key_gen_count p - 1)) eqn:HE; [|done].
      destruct (HEout (generated_key pn (_key_gen_count p - 1)))
        as (j & Hj & ?%generated_key_inj); [congruence|lia]. }
    rewrite lookup_union_r by done.
    rewrite lookup_insert_ne by (intros ?%generated_key_inj; lia).
    rewrite lookup_delete_ne by (intros ?%generated_key_inj; lia).
    destruct (Hex n) as [vn Hvn]; [lia|]. subst n. rewrite Hvn.
    eexists. split; [done|]. simpl. rewrite (left_id_L ∅ (∪)).
    assert (∀ j, 1 ≤ j < _key_gen_count p - 1 →
       delete (generated_key pn (_key_gen_count p - 1))
         (E ∪ <[generated_key pn i:=v]> (delete (generated_key pn i) (items p)))
       !! generated_key pn j
       = if decide (j < i) then items p !! generated_key pn j
         else items p !! generated_key pn (j + 1)) as Hfinal.
    { intros j Hj.
      rewrite lookup_delete_ne by (intros ?%generated_key_inj; lia).
      case_decide.
      - rewrite lookup_union_r.
        + rewrite lookup_insert_ne by (intros ?%generated_key_inj; lia).
          apply lookup_delete_ne. intros ?%generated_key_inj; lia.
        + destruct (E !! generated_key pn j) eqn:HE; [|done].
          destruct (HEout (generated_key pn j))
            as (j' & Hj' & ?%generated_key_inj); [congruence|lia].
      - destruct (Hex (j + 1)) as [w Hw']; [lia|].
        rewrite Hw'. apply lookup_union_Some_l. rewrite HEin by lia. done. }
    split_and!; [split_and!| | | |]; simpl; try done.
    + split; simpl; rewrite ?(left_id_L ∅ (∪)); [lia|]. intros key. split.
      * intros [w Hkw]. apply lookup_delete_Some in Hkw as [Hne Hkw].
        apply lookup_union_Some_raw in Hkw as [Hkw|[_ Hkw]].
        { destruct (HEout key) as (j & Hj & ->); [by rewrite Hkw|].
          exists j. split; [lia|done]. }
        apply lookup_insert_Some in Hkw as [[<- _]|[_ Hkw]].
        { exists i. split; [lia|done]. }
        apply lookup_delete_Some in Hkw as [_ Hkw].
        destruct (proj1 (Hk key)) as (j & Hj & ->); [done|].
        exists j. split; [|done].
        assert (j ≠ _key_gen_count p - 1) by (intros ->; done). lia.
      * intros (j & Hj & ->). rewrite Hfinal by lia.
        case_decide; apply Hex; lia.
    + intros key w. simpl. rewrite ?(left_id_L ∅ (∪)). intros Hkw.
      apply lookup_delete_Some in Hkw as [Hne Hkw].
      apply lookup_union_Some_raw in Hkw as [Hkw|[_ Hkw]].
      { destruct (HEout key) as (j & Hj & ->); [by rewrite Hkw|].
        rewrite HEin in Hkw by done. by eapply Ht. }
      apply lookup_insert_Some in Hkw as [[_ <-]|[_ Hkw]]; [by eapply Ht|].
      apply lookup_delete_Some in Hkw as [_ Hkw]. by eapply Ht.
    + intros j Hj. rewrite Hfinal by lia. by rewrite decide_True by lia.
    + intros j Hj. rewrite Hfinal by lia. by rewrite decide_False by lia.
  - assert (i = n) as -> by lia. eexists. split; [done|].
    split_and!; [split_and!| | | |]; simpl; try done.
    + split; simpl; [lia|]. intros key. rewrite lookup_delete_is_Some, Hk.
      split.
      * intros [Hne (j & Hj & ->)]. exists j. split; [|done].
        assert (j ≠ n) by (intros ->; done). lia.
      * intros (j & Hj & ->). split.
        { intros ?%generated_key_inj. lia. }
        exists j. split; [lia|done].
    + intros key w Hkw. simpl in Hkw.
      apply lookup_delete_Some in Hkw as [_ Hkw]. by eapply Ht.
    + intros j Hj. apply lookup_delete_ne. intros ?%generated_key_inj; lia.
    + intros j Hj. lia.
Qed.

Lemma pop_generated p i :
  compact pn allowed p → 1 ≤ i < _key_gen_count p →
  ∃ p', pop (generated_key pn i) p = Ret tt p' ∧
        compact pn allowed p' ∧ _within_method p' = false ∧
        _key_gen_count p' = _key_gen_count p - 1 ∧
        (∀ j, 1 ≤ j < i →
              items p' !! generated_key pn j = items p !! generated_key pn j) ∧
        (∀ j, i ≤ j < _key_gen_count p - 1 →
              items p' !! generated_key pn j
              = items p !! generated_key pn (j + 1)).
Proof.
  intros Hp Hi.
  destruct (delitem_compact (set_within true p) i)
    as (p' & Hdel & Hp' & Hw' & Hn & Hlo & Hhi);
    [by apply compact_set_within|done|done|].
  destruct Hp as (Hu & [Hc Hk] & Ht).
  destruct (proj2 (Hk (generated_key pn i))) as [v Hv].
  { exists i. split; [lia|done]. }
  unfold pop, _detect_invalid_key_entry, try_except. run.
  unfold dict_getitem. run. simpl. rewrite Hv, Hdel.
  exists (set_within false p'). split; [done|].
  split_and!; [by apply compact_set_within|done..].
Qed.

Lemma pop_missing p key :
  items p !! key = None → pop key p = Raise KeyError (set_within true p).
Proof.
  intros Hk. unfold pop, _detect_invalid_key_entry, try_except. run.
  unfold dict_getitem. run. simpl. by rewrite Hk.
Qed.

Lemma pop_compact key p :
  compact pn allowed p →
  ∃ p', (pop key p = Ret tt p' ∨ pop key p = Raise KeyError p') ∧ compact pn allowed p'.
Proof.
  intros Hp. destruct (items p !! key) as [v|] eqn:Hv.
  - destruct Hp as (Hu & [Hc Hk] & Ht).
    destruct (proj1 (Hk key)) as (i & Hi & ->); [done|].
    destruct (pop_generated p i) as (p' & -> & Hp' & _); [done|lia|].
    exists p'. split; [by left|done].
  - exists (set_within true p). rewrite pop_missing by done.
    split; [by right|by apply compact_set_within].
Qed.

Lemma popitem_compact p :
  compact pn allowed p →
  ∃ p', (popitem p = Ret tt p' ∨ popitem p = Raise KeyError p') ∧ compact pn allowed p'.
Proof.
  intros Hp. pose proof Hp as ([Hpn Hoi] & [Hc Hk] & Ht).
  unfold popitem, _detect_invalid_key_entry, try_except. run.
  unfold _non_erasable_order_dependent_method. run. rewrite Hoi.
  unfold dict_getitem. run. simpl. rewrite Hpn.
  destruct (decide (_key_gen_count p = 1)) as [H1|H1].
  - assert (items p !! generated_key pn (_key_gen_count p - 1) = None) as ->.
    { apply eq_None_not_Some. intros (j & Hj & Heq%generated_key_inj)%Hk. lia. }
    exists (set_within true p).
    split; [by right|by apply compact_set_within].
  - destruct (proj2 (Hk (generated_key pn (_key_gen_count p - 1)))) as [v ->].
    { eexists. split; [|done]. lia. }
    destruct (delitem_compact (set_within true p) (_key_gen_count p - 1))
      as (p' & Hdel & Hp' & _);
      [by apply compact_set_within|done|simpl; lia|].
    rewrite Hdel. exists (set_within false p').
    split; [by left|by apply compact_set_within].
Qed.
End property_facts.

Section property_theorems.
Variable pn : string.
Variable allowed : value → bool.
Hypothesis pn_allowed : _ALLOWED_TYPES pn = Some allowed.

Lemma init_compact p0 : init pn None = inr p0 → compact pn allowed p0.
Proof.
  unfold init. rewrite pn_allowed. intros [= <-].
  split; [done|]. split.
  - split; simpl; [lia|]. intros key. rewrite lookup_empty. split.
    + by intros [? ?].
    + intros (i & Hi & _). lia.
  - intros key v. simpl. by rewrite lookup_empty.
Qed.

Lemma run_call_compact c p :
  compact pn allowed p → compact pn allowed (run_call c p).
Proof.
  intros Hp. destruct c as [args kwargs|key|]; simpl.
  - destruct (add_compact pn allowed pn_allowed args kwargs p Hp)
      as (p' & [-> | ->] & Hp'); done.
  - destruct (pop_compact pn allowed pn_allowed key p Hp)
      as (p' & [-> | ->] & Hp'); done.
  - destruct (popitem_compact pn allowed pn_allowed p Hp)
      as (p' & [-> | ->] & Hp'); done.
Qed.

Lemma run_calls_compact cs p :
  compact pn allowed p → compact pn allowed (run_calls cs p).
Proof.
  revert p. induction cs as [|c cs IH]; intros p Hp; [done|].
  simpl. by apply IH, run_call_compact.
Qed.

Lemma add_args_until_bad vs bad rest p :
  unordered pn p → _within_method p = true → 1 ≤ _key_gen_count p →
  Forall (λ v, allowed v = true) vs → allowed bad = false →
  ∃ p', add_args (vs ++ bad :: rest) p = Raise TypeError p' ∧
        unordered pn p' ∧ _within_method p' = true ∧
        _key_gen_count p' = _key_gen_count p + Z.of_nat (List.length vs) ∧
        (∀ (i : nat) v, vs !! i = Some v →
           items p' !! generated_key pn (_key_gen_count p + Z.of_nat i)
           = Some v) ∧
        (∀ key, (∀ i : nat, (i < List.length vs)%nat →
                   key ≠ generated_key pn (_key_gen_count p + Z.of_nat i)) →
                items p' !! key = items p !! key).
Proof.
  intros Hu Hw Hc Hvs Hbad. revert p Hu Hw Hc.
  induction Hvs as [|v vs Hv Hvs IH]; intros p Hu Hw Hc; simpl.
  - run. destruct Hu as [Hpn Hoi]. rewrite Hpn.
    rewrite (setitem_bad_type pn allowed) by done.
    exists p. split_and!; try done; simpl; try lia.
  - run. rewrite (proj1 Hu).
    rewrite (setitem_generated pn allowed) by (done || lia).
    destruct (IH (set_count (λ n, n + 1)
                    (set_items (<[generated_key pn (_key_gen_count p) := v]>) p)))
      as (p' & -> & Hu' & Hw' & Hc' & Hin & Hout); [done|done|simpl; lia|].
    simpl in *. exists p'. split_and!; try done.
    + lia.
    + intros [|i] w Hi; simpl in Hi.
      * injection Hi as <-. rewrite Hout.
        -- rewrite Z.add_0_r. apply lookup_insert_eq.
        -- intros i _ Heq%(generated_key_inj pn). lia.
      * rewrite <- (Hin i w Hi). f_equal. f_equal. lia.
    + intros key Hkey. rewrite Hout.
      * apply lookup_insert_ne. intros <-. apply (Hkey 0%nat); [lia|].
        f_equal. lia.
      * intros i Hi Heq. apply (Hkey (S i)); [lia|]. rewrite Heq.
        f_equal. lia.
Qed.
End property_theorems.

Lemma new_prop_entries_of_outcome js acc p :
  (∃ E, new_prop_entries_of js acc p = Ret E p)
  ∨ new_prop_entries_of js acc p = Raise KeyError p.
Proof.
  revert acc. induction js as [|j js IH]; intros acc; simpl.
  - left. by eexists.
  - run. unfold dict_getitem. run.
    destruct (items p !! _); [apply IH|by right].
Qed.

Lemma setitem_not_outside p key v s :
  _within_method p = true → setitem key v p ≠ Raise AttributeError_outside s.
Proof.
  intros Hw. unfold setitem, _block_outside_modification. run. rewrite Hw.
  unfold setitem_body, _check_key_type, _check_value_type,
    _check_for_key_generated_format, _check_if_key_is_in_defined_variables,
    key_index_of, dict_setitem.
  run. repeat case_match; congruence.
Qed.

Lemma setitem_within p key v p' :
  setitem key v p = Ret tt p' → _within_method p' = _within_method p.
Proof.
  unfold setitem, _block_outside_modification. run.
  unfold setitem_body, _check_key_type, _check_value_type,
    _check_for_key_generated_format, _check_if_key_is_in_defined_variables,
    key_index_of, dict_setitem.
  run. intros Hr. repeat case_match; simplify_eq/=; done.
Qed.

Lemma delitem_not_outside p key s :
  _within_method p = true → delitem key p ≠ Raise AttributeError_outside s.
Proof.
  intros Hw. unfold delitem, _block_outside_modification. run. rewrite Hw.
  unfold _non_erasable_order_dependent_method. run.
  destruct (is_order_invariant p); [|done].
  unfold delitem_body. run.
  destruct (re_match_generated _ key); [|done].
  unfold dict_delitem at 1. run. simpl.
  destruct (items p !! key); [|done].
  unfold _shift_values_to_the_left. run.
  unfold key_index_of. destruct (rsplit_underscore_1 key); [|done].
  destruct (int _); [|done]. run. simpl.
  case_decide; [|done].
  match goal with |- context [new_prop_entries_of ?js ?acc ?q] =>
    destruct (new_prop_entries_of_outcome js acc q) as [[E ->]| ->]; [|done]
  end.
  destruct (E !! key) as [w|]; [|done].
  match goal with |- context [setitem key w ?q] =>
    pose proof (setitem_not_outside q key w) as Hno;
    pose proof (setitem_within q key w) as Hwi;
    destruct (setitem key w q) as [[] q'|e q'|]
  end; [|intros [= -> ->]; by eapply Hno|done].
  unfold update, _update, dict_delitem. run. repeat case_match; congruence.
Qed.

(** C7, as amended.  On an order-invariant property built by [init], after
    any sequence of [add], [pop] and [popitem] calls (whether they return or
    raise) the keys are exactly the generated keys [prop_name_1] to
    [prop_name_(count-1)], the counter being one more than their number;
    and popping the [i]-th generated key returns, leaves the keys below [i]
    unchanged, gives every key from [i] on the value of its successor and
    decrements the counter, so that the next [add] generates the key that
    was last before the deletion.  The generated keys are spelled with the
    property name of the code, ["inputs_1"], not ["input_1"]. *)
Theorem compaction_invariant pn allowed p0 calls :
  _ALLOWED_TYPES pn = Some allowed → init pn None = inr p0 →
  let p := run_calls calls p0 in
  contiguous pn p ∧
  ∀ i, 1 ≤ i < _key_gen_count p →
    ∃ p', pop (generated_key pn i) p = Ret tt p' ∧
          contiguous pn p' ∧
          _key_gen_count p' = _key_gen_count p - 1 ∧
          (∀ j, 1 ≤ j < i →
             items p' !! generated_key pn j = items p !! generated_key pn j) ∧
          (∀ j, i ≤ j < _key_gen_count p - 1 →
             items p' !! generated_key pn j
             = items p !! generated_key pn (j + 1)).
Proof.
  intros Hal Hinit p.
  assert (compact pn allowed p) as Hp.
  { by apply run_calls_compact, init_compact. }
  split; [apply Hp|]. intros i Hi.
  destruct (pop_generated pn allowed Hal p i Hp Hi)
    as (p' & Hpop & Hp' & _ & Hc & Hlo & Hhi).
  exists p'. split_and!; [done|apply Hp'|done..].
Qed.

Lemma compaction_invariant_witness :
  let p := run_calls
             [call_add [Component 1; Component 2; Component 3] []]
             unordered_inputs in
  ∃ p', pop "inputs_2" p = Ret tt p' ∧
        items p' !! "inputs_1" = Some (Component 1) ∧
        items p' !! "inputs_2" = Some (Component 3) ∧
        items p' !! "inputs_3" = None ∧
        _key_gen_count p' = 3 ∧
        items (run_call (call_add [Component 4] []) p') !! "inputs_3"
        = Some (Component 4).
Proof.
  intros p.
  destruct (compaction_invariant "inputs" is_component_or_none
              unordered_inputs
              [call_add [Component 1; Component 2; Component 3] []]
              eq_refl eq_refl) as [_ Hpop].
  destruct (Hpop 2 ltac:(by vm_compute)) as (p' & Hp' & _).
  exists p'. split; [exact Hp'|].
  change (generated_key "inputs" 2) with "inputs_2" in Hp'.
  vm_compute in Hp'. injection Hp' as <-. by vm_compute.
Defined.

(** C7, as stated, fails: the keys an [inputs] property generates are
    ["inputs_1"], ["inputs_2"], ["inputs_3"]; there is no ["input_2"] to
    delete. *)
Lemma input_key_counterexample :
  let p := run_calls
             [call_add [Component 1; Component 2; Component 3] []]
             unordered_inputs in
  items p !! "input_2" = None ∧
  items p !! "inputs_2" = Some (Component 2) ∧
  pop "input_2" p = Raise KeyError (set_within true p).
Proof. by vm_compute. Qed.

(** C8: [update] stores a value that is neither a component nor [None] in
    an [inputs] property, order-dependent or order-invariant: it calls
    [dict.update] without the type check that [__setitem__] makes. *)
Theorem update_skips_type_check :
  is_component_or_none (Other 5) = false ∧
  (∃ p', update no_dict {["test" := Other 5]} ordered_inputs = Ret tt p' ∧
         items p' !! "test" = Some (Other 5)) ∧
  (∃ p p', add [PyNone] [] unordered_inputs = Ret tt p ∧
           update (a_dict {["inputs_1" := Other 5]}) ∅ p = Ret tt p' ∧
           items p' !! "inputs_1" = Some (Other 5)) ∧
  (∃ p, add [Other 5] [] unordered_inputs = Raise TypeError p).
Proof.
  split; [done|]. split_and!.
  - eexists. split; [vm_compute; reflexivity|by vm_compute].
  - do 2 eexists. split; [vm_compute; reflexivity|].
    split; [vm_compute; reflexivity|by vm_compute].
  - eexists. vm_compute. reflexivity.
Qed.

(** C9: once a public method has raised, item assignment and deletion
    from outside are accepted.  On the fresh property both are rejected;
    after [add] has raised a [TypeError] both go through. *)
Theorem outside_mutation_after_failed_add :
  setitem "inputs_1" PyNone unordered_inputs
  = Raise AttributeError_outside unordered_inputs ∧
  delitem "inputs_1" unordered_inputs
  = Raise AttributeError_outside unordered_inputs ∧
  ∃ p p1 p2,
    add [Other 5] [] unordered_inputs = Raise TypeError p ∧
    setitem "inputs_1" PyNone p = Ret tt p1 ∧
    items p1 !! "inputs_1" = Some PyNone ∧
    delitem "inputs_1" p1 = Ret tt p2 ∧
    items p2 !! "inputs_1" = None.
Proof.
  split; [done|]. split; [done|].
  do 3 eexists. split; [vm_compute; reflexivity|].
  split; [vm_compute; reflexivity|]. split; [by vm_compute|].
  split; [vm_compute; reflexivity|by vm_compute].
Qed.

(** C10: when [add] on an order-invariant property meets a value of a
    forbidden type after values of allowed types, it raises [TypeError]; the
    values before it are stored under the keys generated for them and the
    within-method guard stays engaged, so that neither item assignment nor
    item deletion from outside is rejected by the guard any more. *)
Theorem add_failure_leaves_guard_engaged pn allowed p vs bad rest kwargs :
  _ALLOWED_TYPES pn = Some allowed →
  prop_name p = pn → is_order_invariant p = true → 1 ≤ _key_gen_count p →
  Forall (λ v, allowed v = true) vs → allowed bad = false →
  ∃ p', add (vs ++ bad :: rest) kwargs p = Raise TypeError p' ∧
        _within_method p' = true ∧
        (∀ (i : nat) v, vs !! i = Some v →
           items p' !! generated_key pn (_key_gen_count p + Z.of_nat i)
           = Some v) ∧
        (∀ key v s, setitem key v p' ≠ Raise AttributeError_outside s) ∧
        (∀ key s, delitem key p' ≠ Raise AttributeError_outside s).
Proof.
  intros Hal Hpn Hoi Hc Hvs Hbad.
  destruct (add_args_until_bad pn allowed Hal vs bad rest (set_within true p))
    as (p' & Hadd & [Hpn' Hoi'] & Hw' & Hc' & Hin & Hout); try done.
  exists p'. unfold add. run. simpl. rewrite Hoi, Hadd.
  split_and!; [done|done|exact Hin| |].
  - intros key v s. by apply setitem_not_outside.
  - intros key s. by apply delitem_not_outside.
Qed.

Lemma add_failure_leaves_guard_engaged_witness :
  ∃ p', add [Component 1; Other 2; Component 3] [] unordered_inputs
        = Raise TypeError p' ∧
        _within_method p' = true ∧
        items p' !! "inputs_1" = Some (Component 1) ∧
        (∀ key v s, setitem key v p' ≠ Raise AttributeError_outside s) ∧
        (∀ key s, delitem key p' ≠ Raise AttributeError_outside s).
Proof.
  destruct (add_failure_leaves_guard_engaged "inputs" is_component_or_none
              unordered_inputs [Component 1] (Other 2) [Component 3] [])
    as (p' & Hadd & Hw & Hin & Hset & Hdel).
  - reflexivity.
  - reflexivity.
  - reflexivity.
  - simpl. lia.
  - by repeat constructor.
  - reflexivity.
  - exists p'. split_and!; [exact Hadd|exact Hw| |exact Hset|exact Hdel].
    exact (Hin 0%nat (Component 1) eq_refl).
Defined.

(** ** Facts about the name registry *)

Import NameManager.

Lemma generated_name_inj name i j :
  generated_name name i = generated_name name j → i = j.
Proof.
  unfold generated_name. intros H.
  apply append_inj_l in H. apply (append_inj_l "_") in H. by apply str_inj.
Qed.

Lemma generated_name_ne name k : generated_name name k ≠ name.
Proof.
  unfold generated_name. intros H. apply (f_equal String.length) in H.
  rewrite !append_length in H. simpl in H. lia.
Qed.

Lemma _unregister_name_present name reg :
  is_Some (reg !! name) →
  ∃ reg', _unregister_name name reg = Ret tt reg' ∧
          reg' !! name = unregistered (reg !! name) ∧
          ∀ key, key ≠ name → reg' !! key = reg !! key.
Proof.
  intros [cnt Hc]. unfold _unregister_name. run. rewrite Hc. simpl.
  destruct (decide (cnt = 1)); [|destruct (decide (cnt > 1))];
    eexists; (split; [done|]); split;
    rewrite ?lookup_delete_eq, ?lookup_insert_eq; try done;
    intros key Hkey; by rewrite ?lookup_delete_ne, ?lookup_insert_ne.
Qed.

Lemma unregister_name_present name reg :
  is_Some (reg !! name) → unregister_name name reg = _unregister_name name reg.
Proof. intros H. unfold unregister_name. run. by rewrite decide_True. Qed.

Lemma register_name_loop_spec (n : nat) : ∀ name reg k (fuel : nat),
  reg !! name = Some k →
  (∀ j : nat, (j < n)%nat →
     is_Some (reg !! generated_name name (k + Z.of_nat j))) →
  reg !! generated_name name (k + Z.of_nat n) = None →
  (n < fuel)%nat →
  ∃ reg', register_name_loop fuel name reg
          = Ret (generated_name name (k + Z.of_nat n)) reg' ∧
          reg' !! name = Some (k + Z.of_nat n + 1) ∧
          (∀ j : nat, (j < n)%nat →
             reg' !! generated_name name (k + Z.of_nat j)
             = unregistered (reg !! generated_name name (k + Z.of_nat j))) ∧
          (∀ key, key ≠ name →
             (∀ j : nat, (j < n)%nat →
                key ≠ generated_name name (k + Z.of_nat j)) →
             reg' !! key = reg !! key).
Proof.
  induction n as [|n IH]; intros name reg k fuel Hk Hin Hfree Hfuel;
    (destruct fuel as [|fuel]; [lia|]); cbn [register_name_loop]; run;
    rewrite Hk; cbn beta iota; fold (generated_name name k).
  - change (Z.of_nat 0) with 0 in *. rewrite Z.add_0_r in *.
    rewrite lookup_insert_ne by apply not_eq_sym, generated_name_ne.
    rewrite decide_False by (rewrite Hfree; by intros [? ?]).
    eexists. split; [done|]. split_and!.
    + rewrite lookup_insert_eq; f_equal; lia.
    + intros j Hj. lia.
    + intros key Hkey _. by rewrite lookup_insert_ne.
  - assert (generated_name name k ≠ name) as Hne by apply generated_name_ne.
    rewrite lookup_insert_ne by done.
    rewrite decide_True by (specialize (Hin 0%nat ltac:(lia));
                            by rewrite Z.add_0_r in Hin).
    rewrite unregister_name_present; cycle 1.
    { rewrite lookup_insert_ne by done.
      specialize (Hin 0%nat ltac:(lia)). by rewrite Z.add_0_r in Hin. }
    destruct (_unregister_name_present (generated_name name k)
                (<[name := k + 1]> reg)) as (reg1 & -> & Hg & Hother).
    { rewrite lookup_insert_ne by done.
      specialize (Hin 0%nat ltac:(lia)). by rewrite Z.add_0_r in Hin. }
    rewrite lookup_insert_ne in Hg by done.
    destruct (IH name reg1 (k + 1) fuel) as (reg' & -> & Hname & Hgen & Hrest).
    { rewrite Hother by done. apply lookup_insert_eq. }
    { intros j Hj. rewrite Hother, lookup_insert_ne.
      - replace (k + 1 + Z.of_nat j) with (k + Z.of_nat (S j)) by lia.
        apply Hin. lia.
      - apply not_eq_sym, generated_name_ne.
      - intros ?%generated_name_inj. lia. }
    { rewrite Hother, lookup_insert_ne.
      - replace (k + 1 + Z.of_nat n) with (k + Z.of_nat (S n)) by lia. done.
      - apply not_eq_sym, generated_name_ne.
      - intros ?%generated_name_inj. lia. }
    { lia. }
    exists reg'. split_and!.
    + do 2 f_equal; lia.
    + rewrite Hname; f_equal; lia.
    + intros [|j] Hj.
      * rewrite Z.add_0_r, Hrest, Hg; [done|done|].
        intros j' _ ?%generated_name_inj. lia.
      * replace (k + Z.of_nat (S j)) with (k + 1 + Z.of_nat j) by lia.
        rewrite Hgen by lia. f_equal. rewrite Hother, lookup_insert_ne; [done|..].
        -- apply not_eq_sym, generated_name_ne.
        -- intros ?%generated_name_inj. lia.
    + intros key Hkey Hkeys. rewrite Hrest; [|done|].
      * rewrite Hother, lookup_insert_ne; [done|done|].
        specialize (Hkeys 0%nat ltac:(lia)). by rewrite Z.add_0_r in Hkeys.
      * intros j Hj. replace (k + 1 + Z.of_nat j) with (k + Z.of_nat (S j)) by lia.
        apply Hkeys. lia.
Qed.

(** Some generated name is free: the registry is finite. *)
Lemma first_free_name (reg : gmap string Z) name k :
  ∃ n : nat,
    (∀ j : nat, (j < n)%nat →
       is_Some (reg !! generated_name name (k + Z.of_nat j))) ∧
    reg !! generated_name name (k + Z.of_nat n) = None.
Proof.
  assert (∀ N : nat,
    (∀ j : nat, (j < N)%nat →
       is_Some (reg !! generated_name name (k + Z.of_nat j)))
    ∨ ∃ n : nat,
        (∀ j : nat, (j < n)%nat →
           is_Some (reg !! generated_name name (k + Z.of_nat j))) ∧
        reg !! generated_name name (k + Z.of_nat n) = None) as Hsearch.
  { induction N as [|N [IH|IH]]; [left; lia| |by right].
    destruct (reg !! generated_name name (k + Z.of_nat N)) eqn:HN.
    - left. intros j Hj. destruct (decide (j = N)) as [->|]; [by rewrite HN|].
      apply IH. lia.
    - right. by exists N. }
  destruct (Hsearch (S (size (dom reg)))) as [Hall|Hfree]; [|done].
  exfalso.
  set (l := (λ j : nat, generated_name name (k + Z.of_nat j))
              <$> seq 0 (S (size (dom reg)))).
  assert (NoDup l) as Hnd.
  { apply NoDup_fmap_2; [|apply NoDup_seq].
    intros i j ?%generated_name_inj. lia. }
  assert (l ⊆+ elements (dom reg)) as Hsub.
  { apply NoDup_submseteq; [done|]. intros x [j [-> Hj]]%list_elem_of_fmap.
    apply elem_of_elements, elem_of_dom, Hall.
    apply elem_of_seq in Hj. lia. }
  apply submseteq_length in Hsub. unfold l in Hsub.
  rewrite length_fmap, length_seq in Hsub.
  change (List.length (elements (dom reg))) with (size (dom reg)) in Hsub.
  lia.
Qed.

(** C4, as amended.  Registering a name that is no key stores it with
    count 1 and returns it unchanged.  Registering a key of count [k]
    generates [name_k], [name_(k+1)], ... and increments the count once per
    generated name; every generated name that is itself a key is
    unregistered (its entry removed at count 1, decremented above 1) and the
    next name is generated; the first generated name that is no key is
    returned, all other entries being unchanged.  Such a name exists, and
    the call returns with enough fuel. *)
Theorem register_name_spec name (reg : gmap string Z) :
  (reg !! name = None →
   ∀ fuel, register_name fuel name reg = Ret name (<[name := 1]> reg)) ∧
  (∀ k, reg !! name = Some k →
   ∃ n : nat,
     (∀ j : nat, (j < n)%nat →
        is_Some (reg !! generated_name name (k + Z.of_nat j))) ∧
     reg !! generated_name name (k + Z.of_nat n) = None ∧
     ∀ fuel : nat, (n < fuel)%nat →
     ∃ reg', register_name fuel name reg
             = Ret (generated_name name (k + Z.of_nat n)) reg' ∧
             reg' !! name = Some (k + Z.of_nat n + 1) ∧
             (∀ j : nat, (j < n)%nat →
                reg' !! generated_name name (k + Z.of_nat j)
                = unregistered (reg !! generated_name name (k + Z.of_nat j))) ∧
             (∀ key, key ≠ name →
                (∀ j : nat, (j < n)%nat →
                   key ≠ generated_name name (k + Z.of_nat j)) →
                reg' !! key = reg !! key)).
Proof.
  split.
  - intros Hnone fuel. unfold register_name. run.
    rewrite decide_False; [done|]. rewrite Hnone. by intros [? ?].
  - intros k Hk. destruct (first_free_name reg name k) as (n & Hin & Hfree).
    exists n. split_and!; [done..|]. intros fuel Hfuel.
    unfold register_name. run. rewrite decide_True by (by rewrite Hk).
    by apply register_name_loop_spec.
Qed.

Lemma register_name_spec_witness :
  ∃ reg', register_name 2 "x" colliding_registry = Ret "x_2" reg'.
Proof.
  destruct (register_name_spec "x" colliding_registry) as [_ H].
  destruct (H 1 eq_refl) as (n & Hocc & Hfree & Hrun).
  assert (n = 1%nat) as ->.
  { destruct n as [|[|n]].
    - by vm_compute in Hfree.
    - done.
    - specialize (Hocc 1%nat ltac:(lia)). vm_compute in Hocc.
      by destruct Hocc. }
  destruct (Hrun 2%nat ltac:(lia)) as (reg' & Hr & _). by exists reg'.
Defined.

(** C4, as stated, fails: with ["x"] (count 1) and ["x_1"] both keys,
    registering ["x"] unregisters ["x_1"] and returns ["x_2"], not the
    colliding ["x_1"], and leaves the count of ["x"] at 3. *)
Lemma register_name_collision_counterexample :
  ∃ reg', register_name 2 "x" colliding_registry = Ret "x_2" reg' ∧
          reg' !! "x" = Some 3 ∧ reg' !! "x_1" = None ∧
          "x_2" ≠ generated_name "x" 1.
Proof. eexists. split; [vm_compute; reflexivity|]. by vm_compute. Qed.

(** C6: unregistering a name that has an index suffix, is no key and
    whose basename is no key either returns silently and changes nothing;
    a name without index suffix that is no key raises [NameError]. *)
Theorem unregister_unknown_indexed_name_is_silent :
  unregister_name "y_1" ∅ = Ret tt ∅ ∧
  unregister_name "y" ∅ = Raise NameError ∅.
Proof. split; reflexivity. Qed.

(** *** Round trip *)

Lemma positive_counts_eq (r1 r2 : gmap string Z) :
  positive_counts r1 → positive_counts r2 →
  (∀ key, count_of r1 key = count_of r2 key) → r1 = r2.
Proof.
  intros H1 H2 Heq. apply map_eq. intros key.
  specialize (Heq key). unfold count_of in Heq.
  destruct (r1 !! key) as [c1|] eqn:E1, (r2 !! key) as [c2|] eqn:E2;
    simpl in Heq; try done.
  - by subst.
  - apply H1 in E1. lia.
  - apply H2 in E2. lia.
Qed.

Lemma occurrences_cons key name names :
  occurrences key (name :: names)
  = (if decide (name = key) then 1 else 0) + occurrences key names.
Proof.
  unfold occurrences. rewrite filter_cons.
  destruct (decide (name = key)); simpl; lia.
Qed.

Lemma occurrences_nonneg key names : 0 ≤ occurrences key names.
Proof. unfold occurrences. lia. Qed.

Lemma count_of_counted name reg key :
  count_of (counted name reg) key
  = count_of reg key + (if decide (name = key) then 1 else 0).
Proof.
  unfold count_of, counted. destruct (decide (name = key)) as [->|].
  - by rewrite lookup_insert_eq.
  - rewrite lookup_insert_ne by done. lia.
Qed.

Lemma positive_counts_counted name reg :
  positive_counts reg → positive_counts (counted name reg).
Proof.
  intros Hp key c. unfold counted. rewrite lookup_insert_Some.
  intros [[_ <-]|[_ Hc]]; [|by eapply Hp].
  destruct (reg !! name) eqn:E; simpl; [apply Hp in E|]; lia.
Qed.

Lemma register_name_counted fuel name reg :
  collides reg name = false → (0 < fuel)%nat →
  register_name fuel name reg
  = Ret (match reg !! name with
         | Some k => generated_name name k
         | None => name
         end) (counted name reg).
Proof.
  intros Hcol Hfuel. unfold collides in Hcol. unfold register_name, counted.
  run. destruct (reg !! name) as [k|] eqn:Hk.
  - rewrite decide_True by done. destruct fuel as [|fuel]; [lia|].
    cbn [register_name_loop]. run. rewrite Hk. cbn beta iota.
    fold (generated_name name k).
    rewrite lookup_insert_ne by apply not_eq_sym, generated_name_ne.
    apply bool_decide_eq_false in Hcol. by rewrite decide_False.
  - rewrite decide_False by (by intros [? ?]). done.
Qed.

Lemma register_names_counted fuel names reg :
  collision_free reg names → (0 < fuel)%nat →
  register_names fuel names reg
  = Ret tt (foldl (λ r name, counted name r) reg names).
Proof.
  revert reg. induction names as [|name names IH]; intros reg Hfree Hfuel;
    [done|].
  destruct Hfree as [Hcol Hfree]. cbn [register_names]. run.
  rewrite register_name_counted by done. by apply IH.
Qed.

Lemma count_of_foldl_counted names reg key :
  count_of (foldl (λ r name, counted name r) reg names) key
  = count_of reg key + occurrences key names.
Proof.
  revert reg. induction names as [|name names IH]; intros reg; simpl.
  - unfold occurrences. simpl. lia.
  - rewrite IH, count_of_counted, occurrences_cons. lia.
Qed.

Lemma positive_counts_foldl_counted names reg :
  positive_counts reg →
  positive_counts (foldl (λ r name, counted name r) reg names).
Proof.
  revert reg. induction names as [|name names IH]; intros reg Hp; [done|].
  simpl. by apply IH, positive_counts_counted.
Qed.

Lemma unregister_name_counted name reg :
  positive_counts reg → 1 ≤ count_of reg name →
  ∃ reg', unregister_name name reg = Ret tt reg' ∧ positive_counts reg' ∧
          ∀ key, count_of reg' key
                 = count_of reg key - (if decide (name = key) then 1 else 0).
Proof.
  intros Hp Hc. unfold count_of in Hc.
  destruct (reg !! name) as [c|] eqn:E; simpl in Hc; [|lia].
  rewrite unregister_name_present by (by rewrite E).
  destruct (_unregister_name_present name reg) as (reg' & -> & Hn & Ho);
    [by rewrite E|].
  exists reg'. split; [done|]. rewrite E in Hn. simpl in Hn. split.
  - intros key c'. destruct (decide (key = name)) as [->|Hne].
    + rewrite Hn. repeat case_decide; intros [= <-]; lia.
    + rewrite Ho by done. apply Hp.
  - intros key. unfold count_of. destruct (decide (name = key)) as [<-|Hne].
    + rewrite Hn, E. simpl. repeat case_decide; simpl; lia.
    + rewrite Ho by done. lia.
Qed.

Lemma unregister_names_counted names reg :
  positive_counts reg →
  (∀ key, occurrences key names ≤ count_of reg key) →
  ∃ reg', unregister_names names reg = Ret tt reg' ∧ positive_counts reg' ∧
          ∀ key, count_of reg' key = count_of reg key - occurrences key names.
Proof.
  revert reg. induction names as [|name names IH]; intros reg Hp Hocc.
  { exists reg. split_and!; [done..|]. intros key. unfold occurrences.
    simpl. lia. }
  destruct (unregister_name_counted name reg) as (reg1 & Hr & Hp1 & Hc1);
    [done| |].
  { specialize (Hocc name). rewrite occurrences_cons, decide_True in Hocc by done.
    pose proof (occurrences_nonneg name names). lia. }
  destruct (IH reg1) as (reg' & Hr' & Hp' & Hc'); [done| |].
  { intros key. rewrite Hc1. specialize (Hocc key).
    rewrite occurrences_cons in Hocc. lia. }
  exists reg'. cbn [unregister_names]. run. rewrite Hr, Hr'.
  split_and!; [done..|]. intros key.
  rewrite Hc', Hc1, occurrences_cons. lia.
Qed.

(** C5, as amended.  From a registry whose counts are all at least 1,
    registering a sequence of names during which no generated name is
    already a key, and then unregistering the same sequence, returns and
    restores the registry. *)
Theorem register_unregister_round_trip (reg : gmap string Z) names fuel :
  positive_counts reg → collision_free reg names → (0 < fuel)%nat →
  ∃ reg', register_names fuel names reg = Ret tt reg' ∧
          unregister_names names reg' = Ret tt reg.
Proof.
  intros Hp Hfree Hfuel. eexists. split; [by apply register_names_counted|].
  destruct (unregister_names_counted names
              (foldl (λ r name, counted name r) reg names))
    as (reg2 & -> & Hp2 & Hc2).
  { by apply positive_counts_foldl_counted. }
  { intros key. rewrite count_of_foldl_counted.
    unfold count_of. destruct (reg !! key) as [c|] eqn:E; simpl; [|lia].
    apply Hp in E. lia. }
  f_equal. apply positive_counts_eq; [done..|]. intros key.
  rewrite Hc2, count_of_foldl_counted. lia.
Qed.

Lemma register_unregister_round_trip_witness :
  ∃ reg', register_names 1 ["x"; "y"; "x"] (<["x" := 2]> ∅) = Ret tt reg' ∧
          unregister_names ["x"; "y"; "x"] reg' = Ret tt (<["x" := 2]> ∅).
Proof.
  apply register_unregister_round_trip.
  - intros key c [[_ <-]|[_ H]]%lookup_insert_Some; [lia|done].
  - by vm_compute.
  - lia.
Defined.

(** C5, as stated, fails: from the registry with the single key ["x_1"],
    registering ["x"] twice unregisters ["x_1"]; unregistering ["x"] twice
    then leaves ["x"] with count 1 and no ["x_1"]. *)
Lemma round_trip_counterexample :
  ∃ reg1 reg2,
    register_names 2 ["x"; "x"] (<["x_1" := 1]> ∅) = Ret tt reg1 ∧
    unregister_names ["x"; "x"] reg1 = Ret tt reg2 ∧
    reg2 !! "x_1" = None ∧ reg2 !! "x" = Some 1 ∧
    reg2 ≠ <["x_1" := 1]> ∅.
Proof.
  do 2 eexists. split; [vm_compute; reflexivity|].
  split; [vm_compute; reflexivity|].
  split_and!; [by vm_compute..|].
  intros H. apply (f_equal (λ m : gmap string Z, m !! "x")) in H.
  by vm_compute in H.
Qed.

(** ** Facts about the order resolver *)

Import Organizer.
Local Open Scope nat_scope.

Lemma list_remove_Some x l :
  x ∈ l → ∃ l', list_remove x l = Some l' ∧ List.length l = S (List.length l') ∧
                (∀ y, y ∈ l' → y ∈ l) ∧ (∀ y, y ∈ l → y ≠ x → y ∈ l').
Proof.
  induction l as [|y l IH]; [by intros ?%elem_of_nil|].
  intros Hx. simpl. destruct (decide (y = x)) as [->|Hne].
  - exists l. split_and!; [done|done|by right|].
    intros z [->|Hz]%elem_of_cons ?; done.
  - apply elem_of_cons in Hx as [->|Hx]; [done|].
    destruct (IH Hx) as (l' & -> & Hlen & Hsub & Hkeep).
    exists (y :: l'). simpl. split_and!; [done|lia| |].
    + intros z [->|Hz]%elem_of_cons; [by left|right; auto].
    + intros z [->|Hz]%elem_of_cons ?; [by left|right; auto].
Qed.

Lemma list_remove_None x l : x ∉ l → list_remove x l = None.
Proof.
  induction l as [|y l IH]; [done|]. intros Hx. simpl.
  rewrite decide_False by (intros ->; apply Hx; by left).
  rewrite IH; [done|]. intros ?; apply Hx; by right.
Qed.

Lemma list_remove_last x l : x ∉ l → list_remove x (l ++ [x]) = Some l.
Proof.
  induction l as [|y l IH]; intros Hx; simpl.
  - by rewrite decide_True.
  - rewrite decide_False by (intros ->; apply Hx; by left).
    rewrite IH; [done|]. intros ?; apply Hx; by right.
Qed.

Lemma list_index_Some x l :
  x ∈ l → ∃ i, list_index x l = Some i ∧ l !! i = Some x.
Proof.
  induction l as [|y l IH]; [by intros ?%elem_of_nil|].
  intros Hx. simpl. destruct (decide (y = x)) as [->|Hne]; [by exists 0|].
  apply elem_of_cons in Hx as [->|Hx]; [done|].
  destruct (IH Hx) as (i & -> & Hi). by exists (S i).
Qed.

Lemma edge_count_insert (info : gmap nat (list nat)) c l l' :
  info !! c = Some l →
  edge_count (<[c := l']> info) + List.length l
  = edge_count info + List.length l'.
Proof.
  intros Hc. unfold edge_count.
  rewrite <- (insert_delete_eq info c l').
  rewrite map_fold_insert_L; [|intros; lia|apply lookup_delete_eq].
  rewrite <- (insert_id info c l) at 2 by done.
  rewrite <- (insert_delete_eq info c l).
  rewrite (map_fold_insert_L _ _ c l); [|intros; lia|apply lookup_delete_eq].
  lia.
Qed.

(** *** One step of each function *)

Section traversal.
Variable df : nat → bool.

Lemma build_system_order_unfold fuel c o :
  build_system_order df (S fuel) c o
  = match sys_info o !! c with
    | None => Raise KeyError (set_sys_trail (λ t, t ++ [c]) o)
    | Some _ => for_inputs df fuel c 0 (set_sys_trail (λ t, t ++ [c]) o)
    end.
Proof.
  cbn [build_system_order]. run. cbn [sys_info set_sys_trail].
  by destruct (sys_info o !! c).
Qed.

Lemma for_inputs_unfold fuel c idx o :
  for_inputs df (S fuel) c idx o
  = match inputs_of (sys_info o) c !! idx with
    | None => finish_component c o
    | Some ic =>
        match (if decide (ic ∈ sys_trail o)
               then _sever_system_loop df ic o else Ret tt o) with
        | Ret _ o1 =>
            match (if decide (ic ∈ mapped o1) then Ret tt o1
                   else build_system_order df fuel ic o1) with
            | Ret _ o2 => for_inputs df fuel c (S idx) o2
            | Raise e s => Raise e s
            | OutOfFuel => OutOfFuel
            end
        | Raise e s => Raise e s
        | OutOfFuel => OutOfFuel
        end
    end.
Proof.
  cbn [for_inputs]. unfold inputs_of. run.
  destruct (default [] (sys_info o !! c) !! idx) as [ic|]; [|done].
  destruct (decide (ic ∈ sys_trail o)); [|by destruct (decide (ic ∈ mapped o))].
  destruct (_sever_system_loop df ic o) as [[] o1|e' o1|]; [|done..].
  by destruct (decide (ic ∈ mapped o1)).
Qed.

Lemma finish_component_spec c o :
  if decide (c ∈ mapped o) then finish_component c o = Ret tt o
  else finish_component c o
       = Ret tt (Organizer (sys_info o)
                   (if decide (c ∈ sys_trail o)
                    then default (sys_trail o) (list_remove c (sys_trail o))
                    else sys_trail o)
                   (ordered_comps o ++ [c]) ({[c]} ∪ mapped o)).
Proof.
  unfold finish_component, map_component. run.
  destruct (decide (c ∈ mapped o)); [done|]. simpl.
  by destruct (decide (c ∈ sys_trail o)).
Qed.

(** What a severance does: it ends the trail and drops one occurrence of
    [y] from the inputs of [x], both taken by the scan from the part of
    the trail that starts at [ic]. *)
Lemma _sever_system_loop_spec ic o :
  match _sever_system_loop df ic o with
  | Ret _ o' =>
      ∃ i x y l l',
        list_index ic (sys_trail o) = Some i ∧
        scan_loop df (drop i (sys_trail o)) (drop i (sys_trail o)) 0
        = Some (x, y) ∧
        sys_info o !! x = Some l ∧ list_remove y l = Some l' ∧
        o' = Organizer (<[x := l']> (sys_info o)) [] (ordered_comps o)
                       (mapped o)
  | Raise e o' =>
      o' = o ∧
      (list_index ic (sys_trail o) = None ∨
       ∃ i, list_index ic (sys_trail o) = Some i ∧
         match scan_loop df (drop i (sys_trail o)) (drop i (sys_trail o)) 0
         with
         | None => e = AlgebraicLoopError
         | Some (x, y) =>
             match sys_info o !! x with
             | None => True
             | Some l => list_remove y l = None
             end
         end)
  | OutOfFuel => False
  end.
Proof.
  unfold _sever_system_loop, _get_loop_components. run.
  destruct (list_index ic (sys_trail o)) as [i|]; [|by auto].
  destruct (scan_loop _ _ _ _) as [[x y]|] eqn:Hscan; cycle 1.
  { split; [done|]. right. exists i. by rewrite Hscan. }
  destruct (sys_info o !! x) as [l|] eqn:Hx; cycle 1.
  { split; [done|]. right. exists i. by rewrite Hscan, Hx. }
  destruct (list_remove y l) as [l'|] eqn:Hl; cycle 1.
  { split; [done|]. right. exists i. by rewrite Hscan, Hx. }
  by exists i, x, y, l, l'.
Qed.

(** The scan returns the first component of the loop whose successor is
    not direct feedthrough, with that successor. *)
Lemma scan_loop_spec sys_loop : ∀ rest k,
  rest = drop k sys_loop →
  match scan_loop df sys_loop rest k with
  | Some (x, y) =>
      ∃ m, k ≤ m ∧ sys_loop !! m = Some x ∧
           _get_component_input_in_loop m sys_loop = Some y ∧
           df y = false ∧
           ∀ j, k ≤ j < m →
                ∃ z, _get_component_input_in_loop j sys_loop = Some z ∧
                     df z = true
  | None =>
      ∀ j, k ≤ j < List.length sys_loop →
           ∃ z, _get_component_input_in_loop j sys_loop = Some z ∧
                df z = true
  end.
Proof.
  induction rest as [|x rest IH]; intros k Hrest; simpl.
  { intros j Hj. apply (f_equal List.length) in Hrest.
    rewrite length_drop in Hrest. simpl in Hrest. lia. }
  assert (sys_loop !! k = Some x) as Hk.
  { rewrite <- (Nat.add_0_r k), <- lookup_drop, <- Hrest. done. }
  assert (rest = drop (S k) sys_loop) as Hrest'.
  { rewrite <- Nat.add_1_r, <- drop_drop, <- Hrest. done. }
  destruct (_get_component_input_in_loop k sys_loop) as [y|] eqn:Hnext;
    cycle 1.
  { exfalso. unfold _get_component_input_in_loop in Hnext.
    destruct (sys_loop !! S k); [done|].
    destruct sys_loop; [done|]. done. }
  destruct (df y) eqn:Hy; simpl.
  - specialize (IH (S k) Hrest').
    destruct (scan_loop df sys_loop rest (S k)) as [[x' y']|].
    + destruct IH as (m & Hm & Hx' & Hy' & Hdf & Hbefore).
      exists m. split_and!; [lia|done..|].
      intros j Hj. destruct (decide (j = k)) as [->|]; [by exists y|].
      apply Hbefore. lia.
    + intros j Hj. destruct (decide (j = k)) as [->|]; [by exists y|].
      apply IH. lia.
  - exists k. split_and!; [lia|done..|]. intros j Hj. lia.
Qed.

End traversal.

(** *** Termination *)

Lemma progress_refl o : progress o o.
Proof. right. split_and!; [done..|]. intros x Hx. by left. Qed.

Lemma progress_edges o o' :
  progress o o' → edge_count (sys_info o') ≤ edge_count (sys_info o).
Proof. intros [?|(-> & _)]; lia. Qed.

Lemma progress_trans o1 o2 o3 :
  progress o1 o2 → progress o2 o3 → progress o1 o3.
Proof.
  intros H12 H23.
  pose proof (progress_edges _ _ H12). pose proof (progress_edges _ _ H23).
  destruct H12 as [?|(Hs1 & Hm1 & Ht1)]; [left; lia|].
  destruct H23 as [?|(Hs2 & Hm2 & Ht2)]; [left; lia|].
  right. split_and!; [congruence|set_solver|].
  intros x Hx. destruct (Ht1 x Hx) as [Hx2|Hx2]; [|right; set_solver].
  apply Ht2, Hx2.
Qed.

Lemma pending_le V o o' :
  mapped o ⊆ mapped o' →
  (∀ x, x ∈ sys_trail o → x ∈ sys_trail o' ∨ x ∈ mapped o') →
  pending V o' ≤ pending V o.
Proof.
  intros Hm Ht. apply subseteq_size. intros x.
  rewrite !elem_of_difference, !elem_of_list_to_set.
  intros [[HV Hxm] Hxt]. split_and!; [done|set_solver|].
  intros Hx. destruct (Ht x Hx); done.
Qed.

Lemma pending_lt V o o' ic :
  mapped o ⊆ mapped o' →
  (∀ x, x ∈ sys_trail o → x ∈ sys_trail o' ∨ x ∈ mapped o') →
  ic ∈ V → ic ∉ mapped o → ic ∉ sys_trail o →
  ic ∈ mapped o' ∨ ic ∈ sys_trail o' →
  pending V o' < pending V o.
Proof.
  intros Hm Ht HV Hicm Hict Hic'. apply subset_size. split.
  - intros x. rewrite !elem_of_difference, !elem_of_list_to_set.
    intros [[HxV Hxm] Hxt]. split_and!; [done|set_solver|].
    intros Hx. destruct (Ht x Hx); done.
  - intros Hsub. specialize (Hsub ic).
    rewrite !elem_of_difference, !elem_of_list_to_set in Hsub.
    assert (ic ∉ mapped o' ∧ ic ∉ sys_trail o') as [? ?].
    { destruct Hsub as [[_ ?] ?]; done. }
    destruct Hic'; done.
Qed.

Lemma within_universe_inputs V info c x :
  within_universe V info → x ∈ inputs_of info c → x ∈ V.
Proof.
  intros HV. unfold inputs_of. destruct (info !! c) as [l|] eqn:Hc; simpl.
  - by apply (HV c l).
  - by intros ?%elem_of_nil.
Qed.

Section termination.
Variable df : nat → bool.
Variable V : gset nat.

Lemma finish_component_settles c o :
  ∃ o', finish_component c o = Ret tt o' ∧ progress o o' ∧
        sys_info o' = sys_info o ∧ c ∈ mapped o'.
Proof.
  pose proof (finish_component_spec c o) as H.
  destruct (decide (c ∈ mapped o)) as [Hc|Hc].
  { exists o. split_and!; [done|apply progress_refl|done..]. }
  eexists. split; [exact H|]. split_and!; simpl; [|done|set_solver].
  right. simpl. split_and!; [done|set_solver|].
  intros x Hx. destruct (decide (x = c)) as [->|Hne]; [right; set_solver|].
  left. case_decide as Hct; [|done].
  destruct (list_remove_Some c (sys_trail o) Hct) as (t & -> & _ & _ & Hkeep).
  simpl. by apply Hkeep.
Qed.

Lemma _sever_system_loop_settles ic o :
  within_universe V (sys_info o) →
  match _sever_system_loop df ic o with
  | Ret _ o' =>
      edge_count (sys_info o') < edge_count (sys_info o) ∧
      within_universe V (sys_info o') ∧ mapped o' = mapped o ∧
      sys_trail o' = []
  | Raise _ _ => True
  | OutOfFuel => False
  end.
Proof.
  intros HV. pose proof (_sever_system_loop_spec df ic o) as H.
  destruct (_sever_system_loop df ic o) as [[] o'|e o'|]; [|done..].
  destruct H as (i & x & y & l & l' & _ & _ & Hx & Hl & ->). simpl.
  assert (y ∈ l) as Hy.
  { destruct (decide (y ∈ l)) as [|Hn]; [done|].
    by rewrite (list_remove_None _ _ Hn) in Hl. }
  destruct (list_remove_Some y l Hy) as (l'' & Hl'' & Hlen & Hsub & _).
  rewrite Hl in Hl''. injection Hl'' as <-.
  split_and!; [|..|done|done].
  - pose proof (edge_count_insert (sys_info o) x l l' Hx). lia.
  - intros c k [[<- <-]|[_ Hk]]%lookup_insert_Some z Hz.
    + apply (HV x l Hx). auto.
    + by apply (HV c k).
Qed.

Lemma build_system_order_settles o c :
  sys_info o !! c = None ∨
  settles V (λ fuel, for_inputs df fuel c 0)
          (set_sys_trail (λ t, t ++ [c]) o) c →
  settles V (λ fuel, build_system_order df fuel c) o c.
Proof.
  intros [Hc|(n & r & Hrun & Hr & Hpost)].
  - exists 1, (Raise KeyError (set_sys_trail (λ t, t ++ [c]) o)).
    split_and!; [|done..]. intros [|fuel] ?; [lia|].
    by rewrite build_system_order_unfold, Hc.
  - destruct (sys_info o !! c) as [l|] eqn:Hc; cycle 1.
    { exists 1, (Raise KeyError (set_sys_trail (λ t, t ++ [c]) o)).
      split_and!; [|done..]. intros [|fuel] ?; [lia|].
      by rewrite build_system_order_unfold, Hc. }
    exists (S n), r. split_and!; [|done|].
    + intros [|fuel] ?; [lia|].
      rewrite build_system_order_unfold, Hc. apply Hrun. lia.
    + intros u o' ->. destruct (Hpost u o' eq_refl) as (Hp & HV' & Hm).
      split_and!; [|done..].
      eapply progress_trans; [|exact Hp].
      right. simpl. split_and!; [done..|]. intros x Hx. left. set_solver.
Qed.

Lemma for_inputs_settles :
  ∀ E U d o c idx,
    within_universe V (sys_info o) →
    edge_count (sys_info o) = E → pending V o = U →
    List.length (inputs_of (sys_info o) c) - idx = d →
    settles V (λ fuel, for_inputs df fuel c idx) o c.
Proof.
  induction E as [E IHE] using lt_wf_ind.
  induction U as [U IHU] using lt_wf_ind.
  induction d as [d IHd] using lt_wf_ind.
  intros o c idx HV HE HU Hd.
  (* runs from states with fewer edges settle *)
  assert (∀ o1 c1 idx1,
            within_universe V (sys_info o1) →
            edge_count (sys_info o1) < E →
            settles V (λ fuel, for_inputs df fuel c1 idx1) o1 c1) as Hless.
  { intros o1 c1 idx1 HV1 HE1. by eapply (IHE _ HE1). }
  assert (∀ o1 c1,
            within_universe V (sys_info o1) →
            edge_count (sys_info o1) < E →
            settles V (λ fuel, build_system_order df fuel c1) o1 c1)
    as Hless_build.
  { intros o1 c1 HV1 HE1. apply build_system_order_settles. right.
    by apply Hless. }
  (* the rest of the loop settles after a step that made progress *)
  assert (∀ o2, progress o o2 → within_universe V (sys_info o2) →
                (edge_count (sys_info o2) = E → pending V o2 < U ∨
                   (pending V o2 = U ∧ o2 = o)) →
                idx < List.length (inputs_of (sys_info o) c) →
                settles V (λ fuel, for_inputs df fuel c (S idx)) o2 c)
    as Hrest.
  { intros o2 Hp HV2 Hsame Hidx.
    pose proof (progress_edges _ _ Hp) as Hle.
    destruct (decide (edge_count (sys_info o2) = E)) as [HE2|HE2];
      [|apply Hless; [done|lia]].
    destruct (Hsame HE2) as [HU2|[HU2 ->]].
    - by eapply (IHU _ HU2).
    - eapply (IHd (List.length (inputs_of (sys_info o) c) - S idx));
        [lia|done..]. }
  destruct (inputs_of (sys_info o) c !! idx) as [ic|] eqn:Hic; cycle 1.
  { destruct (finish_component_settles c o) as (o' & Hfin & Hp & Hs & Hm).
    exists 1, (Ret tt o'). split_and!; [|done|].
    - intros [|fuel] ?; [lia|]. by rewrite for_inputs_unfold, Hic.
    - intros u o'' ?. simplify_eq. split_and!; [done| |done]. by rewrite Hs. }
  assert (idx < List.length (inputs_of (sys_info o) c)) as Hidx.
  { by eapply lookup_lt_Some. }
  assert (ic ∈ V) as HicV.
  { eapply within_universe_inputs; [done|]. by eapply list_elem_of_lookup_2. }
  (* compose a step ending in [o2] with the rest of the loop *)
  assert (∀ (step : nat → outcome organizer unit),
            (∀ fuel, for_inputs df (S fuel) c idx o
                     = match step fuel with
                       | Ret _ o2 => for_inputs df fuel c (S idx) o2
                       | Raise e s => Raise e s
                       | OutOfFuel => OutOfFuel
                       end) →
            (∃ n r, (∀ fuel, n ≤ fuel → step fuel = r) ∧ r ≠ OutOfFuel ∧
                    ∀ u o2, r = Ret u o2 →
                      settles V (λ fuel, for_inputs df fuel c (S idx)) o2 c ∧
                      progress o o2) →
            settles V (λ fuel, for_inputs df fuel c idx) o c) as Hcompose.
  { intros step Hstep (n1 & r1 & Hrun1 & Hr1 & Hpost1).
    destruct r1 as [u o2|e s|]; [| |done].
    - destruct (Hpost1 u o2 eq_refl) as [(n2 & r2 & Hrun2 & Hr2 & Hpost2) Hp].
      exists (S (n1 + n2)), r2. split_and!; [|done|].
      + intros [|fuel] ?; [lia|]. rewrite Hstep, Hrun1 by lia.
        apply Hrun2. lia.
      + intros u' o' ->. destruct (Hpost2 u' o' eq_refl) as (Hp2 & ? & ?).
        split_and!; [|done..]. by eapply progress_trans.
    - exists (S n1), (Raise e s). split_and!; [|done..].
      intros [|fuel] ?; [lia|]. by rewrite Hstep, Hrun1 by lia. }
  destruct (decide (ic ∈ sys_trail o)) as [Htrail|Htrail].
  - (* a feedback loop: sever, then recurse *)
    pose proof (_sever_system_loop_settles ic o HV) as Hsev.
    destruct (_sever_system_loop df ic o) as [[] o1|e o1|] eqn:Hsever;
      [| |done].
    + destruct Hsev as (HE1 & HV1 & Hm1 & Ht1).
      destruct (decide (ic ∈ mapped o1)) as [Hm|Hm].
      * apply (Hcompose (λ _, Ret tt o1)).
        { intros fuel. rewrite for_inputs_unfold, Hic.
          rewrite decide_True by done. rewrite Hsever.
          by rewrite decide_True by done. }
        exists 0, (Ret tt o1). split_and!; [done..|].
        intros u o2 ?. simplify_eq. split; [|left; lia].
        apply Hless; [done|lia].
      * destruct (Hless_build o1 ic HV1 ltac:(lia))
          as (n1 & r1 & Hrun1 & Hr1 & Hpost1).
        apply (Hcompose (λ fuel, build_system_order df fuel ic o1)).
        { intros fuel. rewrite for_inputs_unfold, Hic.
          rewrite decide_True by done. rewrite Hsever.
          by rewrite decide_False by done. }
        exists n1, r1. split_and!; [done..|].
        intros u o2 ->. destruct (Hpost1 u o2 eq_refl) as (Hp & HV2 & _).
        pose proof (progress_edges _ _ Hp).
        split; [|left; lia]. apply Hless; [done|lia].
    + exists 1, (Raise e o1). split_and!; [|done..].
      intros [|fuel] ?; [lia|]. rewrite for_inputs_unfold, Hic.
      rewrite decide_True by done. by rewrite Hsever.
  - destruct (decide (ic ∈ mapped o)) as [Hm|Hm].
    + (* already mapped: next input *)
      apply (Hcompose (λ _, Ret tt o)).
      { intros fuel. rewrite for_inputs_unfold, Hic.
        rewrite decide_False by done. by rewrite decide_True by done. }
      exists 0, (Ret tt o). split_and!; [done..|].
      intros u o2 ?. simplify_eq. split; [|apply progress_refl].
      apply Hrest; [apply progress_refl|done| |done]. intros _. by right.
    + (* recurse into the input *)
      assert (settles V (λ fuel, build_system_order df fuel ic) o ic)
        as (n1 & r1 & Hrun1 & Hr1 & Hpost1).
      { apply build_system_order_settles.
        destruct (sys_info o !! ic) eqn:Hsome; [right|by left].
        eapply (IHU (pending V (set_sys_trail (λ t, t ++ [ic]) o)));
          [|done..].
        rewrite <- HU. eapply (pending_lt _ _ _ ic); simpl;
          [done| |done|done|done|right; set_solver].
        intros x Hx. left. set_solver. }
      apply (Hcompose (λ fuel, build_system_order df fuel ic o)).
      { intros fuel. rewrite for_inputs_unfold, Hic.
        rewrite decide_False by done. by rewrite decide_False by done. }
      exists n1, r1. split_and!; [done..|].
      intros u o2 ->. destruct (Hpost1 u o2 eq_refl) as (Hp & HV2 & Hm2).
      split; [|done]. apply Hrest; [done|done| |done].
      intros HE2. left. rewrite <- HU.
      destruct Hp as [?|(Hs & Hmm & Htt)]; [lia|].
      eapply (pending_lt _ _ _ ic); [done|done|done|done|done|by left].
Qed.
End termination.

Lemma within_universe_all (info : gmap nat (list nat)) :
  within_universe (list_to_set (mjoin (snd <$> map_to_list info))) info.
Proof.
  intros c l Hc x Hx. apply elem_of_list_to_set, list_elem_of_join.
  exists l. split; [done|]. apply list_elem_of_fmap. exists (c, l).
  split; [done|]. by apply elem_of_map_to_list.
Qed.

Lemma _sever_system_loop_mapped df ic o u o' :
  _sever_system_loop df ic o = Ret u o' → mapped o' = mapped o.
Proof.
  intros H. pose proof (_sever_system_loop_spec df ic o) as Hs.
  rewrite H in Hs. by destruct Hs as (i & x & y & l & l' & _ & _ & _ & _ & ->).
Qed.

(** Every call ends once it has enough fuel. *)
Lemma build_system_order_ends df c o :
  ∃ (n : nat) (r : outcome organizer unit),
    (∀ fuel, n ≤ fuel → build_system_order df fuel c o = r)
    ∧ r ≠ OutOfFuel.
Proof.
  set (V := list_to_set (mjoin (snd <$> map_to_list (sys_info o)))
            : gset nat).
  destruct (build_system_order_settles df V o c) as (n & r & Hrun & Hr & _).
  { destruct (sys_info o !! c) eqn:Hc; [right|by left].
    eapply for_inputs_settles; [|done..]. apply within_universe_all. }
  by exists n, r.
Qed.

(** More fuel does not change a result. *)
Lemma fuel_mono_S df fuel :
  (∀ c o, build_system_order df fuel c o ≠ OutOfFuel →
          build_system_order df (S fuel) c o
          = build_system_order df fuel c o) ∧
  (∀ c idx o, for_inputs df fuel c idx o ≠ OutOfFuel →
              for_inputs df (S fuel) c idx o = for_inputs df fuel c idx o).
Proof.
  induction fuel as [|fuel [IHb IHl]]; [by split|]. split.
  - intros c o H. rewrite (build_system_order_unfold df (S fuel)).
    rewrite (build_system_order_unfold df fuel) in H |- *.
    destruct (sys_info o !! c); [|done]. by apply IHl.
  - intros c idx o H. rewrite (for_inputs_unfold df (S fuel)).
    rewrite (for_inputs_unfold df fuel) in H |- *.
    destruct (inputs_of (sys_info o) c !! idx) as [ic|]; [|done].
    destruct (if decide (ic ∈ sys_trail o)
              then _sever_system_loop df ic o else Ret tt o)
      as [u o1|e' s|]; [|done..].
    destruct (decide (ic ∈ mapped o1)); [by apply IHl|].
    destruct (build_system_order df fuel ic o1) as [u2 o2|e' s|] eqn:Hb;
      [| |done].
    + rewrite IHb, Hb by by rewrite Hb. by apply IHl.
    + by rewrite IHb, Hb by by rewrite Hb.
Qed.

Lemma fuel_mono df fuel fuel' c o :
  fuel ≤ fuel' → build_system_order df fuel c o ≠ OutOfFuel →
  build_system_order df fuel' c o = build_system_order df fuel c o.
Proof.
  intros Hle H. induction Hle as [|fuel' _ IH]; [done|].
  rewrite <- IH. apply fuel_mono_S. by rewrite IH.
Qed.

(** C3.  From every state of the organizer and for every component,
    [build_system_order] ends (with a result or an exception) once it is
    given enough fuel; every severance that returns leaves strictly fewer
    dependency edges in the working data; and an input that is already
    mapped is passed over: the loop goes on to the next input without a
    recursive call. *)
Theorem build_system_order_terminates df :
  (∀ c o, ∃ (n : nat) (r : outcome organizer unit),
     (∀ fuel, n ≤ fuel → build_system_order df fuel c o = r)
     ∧ r ≠ OutOfFuel) ∧
  (∀ ic o u o', _sever_system_loop df ic o = Ret u o' →
     edge_count (sys_info o') < edge_count (sys_info o)) ∧
  (∀ fuel c idx ic o,
     inputs_of (sys_info o) c !! idx = Some ic → ic ∈ mapped o →
     for_inputs df (S fuel) c idx o
     = match (if decide (ic ∈ sys_trail o)
              then _sever_system_loop df ic o else Ret tt o) with
       | Ret _ o1 => for_inputs df fuel c (S idx) o1
       | Raise e s => Raise e s
       | OutOfFuel => OutOfFuel
       end).
Proof.
  split_and!.
  - intros c o. apply build_system_order_ends.
  - intros ic o u o' H.
    pose proof (_sever_system_loop_settles df _ ic o
                  (within_universe_all (sys_info o))) as Hs.
    rewrite H in Hs. apply Hs.
  - intros fuel c idx ic o Hic Hm. rewrite for_inputs_unfold, Hic.
    destruct (decide (ic ∈ sys_trail o)); [|by rewrite decide_True].
    destruct (_sever_system_loop df ic o) as [u o1|e' s|] eqn:Hs; [|done..].
    rewrite decide_True; [done|].
    by rewrite (_sever_system_loop_mapped _ _ _ _ _ Hs).
Qed.

(** *** The invariant is kept *)

Lemma precedes_app y x l l' : precedes y x l → precedes y x (l ++ l').
Proof.
  intros (i & j & Hi & Hj & Hij). exists i, j.
  split_and!; [by apply lookup_app_l_Some..|done].
Qed.

Lemma precedes_snoc y c l : y ∈ l → precedes y c (l ++ [c]).
Proof.
  intros [i Hi]%list_elem_of_lookup. exists i, (List.length l).
  split_and!; [by apply lookup_app_l_Some| |by eapply lookup_lt_Some].
  by rewrite lookup_app_r, Nat.sub_diag by lia.
Qed.

Lemma precedes_elem_of y x l : precedes y x l → y ∈ l ∧ x ∈ l.
Proof.
  intros (i & j & Hi & Hj & _). split; by eapply list_elem_of_lookup_2.
Qed.

Lemma precedes_irrefl x l : NoDup l → ¬ precedes x x l.
Proof.
  intros Hnd (i & j & Hi & Hj & Hij).
  pose proof (NoDup_lookup _ _ _ _ Hnd Hi Hj). lia.
Qed.

Lemma precedes_trans z y x l :
  NoDup l → precedes z y l → precedes y x l → precedes z x l.
Proof.
  intros Hnd (i & j & Hi & Hj & Hij) (j' & k & Hj' & Hk & Hjk).
  pose proof (NoDup_lookup _ _ _ _ Hnd Hj Hj'). exists i, k.
  split_and!; [done..|lia].
Qed.

Lemma inputs_of_insert (info : gmap nat (list nat)) x l z :
  inputs_of (<[x := l]> info) z
  = if decide (x = z) then l else inputs_of info z.
Proof.
  unfold inputs_of. case_decide as H; [subst; by rewrite lookup_insert_eq|].
  by rewrite lookup_insert_ne.
Qed.

Lemma inputs_of_Some (info : gmap nat (list nat)) x y :
  y ∈ inputs_of info x → ∃ l, info !! x = Some l ∧ y ∈ l.
Proof.
  unfold inputs_of. destruct (info !! x) as [l|]; simpl; [by eauto|].
  by intros ?%elem_of_nil.
Qed.

Section soundness.
Variable df : nat → bool.
Variable G : gmap nat (list nat).

Lemma invariant_weaken A A' o :
  A ⊆ A' → invariant df G A o → invariant df G A' o.
Proof.
  intros HA [? ? ? ? ? ? Hact ? ? ? Hsev]. split; try done.
  - intros x Hx. apply HA. auto.
  - intros x y Hy. destruct (Hsev x y Hy) as [?|[?|?]]; auto.
Qed.

(** Leaving a call: the component is mapped and need not be active. *)
Lemma invariant_returned A c o :
  c ∈ mapped o → invariant df G (A ∪ {[c]}) o → invariant df G A o.
Proof.
  intros Hc [? ? ? ? Hun ? Hact ? ? ? Hsev]. split; try done.
  - intros x Hx. destruct (decide (x = c)) as [->|]; [by destruct (Hun c)|].
    specialize (Hact x Hx). set_solver.
  - intros x y Hy. destruct (Hsev x y Hy) as [?|[?|Hin]]; auto.
    destruct (decide (y = c)) as [->|]; [auto|]. right; right. set_solver.
Qed.

(** Entering a call: the component joins the trail. *)
Lemma invariant_push A c o :
  invariant df G A o → c ∉ mapped o → c ∉ sys_trail o →
  (sys_trail o = [] ∨
   ∃ t p, sys_trail o = t ++ [p] ∧ c ∈ inputs_of (sys_info o) p) →
  invariant df G (A ∪ {[c]}) (set_sys_trail (λ t, t ++ [c]) o).
Proof.
  intros [? ? ? Hnd Hun Hpath Hact ? ? ? Hsev] Hcm Hct Hlast.
  split; simpl; try done.
  - apply NoDup_app. split_and!; [done| |apply NoDup_singleton].
    intros x Hx ->%list_elem_of_singleton. done.
  - intros x [Hx| ->%list_elem_of_singleton]%elem_of_app; auto.
  - intros i x y Hx Hy.
    destruct (decide (S i < List.length (sys_trail o))) as [Hlt|Hge].
    + rewrite lookup_app_l in Hx, Hy by lia. by eapply Hpath.
    + assert (S i = List.length (sys_trail o)) as Hi.
      { apply lookup_lt_Some in Hy. rewrite length_app in Hy. simpl in Hy.
        lia. }
      rewrite lookup_app_l in Hx by lia.
      rewrite lookup_app_r, Hi, Nat.sub_diag in Hy by lia.
      injection Hy as <-.
      destruct Hlast as [Hnil|(t & p & Ht & Hp)].
      { rewrite Hnil in Hi. done. }
      rewrite Ht in Hx, Hi. rewrite length_app in Hi. simpl in Hi.
      rewrite lookup_app_r in Hx by lia.
      replace (i - List.length t) with 0 in Hx by lia.
      by injection Hx as <-.
  - intros x [Hx| ->%list_elem_of_singleton]%elem_of_app; [|set_solver].
    specialize (Hact x Hx). set_solver.
  - intros x y Hy. destruct (Hsev x y Hy) as [?|[?|?]]; auto.
    right; right. set_solver.
Qed.

(** The end of a call that maps its component. *)
Lemma invariant_finish A c o :
  invariant df G A o → c ∉ mapped o →
  (sys_trail o = [] ∨ ∃ t, sys_trail o = t ++ [c]) →
  (∀ y, y ∈ inputs_of (sys_info o) c → y ∈ mapped o) →
  ∃ o', finish_component c o = Ret tt o' ∧ invariant df G A o' ∧
        sys_info o' = sys_info o ∧ mapped o' = {[c]} ∪ mapped o ∧
        (sys_trail o' = [] ∨ sys_trail o = sys_trail o' ++ [c]).
Proof.
  intros [Hm Hnd Hord Htnd Hun Hpath Hact ? ? ? Hsev] Hcm Hlast Hin.
  pose proof (finish_component_spec c o) as Hfin.
  rewrite decide_False in Hfin by done.
  eexists. split; [exact Hfin|]. clear Hfin. simpl.
  assert (∃ t, (if decide (c ∈ sys_trail o)
                then default (sys_trail o) (list_remove c (sys_trail o))
                else sys_trail o) = t ∧
               (t = [] ∨ sys_trail o = t ++ [c]) ∧
               (∀ x, x ∈ t → x ∈ sys_trail o ∧ x ≠ c) ∧ NoDup t ∧
               trail_path (sys_info o) t) as (t & -> & Ht & Hsub & Htnd' & Hp').
  { destruct Hlast as [Hnil|(t & Ht)].
    - rewrite Hnil, decide_False by apply not_elem_of_nil.
      exists []. split_and!; [done|by left|by intros ? ?%elem_of_nil|
                              constructor|by intros ? ? ? ?].
    - assert (c ∉ t) as Hct.
      { rewrite Ht in Htnd. apply NoDup_app in Htnd as (_ & Hd & _).
        intros Hc. apply (Hd c Hc). by apply list_elem_of_singleton. }
      rewrite Ht, decide_True by set_solver.
      rewrite list_remove_last by done. simpl. exists t.
      split_and!; [done|by right| | |].
      + intros x Hx. split; [set_solver|]. by intros ->.
      + rewrite Ht in Htnd. by apply NoDup_app in Htnd as (? & _).
      + intros i x y Hx Hy. apply (Hpath i); rewrite Ht.
        * by apply lookup_app_l_Some.
        * by apply lookup_app_l_Some. }
  split_and!; [|done|done|done].
  split; simpl; try done.
  - intros x. rewrite elem_of_union, elem_of_singleton, elem_of_app,
      list_elem_of_singleton, Hm. tauto.
  - apply NoDup_app. split_and!; [done| |apply NoDup_singleton].
    intros x Hx ->%list_elem_of_singleton. by apply Hcm, Hm.
  - intros x y [->%elem_of_singleton|Hx]%elem_of_union Hy.
    + apply precedes_snoc, Hm, Hin, Hy.
    + by apply precedes_app, Hord.
  - intros x Hx. destruct (Hsub x Hx) as [Hxt Hne].
    specialize (Hun x Hxt). set_solver.
  - intros x Hx. apply Hact. by apply Hsub.
  - intros x y Hy. destruct (Hsev x y Hy) as [?|[?|?]]; auto.
    right; left. set_solver.
Qed.

(** What is mapped has its dependencies on direct-feedthrough components
    mapped. *)
Lemma hard_edge_mapped A o a b :
  invariant df G A o → rtc (hard_edge df G) a b →
  a ∈ mapped o → b ∈ mapped o.
Proof.
  intros Hinv Hab. induction Hab as [a|a a' b [Ha' Hdf] _ IH]; [done|].
  intros Ha. apply IH, (inv_mapped _ _ _ _ Hinv).
  apply (precedes_elem_of a' a), (inv_order _ _ _ _ Hinv); [done|].
  by apply (inv_hard _ _ _ _ Hinv).
Qed.

Lemma hard_edge_df_edge a b :
  rtc (hard_edge df G) a b → df a = true →
  rtc (df_edge df G) a b ∧ df b = true.
Proof.
  intros Hab. induction Hab as [a|a a' b [Ha' Hdf] _ IH]; [done|].
  intros Ha. destruct (IH Hdf) as [Hrtc Hb]. split; [|done].
  eapply rtc_l; [|done]. done.
Qed.

(** The part of the trail from a component [ic] of it to its end [c],
    which has [ic] as an input, is a loop of dependencies. *)
Section loop.
Variables (A : gset nat) (o : organizer) (t : list nat) (c ic i : nat).
Hypothesis Hinv : invariant df G A o.
Hypothesis Htrail : sys_trail o = t ++ [c].
Hypothesis Hi : sys_trail o !! i = Some ic.
Hypothesis Hic : ic ∈ inputs_of (sys_info o) c.

Lemma loop_next m x y :
  drop i (sys_trail o) !! m = Some x →
  _get_component_input_in_loop m (drop i (sys_trail o)) = Some y →
  y ∈ inputs_of (sys_info o) x ∧ y ∈ sys_trail o.
Proof.
  unfold _get_component_input_in_loop. rewrite !lookup_drop. intros Hx.
  destruct (sys_trail o !! (i + S m)) as [y'|] eqn:HS.
  - intros [= ->]. split; [|by eapply list_elem_of_lookup_2].
    apply (inv_trail_path _ _ _ _ Hinv (i + m)); [done|].
    by rewrite <- Nat.add_succ_r.
  - rewrite Nat.add_0_r, Hi. intros [= <-].
    split; [|by eapply list_elem_of_lookup_2].
    apply lookup_ge_None in HS. pose proof (lookup_lt_Some _ _ _ Hx) as Hlt.
    rewrite Htrail in Hx, HS, Hlt. rewrite length_app in HS, Hlt.
    simpl in HS, Hlt. rewrite lookup_app_r in Hx by lia.
    replace (i + m - List.length t) with 0 in Hx by lia.
    by injection Hx as <-.
Qed.

Lemma loop_chain m x :
  (∀ j, j < m →
        ∃ z, _get_component_input_in_loop j (drop i (sys_trail o)) = Some z
             ∧ df z = true) →
  drop i (sys_trail o) !! m = Some x → rtc (hard_edge df G) ic x.
Proof.
  revert x. induction m as [|m IH]; intros x Hdf Hx.
  - rewrite lookup_drop, Nat.add_0_r, Hi in Hx. by injection Hx as <-.
  - destruct (drop i (sys_trail o) !! m) as [x'|] eqn:Hx'; cycle 1.
    { apply lookup_ge_None in Hx'. apply lookup_lt_Some in Hx. lia. }
    destruct (Hdf m) as (z & Hz & Hzdf); [lia|].
    assert (z = x) as ->.
    { unfold _get_component_input_in_loop in Hz. rewrite Hx in Hz.
      by injection Hz. }
    eapply rtc_r; [apply IH; [|done]; intros j Hj; apply Hdf; lia|].
    split; [|done]. apply (inv_sub _ _ _ _ Hinv).
    by eapply loop_next.
Qed.

(** A loop in which every successor is direct feedthrough is an algebraic
    loop. *)
Lemma loop_algebraic :
  (∀ j, j < List.length (drop i (sys_trail o)) →
        ∃ z, _get_component_input_in_loop j (drop i (sys_trail o)) = Some z
             ∧ df z = true) →
  algebraic_loop df G ic.
Proof.
  intros Hdf.
  assert (i ≤ List.length t) as Hit.
  { apply lookup_lt_Some in Hi. rewrite Htrail, length_app in Hi.
    simpl in Hi. lia. }
  assert (List.length (drop i (sys_trail o)) = S (List.length t - i)) as Hlen.
  { rewrite length_drop, Htrail, length_app. simpl. lia. }
  assert (drop i (sys_trail o) !! (List.length t - i) = Some c) as Hc.
  { rewrite lookup_drop, Htrail, lookup_app_r by lia.
    by replace (i + (List.length t - i) - List.length t) with 0 by lia. }
  destruct (Hdf (List.length t - i)) as (z & Hz & Hzdf); [lia|].
  assert (z = ic) as ->.
  { unfold _get_component_input_in_loop in Hz.
    rewrite (proj2 (lookup_ge_None _ _)) in Hz by lia.
    rewrite lookup_drop, Nat.add_0_r, Hi in Hz. by injection Hz. }
  destruct (hard_edge_df_edge ic c) as [Hrtc Hcdf]; [|done|].
  { eapply loop_chain; [|done]. intros j Hj. apply Hdf. lia. }
  eapply tc_rtc_l; [done|]. apply tc_once. split_and!; [|done..].
  by apply (inv_sub _ _ _ _ Hinv).
Qed.
End loop.

Lemma list_remove_keeps x y l l' :
  list_remove x l = Some l' → y ∈ l → y ≠ x → y ∈ l'.
Proof.
  intros Hl Hy Hne.
  destruct (list_remove_Some x l) as (l0 & Hl0 & _ & _ & Hkeep).
  { destruct (decide (x ∈ l)) as [|Hx]; [done|].
    by rewrite (list_remove_None _ _ Hx) in Hl. }
  rewrite Hl in Hl0. injection Hl0 as <-. auto.
Qed.

Lemma list_remove_sub x y l l' :
  list_remove x l = Some l' → y ∈ l' → y ∈ l.
Proof.
  intros Hl Hy.
  destruct (list_remove_Some x l) as (l0 & Hl0 & _ & Hsub & _).
  { destruct (decide (x ∈ l)) as [|Hx]; [done|].
    by rewrite (list_remove_None _ _ Hx) in Hl. }
  rewrite Hl in Hl0. injection Hl0 as <-. auto.
Qed.

(** A severance at the end [c] of the trail, for its input [ic] on the
    trail: it keeps the invariant, and the component that loses an input
    is linked to [ic] by dependencies that are never severed; it fails
    on an algebraic loop only. *)
Lemma _sever_system_loop_sound A t c ic o :
  invariant df G A o → sys_trail o = t ++ [c] → ic ∈ sys_trail o →
  ic ∈ inputs_of (sys_info o) c →
  match _sever_system_loop df ic o with
  | Ret _ o1 =>
      invariant df G A o1 ∧ sys_trail o1 = [] ∧ mapped o1 = mapped o ∧
      ∃ x, rtc (hard_edge df G) ic x ∧
           ∀ z, z ≠ x →
                inputs_of (sys_info o1) z = inputs_of (sys_info o) z
  | Raise e _ => e = AlgebraicLoopError ∧ ∃ x, algebraic_loop df G x
  | OutOfFuel => False
  end.
Proof.
  intros Hinv Htrail Hict Hic.
  destruct (list_index_Some ic (sys_trail o) Hict) as (i & Hidx & Hi).
  pose proof (_sever_system_loop_spec df ic o) as Hspec.
  pose proof (scan_loop_spec df (drop i (sys_trail o))
                (drop i (sys_trail o)) 0 eq_refl) as Hscan.
  destruct (_sever_system_loop df ic o) as [u o1|e' o1|]; [| |done].
  - destruct Hspec as (i' & x & y & l & l' & Hidx' & Hxy & Hx & Hl & ->).
    rewrite Hidx in Hidx'. injection Hidx' as <-. rewrite Hxy in Hscan.
    destruct Hscan as (m & _ & Hmx & Hmy & Hydf & Hbefore).
    destruct (loop_next A o t c ic i Hinv Htrail Hi Hic m x y Hmx Hmy)
      as [Hyx Hyt].
    split_and!; [|done|done|].
    + destruct Hinv as [Hm Hnd Hord Htnd Hun Hpath Hact Hkeys Hsub Hhard Hsev].
      assert (∀ a b, b ∈ inputs_of (<[x:=l']> (sys_info o)) a →
                     b ∈ inputs_of (sys_info o) a) as Hless.
      { intros a b. rewrite inputs_of_insert. case_decide as Hxa; [|done].
        subst a. unfold inputs_of. rewrite Hx. simpl.
        by apply (list_remove_sub y). }
      split; simpl.
      * done.
      * done.
      * intros a b Ha Hb. apply Hord; auto.
      * constructor.
      * by intros a ?%elem_of_nil.
      * by intros j a b ?.
      * by intros a ?%elem_of_nil.
      * intros a. rewrite <- Hkeys.
        destruct (decide (x = a)) as [->|];
          [rewrite lookup_insert_eq, Hx|rewrite lookup_insert_ne by done];
          done.
      * intros a b Hb. apply Hsub, Hless, Hb.
      * intros a b Hb Hbdf. rewrite inputs_of_insert.
        specialize (Hhard a b Hb Hbdf).
        case_decide as Hxa; [|done]. subst a.
        unfold inputs_of in Hhard. rewrite Hx in Hhard. simpl in Hhard.
        eapply list_remove_keeps; [done..|]. intros ->. congruence.
      * intros a b Hb. rewrite inputs_of_insert.
        destruct (Hsev a b Hb) as [Hin|[?|?]]; [|by auto..].
        case_decide as Hxa; [|by left]. subst a.
        destruct (decide (b = y)) as [->|Hne]; [right; right; auto|].
        left. unfold inputs_of in Hin. rewrite Hx in Hin. simpl in Hin.
        by eapply list_remove_keeps.
    + exists x. split.
      * apply (loop_chain A o t c ic i Hinv Htrail Hi Hic m); [|done].
        intros j Hj. apply Hbefore. lia.
      * intros z Hz. simpl. rewrite inputs_of_insert.
        by rewrite decide_False.
  - destruct Hspec as [-> [Hnone|(i' & Hidx' & Hcase)]]; [congruence|].
    rewrite Hidx in Hidx'. injection Hidx' as <-.
    destruct (scan_loop _ _ _ _) as [[x y]|].
    + exfalso. destruct Hscan as (m & _ & Hmx & Hmy & _).
      destruct (loop_next A o t c ic i Hinv Htrail Hi Hic m x y Hmx Hmy)
        as [Hyx _].
      apply inputs_of_Some in Hyx as (l & Hx & Hy). rewrite Hx in Hcase.
      destruct (list_remove_Some y l Hy) as (? & ? & _). congruence.
    + split; [done|]. exists ic.
      apply (loop_algebraic A o t c ic i Hinv Htrail Hi Hic).
      intros j Hj. apply Hscan. lia.
Qed.
End soundness.

(** *** The traversal is sound *)

Section traversal_sound.
Variable df : nat → bool.
Variable G : gmap nat (list nat).
Hypothesis Hclosed : closed G.

Lemma sound_mono r (P Q : organizer → Prop) :
  (∀ o, P o → Q o) → sound df G r P → sound df G r Q.
Proof. destruct r; simpl; auto. Qed.

Lemma step_post_refl A c o :
  invariant df G A o → c ∈ mapped o → step_post df G A c o o.
Proof. intros. split_and!; [done..|by left|by left]. Qed.

Lemma traversal_sound fuel :
  (∀ A c o,
     invariant df G A o → is_Some (G !! c) → c ∉ mapped o →
     c ∉ sys_trail o →
     (sys_trail o = [] ∨
      ∃ t p, sys_trail o = t ++ [p] ∧ c ∈ inputs_of (sys_info o) p) →
     sound df G (build_system_order df fuel c o)
       (λ o', step_post df G A c o o' ∧
              (sys_trail o' = sys_trail o ∨ sys_trail o' = []))) ∧
  (∀ A c idx o,
     invariant df G A o → is_Some (G !! c) →
     (sys_trail o = [] ∨ ∃ t, sys_trail o = t ++ [c]) →
     (c ∈ mapped o ∨
      ∀ j y, j < idx → inputs_of (sys_info o) c !! j = Some y →
             y ∈ mapped o) →
     sound df G (for_inputs df fuel c idx o)
       (λ o', step_post df G A c o o' ∧
              (sys_trail o' = [] ∨ sys_trail o = sys_trail o' ++ [c]))).
Proof.
  induction fuel as [|fuel [IHbuild IHloop]]; [done|]. split.
  - (* a call *)
    intros A c o Hinv Hc Hcm Hct Hlast. rewrite build_system_order_unfold.
    destruct (proj2 (inv_keys _ _ _ _ Hinv c) Hc) as [l ->].
    eapply sound_mono; cycle 1.
    { apply (IHloop (A ∪ {[c]}) c 0 (set_sys_trail (λ t, t ++ [c]) o)).
      - by apply invariant_push.
      - done.
      - right. by exists (sys_trail o).
      - right. intros j y Hj. lia. }
    simpl. intros o' [(Hinv' & Hcm' & Hmono & Hlists & Hreach) Htrail].
    split.
    + split_and!; [|done..]. by eapply invariant_returned.
    + destruct Htrail as [?|Heq]; [by right|left].
      by apply app_inj_tail in Heq as [? _].
  - (* an iteration *)
    intros A c idx o Hinv Hc Htrail HL. rewrite for_inputs_unfold.
    destruct (inputs_of (sys_info o) c !! idx) as [ic|] eqn:Hidx; cycle 1.
    { (* the end of the loop *)
      pose proof (finish_component_spec c o) as Hfin.
      destruct (decide (c ∈ mapped o)) as [Hcm|Hcm].
      - rewrite Hfin. simpl. split; [by apply step_post_refl|]. left.
        destruct Htrail as [?|[t Ht]]; [done|].
        destruct (inv_trail_unmapped _ _ _ _ Hinv c); [|done].
        rewrite Ht. set_solver.
      - clear Hfin. destruct HL as [?|HL]; [done|].
        destruct (invariant_finish df G A c o Hinv Hcm Htrail)
          as (o' & -> & Hinv' & Hinfo & Hmapped & Htrail').
        { intros y [j Hj]%list_elem_of_lookup. apply (HL j y); [|done].
          apply lookup_ge_None in Hidx. apply lookup_lt_Some in Hj. lia. }
        simpl. split; [|done]. split_and!; [done|set_solver|set_solver| |].
        + intros x. left. by rewrite Hinfo.
        + intros x. rewrite Hmapped.
          intros [->%elem_of_singleton|?]%elem_of_union; [|by left].
          right. apply rtc_refl. }
    assert (ic ∈ inputs_of (sys_info o) c) as Hic
      by by eapply list_elem_of_lookup_2.
    assert (depends G c ic) as Hdep by by apply (inv_sub _ _ _ _ Hinv).
    (* the severance, if any *)
    remember (if decide (ic ∈ sys_trail o)
              then _sever_system_loop df ic o else Ret tt o) as r1 eqn:Hr1.
    assert (sound df G r1 (λ o1,
              invariant df G A o1 ∧ mapped o1 = mapped o ∧
              ic ∉ sys_trail o1 ∧ (sys_trail o1 = [] ∨ o1 = o) ∧
              ∃ x, rtc (hard_edge df G) ic x ∧
                   ∀ z, z ≠ x →
                        inputs_of (sys_info o1) z
                        = inputs_of (sys_info o) z)) as H1.
    { subst r1. destruct (decide (ic ∈ sys_trail o)) as [Hict|Hict].
      - destruct Htrail as [Hnil|[t Ht]].
        { rewrite Hnil in Hict. by apply elem_of_nil in Hict. }
        pose proof (_sever_system_loop_sound df G A t c ic o Hinv Ht Hict Hic)
          as Hs.
        destruct (_sever_system_loop df ic o) as [u o1|e' s|]; [|done..].
        simpl. destruct Hs as (Hinv1 & Hnil & Hmapped & Hx).
        split_and!; [done|done| |by left|done].
        rewrite Hnil. apply not_elem_of_nil.
      - simpl. split_and!; [done|done|done|by right|].
        exists ic. split; [apply rtc_refl|done]. }
    clear Hr1. destruct r1 as [u1 o1|e1 s1|]; [|exact H1|exact I].
    simpl in H1.
    destruct H1 as (Hinv1 & Hmapped1 & Hict1 & Htrail1 & x & Hhard & Hsame).
    (* the recursive call, if any *)
    remember (if decide (ic ∈ mapped o1) then Ret tt o1
              else build_system_order df fuel ic o1) as r2 eqn:Hr2.
    assert (sound df G r2 (λ o2,
              step_post df G A ic o1 o2 ∧
              (sys_trail o2 = sys_trail o1 ∨ sys_trail o2 = []))) as H2.
    { subst r2. destruct (decide (ic ∈ mapped o1)) as [Hicm|Hicm].
      - simpl. split; [by apply step_post_refl|by left].
      - apply IHbuild; [done|by eapply Hclosed|done|done|].
        destruct Htrail1 as [?| ->]; [by left|].
        destruct Htrail as [?|[t Ht]]; [by left|right]. by exists t, c. }
    clear Hr2. destruct r2 as [u2 o2|e2 s2|]; [|exact H2|exact I].
    simpl in H2.
    destruct H2 as [(Hinv2 & Hicm2 & Hmono2 & Hlists2 & Hreach2) Htrail2].
    assert (x ∈ mapped o2) as Hxm by by eapply hard_edge_mapped.
    (* the rest of the loop *)
    eapply sound_mono; cycle 1.
    { apply (IHloop A c (S idx) o2); [done|done| |].
      - destruct Htrail2 as [->|?]; [|by left].
        destruct Htrail1 as [?| ->]; [by left|done].
      - destruct (decide (c = x)) as [->|Hcx]; [by left|].
        destruct (Hlists2 c) as [Hl2|?]; [|by left].
        destruct HL as [Hcm|HL]; [left; apply Hmono2; by rewrite Hmapped1|].
        right. intros j y Hj. rewrite Hl2, Hsame by done. intros Hy.
        destruct (decide (j = idx)) as [->|Hne].
        + rewrite Hidx in Hy. by injection Hy as <-.
        + apply Hmono2. rewrite Hmapped1. apply (HL j y); [lia|done]. }
    simpl. intros o3 [(Hinv3 & Hcm3 & Hmono3 & Hlists3 & Hreach3) Htrail3].
    split.
    + split_and!; [done|done| | |].
      * rewrite <- Hmapped1. set_solver.
      * intros z. destruct (Hlists3 z) as [Hl3|?]; [|by right].
        destruct (Hlists2 z) as [Hl2|?]; [|right; by apply Hmono3].
        destruct (decide (z = x)) as [->|Hzx]; [right; by apply Hmono3|].
        left. by rewrite Hl3, Hl2, Hsame.
      * intros z Hz. destruct (Hreach3 z Hz) as [Hz2|?]; [|by right].
        destruct (Hreach2 z Hz2) as [?|Hr]; [left; by rewrite <- Hmapped1|].
        right. by eapply rtc_l.
    + destruct Htrail3 as [?|Heq3]; [by left|].
      destruct Htrail2 as [Heq2|Hnil2]; cycle 1.
      { rewrite Hnil2 in Heq3. by destruct (sys_trail o3). }
      destruct Htrail1 as [Hnil1| ->].
      { rewrite Heq2, Hnil1 in Heq3. by destruct (sys_trail o3). }
      right. by rewrite <- Heq2.
Qed.
End traversal_sound.

(** *** From one call to the next *)

Section resolution.
Variable df : nat → bool.
Variable G : gmap nat (list nat).

Lemma fresh_invariant : invariant df G ∅ (fresh G).
Proof.
  split; simpl.
  - intros x. split; [set_solver|by intros ?%elem_of_nil].
  - constructor.
  - intros x y Hx. set_solver.
  - constructor.
  - by intros x ?%elem_of_nil.
  - by intros i x y ?.
  - by intros x ?%elem_of_nil.
  - done.
  - done.
  - done.
  - auto.
Qed.

(** Between two calls, what is mapped has all its dependencies mapped. *)
Lemma mapped_closed o x y :
  invariant df G ∅ o → reachable G x y → x ∈ mapped o → y ∈ mapped o.
Proof.
  intros Hinv Hxy. induction Hxy as [x|x x' y Hx' _ IH]; [done|].
  intros Hx. apply IH.
  destruct (inv_severed _ _ _ _ Hinv x x' Hx') as [Hin|[?|?]];
    [|done|set_solver].
  apply (inv_mapped _ _ _ _ Hinv).
  by apply (precedes_elem_of x' x), (inv_order _ _ _ _ Hinv).
Qed.

(** Along dependencies between direct-feedthrough components the order
    goes backwards, so no component of an algebraic loop is mapped. *)
Lemma df_edge_precedes A o a b :
  invariant df G A o → tc (df_edge df G) a b → a ∈ mapped o →
  precedes b a (ordered_comps o).
Proof.
  intros Hinv Hab.
  assert (∀ a b, df_edge df G a b → a ∈ mapped o →
                 precedes b a (ordered_comps o)) as Hstep.
  { intros a0 b0 (Hdep & _ & Hdf) Ha. apply (inv_order _ _ _ _ Hinv); [done|].
    by apply (inv_hard _ _ _ _ Hinv). }
  induction Hab as [a b Hab|a a' b Hab _ IH]; [by apply Hstep|].
  intros Ha. pose proof (Hstep a a' Hab Ha) as Hpre.
  eapply precedes_trans; [apply (inv_nodup _ _ _ _ Hinv)| |done].
  apply IH, (inv_mapped _ _ _ _ Hinv). by apply (precedes_elem_of a' a).
Qed.

Lemma algebraic_loop_unmapped A o x :
  invariant df G A o → algebraic_loop df G x → x ∉ mapped o.
Proof.
  intros Hinv Hloop Hx.
  eapply precedes_irrefl; [apply (inv_nodup _ _ _ _ Hinv)|].
  by eapply df_edge_precedes.
Qed.

Hypothesis Hclosed : closed G.

Lemma resolving_invariant o :
  resolving df G o → invariant df G ∅ o ∧ sys_trail o = [].
Proof.
  induction 1 as [|o c fuel o' _ [IHinv IHt] Hc Hcm Hrun].
  { split; [apply fresh_invariant|done]. }
  pose proof (proj1 (traversal_sound df G Hclosed fuel) ∅ c o IHinv Hc Hcm)
    as Hs.
  rewrite Hrun, IHt in Hs. simpl in Hs.
  destruct Hs as [(Hinv' & _) [?|?]]; [apply not_elem_of_nil|by left|done..].
Qed.

(** A call from outside ends: it returns and has mapped what its component
    reaches, or it raises the exception of an algebraic loop, and there is
    one. *)
Lemma build_system_order_outcome o c :
  resolving df G o → is_Some (G !! c) → c ∉ mapped o →
  ∃ (n : nat) (r : outcome organizer unit),
    (∀ fuel, n ≤ fuel → build_system_order df fuel c o = r) ∧
    match r with
    | Ret _ o' => step_post df G ∅ c o o'
    | Raise e _ => e = AlgebraicLoopError ∧ ∃ x, algebraic_loop df G x
    | OutOfFuel => False
    end.
Proof.
  intros [Hinv Ht]%resolving_invariant Hc Hcm.
  destruct (build_system_order_ends df c o) as (n & r & Hrun & Hr).
  exists n, r. split; [done|].
  pose proof (proj1 (traversal_sound df G Hclosed n) ∅ c o Hinv Hc Hcm)
    as Hs.
  rewrite Hrun, Ht in Hs by done.
  destruct r as [u o'|e' s|]; [| |done]; simpl in Hs.
  - apply Hs; [apply not_elem_of_nil|by left].
  - apply Hs; [apply not_elem_of_nil|by left].
Qed.
End resolution.

(** A diagram given by its lists is closed when every listed component is
    a key. *)
Lemma closed_check (G : gmap nat (list nat)) :
  map_Forall (λ _ l, Forall (λ b, is_Some (G !! b)) l) G → closed G.
Proof.
  intros HG a b [l [Ha Hb]]%inputs_of_Some.
  specialize (HG a l Ha). by eapply Forall_forall in HG.
Qed.

(** *** The two diagrams *)

Lemma ring_closed : closed ring.
Proof. apply closed_check, (bool_decide_unpack _). by vm_compute. Qed.

Lemma two_loops_closed : closed two_loops.
Proof. apply closed_check, (bool_decide_unpack _). by vm_compute. Qed.

Lemma inputs_of_ring a b :
  b ∈ inputs_of ring a → (a = 0 ∧ b = 2) ∨ (a = 1 ∧ b = 0) ∨ (a = 2 ∧ b = 1).
Proof.
  unfold inputs_of, ring.
  destruct (decide (a = 0)) as [->|]; [|rewrite lookup_insert_ne by done].
  { rewrite lookup_insert_eq. simpl. intros ->%list_elem_of_singleton. auto. }
  destruct (decide (a = 1)) as [->|]; [|rewrite lookup_insert_ne by done].
  { rewrite lookup_insert_eq. simpl. intros ->%list_elem_of_singleton. auto. }
  destruct (decide (a = 2)) as [->|]; [|rewrite lookup_singleton_ne by done].
  { rewrite lookup_singleton_eq. simpl. intros ->%list_elem_of_singleton.
    auto. }
  by intros ?%elem_of_nil.
Qed.

(** The only dependency of the ring between two direct-feedthrough
    components is the one of [B] on [A]. *)
Lemma ring_no_algebraic_loop x : ¬ algebraic_loop ring_feedthrough ring x.
Proof.
  assert (∀ a b, df_edge ring_feedthrough ring a b → a = 1 ∧ b = 0) as Hedge.
  { intros a b (Hdep & Ha & Hb).
    apply inputs_of_ring in Hdep as [[-> ->]|[[-> ->]|[-> ->]]]; done. }
  assert (∀ a b, tc (df_edge ring_feedthrough ring) a b → a = 1 ∧ b = 0)
    as Htc.
  { intros a b Hab. induction Hab as [a b Hab|a a' b Hab _ IH]; [auto|].
    apply Hedge in Hab. lia. }
  intros Hx%Htc. lia.
Qed.

Lemma ring_order fuel :
  8 ≤ fuel →
  build_system_order ring_feedthrough fuel 0 (fresh ring)
  = Ret tt (Organizer (<[0 := []]> ring) [] [0; 1; 2] {[0; 1; 2]}).
Proof.
  intros Hfuel.
  assert (build_system_order ring_feedthrough 8 0 (fresh ring)
          = Ret tt (Organizer (<[0 := []]> ring) [] [0; 1; 2] {[0; 1; 2]}))
    as H8 by (vm_compute; reflexivity).
  rewrite (fuel_mono _ 8 fuel) by (done || by rewrite H8). exact H8.
Qed.

Lemma two_loops_order fuel :
  8 ≤ fuel →
  build_system_order two_loops_feedthrough fuel 0 (fresh two_loops)
  = Raise AlgebraicLoopError
      (Organizer (<[0 := [2]]> two_loops) [0; 2] [] ∅).
Proof.
  intros Hfuel.
  assert (build_system_order two_loops_feedthrough 8 0 (fresh two_loops)
          = Raise AlgebraicLoopError
              (Organizer (<[0 := [2]]> two_loops) [0; 2] [] ∅))
    as H8 by (vm_compute; reflexivity).
  rewrite (fuel_mono _ 8 fuel) by (done || by rewrite H8). exact H8.
Qed.

Lemma inputs_of_two_loops :
  inputs_of two_loops 0 = [1; 2] ∧ inputs_of two_loops 1 = [0] ∧
  inputs_of two_loops 2 = [2].
Proof. done. Qed.

(** *** The order that is built *)

(** C1, as amended.  Take a diagram in which every input dependency is a
    component of the diagram and every cycle of dependencies has a member
    that is not direct feedthrough, that is, no cycle runs through
    direct-feedthrough components only.  Called for an unmapped component
    [c] of the diagram, in the initial state or after earlier such calls
    have returned, [build_system_order] terminates and returns.  In the
    order it leaves no component appears twice; a component appears in
    it exactly when it appeared before the call or is reachable from [c];
    every component comes after all the input dependencies that are left
    to it in the working data; and what is left is a dependency of the
    diagram, every dependency on a direct-feedthrough component being
    left.  The ring of three components [A], [B], [C] with [C] not direct
    feedthrough is the instance given with this theorem: the scan of the
    trail [A; C; B] picks the dependency of [A] on [C], which is removed,
    and the order is [A; B; C]. *)
Theorem build_system_order_correct df G o c :
  closed G → (∀ x, ¬ algebraic_loop df G x) →
  resolving df G o → is_Some (G !! c) → c ∉ mapped o →
  ∃ n o',
    (∀ fuel, n ≤ fuel → build_system_order df fuel c o = Ret tt o') ∧
    NoDup (ordered_comps o') ∧
    (∀ x, x ∈ ordered_comps o' ↔ x ∈ ordered_comps o ∨ reachable G c x) ∧
    (∀ x y, x ∈ ordered_comps o' → y ∈ inputs_of (sys_info o') x →
            precedes y x (ordered_comps o')) ∧
    (∀ x y, y ∈ inputs_of (sys_info o') x → y ∈ inputs_of G x) ∧
    (∀ x y, y ∈ inputs_of G x → df y = true →
            y ∈ inputs_of (sys_info o') x).
Proof.
  intros Hclosed Hnone Hres Hc Hcm.
  destruct (resolving_invariant df G Hclosed o Hres) as [Hinv _].
  destruct (build_system_order_outcome df G Hclosed o c Hres Hc Hcm)
    as (n & r & Hrun & Hr).
  destruct r as [[] o'|e' s|]; [| |done]; cycle 1.
  { destruct Hr as [_ [x Hx]]. by destruct (Hnone x). }
  destruct Hr as (Hinv' & Hcm' & Hmono & _ & Hreach).
  exists n, o'. split_and!.
  - done.
  - apply (inv_nodup _ _ _ _ Hinv').
  - intros x.
    rewrite <- (inv_mapped _ _ _ _ Hinv'), <- (inv_mapped _ _ _ _ Hinv).
    split; [apply Hreach|]. intros [Hx|Hx]; [by apply Hmono|].
    by eapply mapped_closed.
  - intros x y Hx Hy. apply (inv_order _ _ _ _ Hinv'); [|done].
    by apply (inv_mapped _ _ _ _ Hinv').
  - apply (inv_sub _ _ _ _ Hinv').
  - apply (inv_hard _ _ _ _ Hinv').
Qed.

Lemma build_system_order_correct_witness :
  scan_loop ring_feedthrough [0; 2; 1] [0; 2; 1] 0 = Some (0, 2) ∧
  build_system_order ring_feedthrough 8 0 (fresh ring)
  = Ret tt (Organizer (<[0 := []]> ring) [] [0; 1; 2] {[0; 1; 2]}) ∧
  ∃ n o',
    (∀ fuel, n ≤ fuel →
       build_system_order ring_feedthrough fuel 0 (fresh ring) = Ret tt o') ∧
    NoDup (ordered_comps o') ∧
    (∀ x, x ∈ ordered_comps o' ↔
          x ∈ ordered_comps (fresh ring) ∨ reachable ring 0 x) ∧
    (∀ x y, x ∈ ordered_comps o' → y ∈ inputs_of (sys_info o') x →
            precedes y x (ordered_comps o')) ∧
    (∀ x y, y ∈ inputs_of (sys_info o') x → y ∈ inputs_of ring x) ∧
    (∀ x y, y ∈ inputs_of ring x → ring_feedthrough y = true →
            y ∈ inputs_of (sys_info o') x).
Proof.
  split; [reflexivity|]. split; [by apply ring_order|].
  apply (build_system_order_correct ring_feedthrough ring (fresh ring) 0).
  - apply ring_closed.
  - apply ring_no_algebraic_loop.
  - apply resolving_fresh.
  - exists [2]. reflexivity.
  - apply not_elem_of_empty.
Defined.

(** The claim as it stands does not hold: a diagram with a cycle through
    a component that is not direct feedthrough, and with an algebraic loop
    besides, raises the exception. *)
Lemma breakable_loop_counterexample :
  closed two_loops ∧
  breakable_loop two_loops_feedthrough two_loops 1 ∧
  ∀ fuel, 8 ≤ fuel →
    build_system_order two_loops_feedthrough fuel 0 (fresh two_loops)
    = Raise AlgebraicLoopError
        (Organizer (<[0 := [2]]> two_loops) [0; 2] [] ∅).
Proof.
  destruct inputs_of_two_loops as (H0 & H1 & H2).
  split_and!; [apply two_loops_closed| |apply two_loops_order].
  split; [done|]. apply tc_l with 0; [|apply tc_once]; unfold depends.
  - rewrite H1. set_solver.
  - rewrite H0. set_solver.
Qed.

(** C2.  In a diagram in which every input dependency is a component of
    the diagram, let [x] lie on a cycle of dependencies all of whose
    members are direct feedthrough, and let [c] be a component from which
    [x] is reachable.  A call of [build_system_order] for [c], in the
    initial state or after earlier calls have returned, ends with
    [AlgebraicLoopError]: the exception leaves the outermost call, no
    nested call catches it.  It does so whatever calls returned before,
    and [x] is in the order after none of them: resolving the diagram
    cannot succeed. *)
Theorem algebraic_loop_raises df G o c x :
  closed G → resolving df G o → is_Some (G !! c) →
  reachable G c x → algebraic_loop df G x →
  x ∉ ordered_comps o ∧
  ∃ n o', ∀ fuel, n ≤ fuel →
    build_system_order df fuel c o = Raise AlgebraicLoopError o'.
Proof.
  intros Hclosed Hres Hc Hcx Hloop.
  destruct (resolving_invariant df G Hclosed o Hres) as [Hinv _].
  pose proof (algebraic_loop_unmapped df G ∅ o x Hinv Hloop) as Hxm.
  split; [by rewrite <- (inv_mapped _ _ _ _ Hinv)|].
  assert (c ∉ mapped o) as Hcm.
  { intros Hcm. by apply Hxm, (mapped_closed df G o c x). }
  destruct (build_system_order_outcome df G Hclosed o c Hres Hc Hcm)
    as (n & r & Hrun & Hr).
  destruct r as [u o'|e' s|]; [| |done].
  - exfalso. destruct Hr as (Hinv' & Hcm' & _).
    apply (algebraic_loop_unmapped df G ∅ o' x Hinv' Hloop).
    by apply (mapped_closed df G o' c x).
  - destruct Hr as [-> _]. by exists n, s.
Qed.

Lemma algebraic_loop_raises_witness :
  2 ∉ ordered_comps (fresh two_loops) ∧
  ∃ n o', ∀ fuel, n ≤ fuel →
    build_system_order two_loops_feedthrough fuel 0 (fresh two_loops)
    = Raise AlgebraicLoopError o'.
Proof.
  apply (algebraic_loop_raises two_loops_feedthrough two_loops
           (fresh two_loops) 0 2).
  - apply two_loops_closed.
  - apply resolving_fresh.
  - exists [1; 2]. reflexivity.
  - apply rtc_once. unfold depends.
    rewrite (proj1 inputs_of_two_loops). set_solver.
  - apply tc_once. split; [|done]. unfold depends.
    rewrite (proj2 (proj2 inputs_of_two_loops)). set_solver.
Defined.

(** ** Further facts about the order resolver *)

Local Open Scope nat_scope.

Lemma extends_refl o : extends o o.
Proof.
  exists []. rewrite app_nil_r. split_and!; [done|set_solver|constructor|].
  by intros x ?%elem_of_nil.
Qed.

Lemma extends_same o o' :
  ordered_comps o' = ordered_comps o → mapped o' = mapped o → extends o o'.
Proof.
  intros Ho Hm. exists []. rewrite app_nil_r.
  split_and!; [done|set_solver|constructor|]. by intros x ?%elem_of_nil.
Qed.

Lemma extends_trans o1 o2 o3 : extends o1 o2 → extends o2 o3 → extends o1 o3.
Proof.
  intros (n1 & Ho1 & Hm1 & Hnd1 & Hnew1) (n2 & Ho2 & Hm2 & Hnd2 & Hnew2).
  exists (n1 ++ n2). split_and!.
  - by rewrite Ho2, Ho1, app_assoc.
  - rewrite Hm2, Hm1, list_to_set_app_L. set_solver.
  - apply NoDup_app. split_and!; [done| |done].
    intros x Hx1 Hx2. apply (Hnew2 x Hx2). rewrite Hm1. set_solver.
  - intros x [Hx|Hx]%elem_of_app; [by apply Hnew1|].
    intros Hxm. apply (Hnew2 x Hx). rewrite Hm1. set_solver.
Qed.

Lemma shrinks_refl o : shrinks o o.
Proof. by split. Qed.

Lemma shrinks_same o o' : sys_info o' = sys_info o → shrinks o o'.
Proof. intros H. unfold shrinks. by rewrite H. Qed.

Lemma shrinks_trans o1 o2 o3 : shrinks o1 o2 → shrinks o2 o3 → shrinks o1 o3.
Proof.
  intros [Hd1 Hl1] [Hd2 Hl2]. split; [congruence|].
  intros x. trans (inputs_of (sys_info o2) x); [apply Hl2|apply Hl1].
Qed.

Lemma list_remove_sublist x l l' :
  list_remove x l = Some l' → l' `sublist_of` l.
Proof.
  revert l'. induction l as [|y l IH]; intros l'; simpl; [done|].
  destruct (decide (y = x)) as [->|Hne].
  - intros [= <-]. by apply sublist_cons.
  - destruct (list_remove x l) as [l0|]; simpl; [|done].
    intros [= <-]. apply sublist_skip. by apply IH.
Qed.

(** The first occurrence is the one that goes. *)
Lemma list_remove_first x l l' :
  list_remove x l = Some l' →
  ∃ l1 l2, l = l1 ++ x :: l2 ∧ x ∉ l1 ∧ l' = l1 ++ l2.
Proof.
  revert l'. induction l as [|y l IH]; intros l'; simpl; [done|].
  destruct (decide (y = x)) as [->|Hne].
  - intros [= <-]. exists [], l. split_and!; [done|apply not_elem_of_nil|done].
  - destruct (list_remove x l) as [l0|]; simpl; [|done].
    intros [= <-]. destruct (IH l0 eq_refl) as (l1 & l2 & -> & Hx & ->).
    exists (y :: l1), l2. split_and!; [done| |done].
    apply not_elem_of_cons. by split.
Qed.

Section changes.
Variable df : nat → bool.

Lemma _sever_system_loop_changes ic o :
  match _sever_system_loop df ic o with
  | Ret _ o' | Raise _ o' => extends o o' ∧ shrinks o o'
  | OutOfFuel => True
  end.
Proof.
  pose proof (_sever_system_loop_spec df ic o) as Hs.
  destruct (_sever_system_loop df ic o) as [u o'|e' o'|]; [| |done].
  - destruct Hs as (i & x & y & l & l' & _ & _ & Hx & Hl & ->).
    split; [by apply extends_same|]. split; simpl.
    + apply dom_insert_lookup_L. by rewrite Hx.
    + intros z. rewrite inputs_of_insert. case_decide as Hxz; [|done].
      subst z. unfold inputs_of. rewrite Hx. simpl.
      by eapply list_remove_sublist.
  - destruct Hs as [-> _]. split; [apply extends_refl|apply shrinks_refl].
Qed.

Lemma finish_component_changes c o :
  ∃ o', finish_component c o = Ret tt o' ∧ extends o o' ∧ shrinks o o'.
Proof.
  pose proof (finish_component_spec c o) as Hfin.
  destruct (decide (c ∈ mapped o)) as [Hc|Hc].
  - exists o. split_and!; [done|apply extends_refl|apply shrinks_refl].
  - eexists. split; [exact Hfin|]. split; [|by apply shrinks_same].
    exists [c]. simpl. split_and!; [done|set_solver|apply NoDup_singleton|].
    by intros x ->%list_elem_of_singleton.
Qed.

Lemma traversal_changes fuel :
  (∀ c o, match build_system_order df fuel c o with
          | Ret _ o' | Raise _ o' => extends o o' ∧ shrinks o o'
          | OutOfFuel => True
          end) ∧
  (∀ c idx o, match for_inputs df fuel c idx o with
              | Ret _ o' | Raise _ o' => extends o o' ∧ shrinks o o'
              | OutOfFuel => True
              end).
Proof.
  induction fuel as [|fuel [IHb IHl]]; [done|]. split.
  - intros c o. rewrite build_system_order_unfold.
    assert (extends o (set_sys_trail (λ t, t ++ [c]) o) ∧
            shrinks o (set_sys_trail (λ t, t ++ [c]) o)) as [He Hs].
    { split; [by apply extends_same|by apply shrinks_same]. }
    destruct (sys_info o !! c); [|done].
    specialize (IHl c 0 (set_sys_trail (λ t, t ++ [c]) o)).
    destruct (for_inputs df fuel c 0 _) as [u o'|e' o'|]; [| |done];
      destruct IHl as [He' Hs'];
      (split; [by eapply extends_trans|by eapply shrinks_trans]).
  - intros c idx o. rewrite for_inputs_unfold.
    destruct (inputs_of (sys_info o) c !! idx) as [ic|].
    2:{ destruct (finish_component_changes c o) as (o' & -> & ? & ?). done. }
    assert (match (if decide (ic ∈ sys_trail o)
                   then _sever_system_loop df ic o else Ret tt o) with
            | Ret _ o' | Raise _ o' => extends o o' ∧ shrinks o o'
            | OutOfFuel => True
            end) as H1.
    { destruct (decide (ic ∈ sys_trail o));
        [apply _sever_system_loop_changes|].
      split; [apply extends_refl|apply shrinks_refl]. }
    destruct (if decide (ic ∈ sys_trail o)
              then _sever_system_loop df ic o else Ret tt o)
      as [u1 o1|e1 o1|]; [|done..].
    destruct H1 as [He1 Hs1].
    assert (match (if decide (ic ∈ mapped o1) then Ret tt o1
                   else build_system_order df fuel ic o1) with
            | Ret _ o' | Raise _ o' => extends o1 o' ∧ shrinks o1 o'
            | OutOfFuel => True
            end) as H2.
    { destruct (decide (ic ∈ mapped o1)); [|apply IHb].
      split; [apply extends_refl|apply shrinks_refl]. }
    destruct (if decide (ic ∈ mapped o1) then Ret tt o1
              else build_system_order df fuel ic o1)
      as [u2 o2|e2 o2|]; [| |done].
    + destruct H2 as [He2 Hs2]. specialize (IHl c (S idx) o2).
      destruct (for_inputs df fuel c (S idx) o2) as [u3 o3|e3 o3|];
        [| |done]; destruct IHl as [He3 Hs3];
        (split; [by do 2 (eapply extends_trans; [|done])
                |by do 2 (eapply shrinks_trans; [|done])]).
    + destruct H2 as [He2 Hs2].
      split; [by eapply extends_trans|by eapply shrinks_trans].
Qed.
End changes.

(** X1.  Whatever the state it starts in and however it ends, a call of
    [build_system_order] ends, and it only appends to the order: the
    components already ordered stay where they are, each appended
    component is appended once and was not mapped before, and the
    appended components are exactly those that became mapped. *)
Theorem build_system_order_appends df c o :
  ∃ (n : nat) (r : outcome organizer unit),
    (∀ fuel, n ≤ fuel → build_system_order df fuel c o = r) ∧
    ∃ o', (r = Ret tt o' ∨ ∃ e, r = Raise e o') ∧
          ∃ new, ordered_comps o' = ordered_comps o ++ new ∧
                 mapped o' = mapped o ∪ list_to_set new ∧
                 NoDup new ∧ ∀ x, x ∈ new → x ∉ mapped o.
Proof.
  destruct (build_system_order_ends df c o) as (n & r & Hrun & Hr).
  exists n, r. split; [done|].
  pose proof (proj1 (traversal_changes df n) c o) as H.
  rewrite (Hrun n) in H by done.
  destruct r as [[] o'|e' o'|]; [| |done]; exists o'; destruct H as [He _].
  - split; [by left|exact He].
  - split; [right; by exists e'|exact He].
Qed.

(** X2.  Whatever the state it starts in and however it ends, a call of
    [build_system_order] leaves the working data with the keys it had,
    and every list of inputs is the former list with some elements
    crossed out: no dependency is added, replaced or moved. *)
Theorem build_system_order_shrinks df c o :
  ∃ (n : nat) (r : outcome organizer unit),
    (∀ fuel, n ≤ fuel → build_system_order df fuel c o = r) ∧
    ∃ o', (r = Ret tt o' ∨ ∃ e, r = Raise e o') ∧
          dom (sys_info o') = dom (sys_info o) ∧
          ∀ x, inputs_of (sys_info o') x
               `sublist_of` inputs_of (sys_info o) x.
Proof.
  destruct (build_system_order_ends df c o) as (n & r & Hrun & Hr).
  exists n, r. split; [done|].
  pose proof (proj1 (traversal_changes df n) c o) as H.
  rewrite (Hrun n) in H by done.
  destruct r as [[] o'|e' o'|]; [| |done]; exists o'; destruct H as [_ Hs].
  - split; [by left|exact Hs].
  - split; [right; by exists e'|exact Hs].
Qed.

(** *** The scan of a loop *)

Lemma list_index_first x l1 l2 :
  x ∉ l1 → list_index x (l1 ++ x :: l2) = Some (List.length l1).
Proof.
  induction l1 as [|y l1 IH]; intros Hx; simpl.
  - by rewrite decide_True.
  - rewrite decide_False by (intros ->; apply Hx; by left).
    rewrite IH; [done|]. intros ?; apply Hx; by right.
Qed.

Lemma list_remove_first_app x l1 l2 :
  x ∉ l1 → list_remove x (l1 ++ x :: l2) = Some (l1 ++ l2).
Proof.
  induction l1 as [|y l1 IH]; intros Hx; simpl.
  - by rewrite decide_True.
  - rewrite decide_False by (intros ->; apply Hx; by left).
    rewrite IH; [done|]. intros ?; apply Hx; by right.
Qed.

(** The input of a component of the loop is its successor, the first one
    after the last. *)
Lemma _get_component_input_in_loop_mod m (sys_loop : list nat) :
  m < List.length sys_loop →
  _get_component_input_in_loop m sys_loop
  = sys_loop !! (S m mod List.length sys_loop).
Proof.
  intros Hm. unfold _get_component_input_in_loop.
  destruct (decide (S m < List.length sys_loop)) as [Hlt|Hge].
  - rewrite Nat.mod_small by done.
    destruct (lookup_lt_is_Some_2 sys_loop (S m) Hlt) as [z ->]. done.
  - replace (S m) with (List.length sys_loop) by lia.
    rewrite Nat.Div0.mod_same.
    by rewrite (proj2 (lookup_ge_None sys_loop (List.length sys_loop))).
Qed.

Section scan.
Variable df : nat → bool.
Variables (sys_loop : list nat) (m x y : nat).
Hypothesis Hx : sys_loop !! m = Some x.
Hypothesis Hy : sys_loop !! (S m mod List.length sys_loop) = Some y.
Hypothesis Hydf : df y = false.
Hypothesis Hbefore :
  ∀ j z, j < m → sys_loop !! (S j mod List.length sys_loop) = Some z →
         df z = true.

Lemma scan_loop_first : scan_loop df sys_loop sys_loop 0 = Some (x, y).
Proof using Hx Hy Hydf Hbefore.
  pose proof (lookup_lt_Some _ _ _ Hx) as Hm.
  pose proof (scan_loop_spec df sys_loop sys_loop 0 eq_refl) as Hscan.
  destruct (scan_loop df sys_loop sys_loop 0) as [[x' y']|].
  - destruct Hscan as (m' & _ & Hx' & Hy' & Hy'df & Hbefore').
    pose proof (lookup_lt_Some _ _ _ Hx') as Hm'.
    rewrite _get_component_input_in_loop_mod in Hy' by done.
    destruct (Nat.lt_trichotomy m' m) as [Hlt|[->|Hgt]].
    + rewrite (Hbefore m' y' Hlt Hy') in Hy'df. done.
    + congruence.
    + destruct (Hbefore' m) as (z & Hz & Hzdf); [lia|].
      rewrite _get_component_input_in_loop_mod in Hz by done. congruence.
  - destruct (Hscan m) as (z & Hz & Hzdf); [lia|].
    rewrite _get_component_input_in_loop_mod in Hz by done. congruence.
Qed.
End scan.

Lemma scan_loop_all_df df (sys_loop : list nat) :
  Forall (λ x, df x = true) sys_loop →
  scan_loop df sys_loop sys_loop 0 = None.
Proof.
  intros Hall.
  pose proof (scan_loop_spec df sys_loop sys_loop 0 eq_refl) as Hscan.
  destruct (scan_loop df sys_loop sys_loop 0) as [[x y]|]; [|done].
  destruct Hscan as (m & _ & Hx & Hy & Hydf & _).
  rewrite _get_component_input_in_loop_mod in Hy
    by by eapply lookup_lt_Some.
  apply list_elem_of_lookup_2 in Hy.
  rewrite Forall_forall in Hall. rewrite (Hall y Hy) in Hydf. done.
Qed.

(** X3.  Let the trail be [t1 ++ c :: t2] with [c] not in [t1]: the loop
    is [c :: t2], and the successor of a component of the loop is the next
    one, the first one after the last.  When every component of the loop
    is direct feedthrough, [_get_loop_components] raises the exception of
    an algebraic loop.  Otherwise it returns the first component of the
    loop whose successor is not direct feedthrough, with that successor.
    The organizer is not changed. *)
Theorem _get_loop_components_first df c o t1 t2 :
  sys_trail o = t1 ++ c :: t2 → c ∉ t1 →
  let sys_loop := c :: t2 in
  let next j := sys_loop !! (S j mod List.length sys_loop) in
  (Forall (λ x, df x = true) sys_loop →
   _get_loop_components df c o = Raise AlgebraicLoopError o) ∧
  (∀ m x y,
     sys_loop !! m = Some x → next m = Some y → df y = false →
     (∀ j z, j < m → next j = Some z → df z = true) →
     _get_loop_components df c o = Ret (x, y) o).
Proof.
  intros Htrail Hc sys_loop next. unfold _get_loop_components. run.
  rewrite Htrail, (list_index_first c t1 t2 Hc), drop_app_length.
  fold sys_loop. split.
  - intros Hall. by rewrite (scan_loop_all_df df sys_loop Hall).
  - intros m x y Hx Hy Hydf Hbefore.
    by rewrite (scan_loop_first df sys_loop m x y Hx Hy Hydf Hbefore).
Qed.

Lemma _get_loop_components_first_witness :
  let o := Organizer ring [0; 2; 1] [] ∅ in
  (Forall (λ x, ring_feedthrough x = true) [0; 2; 1] →
   _get_loop_components ring_feedthrough 0 o = Raise AlgebraicLoopError o) ∧
  (∀ m x y,
     [0; 2; 1] !! m = Some x →
     [0; 2; 1] !! (S m mod List.length [0; 2; 1]) = Some y →
     ring_feedthrough y = false →
     (∀ j z, j < m →
             [0; 2; 1] !! (S j mod List.length [0; 2; 1]) = Some z →
             ring_feedthrough z = true) →
     _get_loop_components ring_feedthrough 0 o = Ret (x, y) o).
Proof.
  apply (_get_loop_components_first ring_feedthrough 0
           (Organizer ring [0; 2; 1] [] ∅) [] [2; 1]).
  - reflexivity.
  - apply not_elem_of_nil.
Defined.

(** X4.  With the trail and the loop as before, let [x] be the first
    component of the loop whose successor [y] is not direct feedthrough.
    [_sever_system_loop] raises [KeyError] when [x] is no key of the
    working data and [ValueError] when [y] is not among the inputs of [x],
    and changes nothing then.  Otherwise it returns: the first occurrence
    of [y] is gone from the inputs of [x], nothing else is changed in the
    working data, which has exactly one dependency less, the trail is
    empty, and the order and the mapped components are as before. *)
Theorem _sever_system_loop_first df c o t1 t2 m x y :
  sys_trail o = t1 ++ c :: t2 → c ∉ t1 →
  let sys_loop := c :: t2 in
  let next j := sys_loop !! (S j mod List.length sys_loop) in
  sys_loop !! m = Some x → next m = Some y → df y = false →
  (∀ j z, j < m → next j = Some z → df z = true) →
  match sys_info o !! x with
  | None => _sever_system_loop df c o = Raise KeyError o
  | Some l =>
      (y ∉ l → _sever_system_loop df c o = Raise ValueError o) ∧
      (∀ l1 l2, l = l1 ++ y :: l2 → y ∉ l1 →
         let o' := Organizer (<[x := l1 ++ l2]> (sys_info o)) []
                             (ordered_comps o) (mapped o) in
         _sever_system_loop df c o = Ret tt o' ∧
         S (edge_count (sys_info o')) = edge_count (sys_info o))
  end.
Proof.
  intros Htrail Hc sys_loop next Hx Hy Hydf Hbefore.
  destruct (_get_loop_components_first df c o t1 t2 Htrail Hc) as [_ Hget].
  specialize (Hget m x y Hx Hy Hydf Hbefore).
  unfold _sever_system_loop. run. rewrite Hget.
  destruct (sys_info o !! x) as [l|] eqn:Hl; [|done]. split.
  - intros Hyl. by rewrite (list_remove_None y l Hyl).
  - intros l1 l2 -> Hyl1. rewrite (list_remove_first_app y l1 l2 Hyl1).
    split; [done|]. simpl.
    pose proof (edge_count_insert (sys_info o) x _ (l1 ++ l2) Hl) as He.
    rewrite !length_app in He. simpl in He. lia.
Qed.

Lemma _sever_system_loop_first_witness :
  let o := Organizer ring [0; 2; 1] [] ∅ in
  (2 ∉ [2] → _sever_system_loop ring_feedthrough 0 o = Raise ValueError o) ∧
  (∀ l1 l2, [2] = l1 ++ 2 :: l2 → 2 ∉ l1 →
     let o' := Organizer (<[0 := l1 ++ l2]> ring) [] [] ∅ in
     _sever_system_loop ring_feedthrough 0 o = Ret tt o' ∧
     S (edge_count (sys_info o')) = edge_count ring).
Proof.
  apply (_sever_system_loop_first ring_feedthrough 0
           (Organizer ring [0; 2; 1] [] ∅) [] [2; 1] 0 0 2).
  - reflexivity.
  - apply not_elem_of_nil.
  - reflexivity.
  - reflexivity.
  - reflexivity.
  - intros j z Hj. lia.
Defined.

(** *** Diagrams without feedback *)




Section acyclic.
Variable df : nat → bool.
Variable G : gmap nat (list nat).
Hypothesis Hclosed : closed G.
Hypothesis Hacyclic : ∀ x, ¬ tc (depends G) x x.



End acyclic.





(** *** Dependencies that are no keys *)

Section traversal_fails.
Variable df : nat → bool.
Variable G : gmap nat (list nat).

Lemma sound_or_missing_mono r (P Q : organizer → Prop) :
  (∀ o, P o → Q o) → sound_or_missing df G r P → sound_or_missing df G r Q.
Proof. destruct r; simpl; auto. Qed.

Lemma sound_or_missing_sound r (P : organizer → Prop) :
  sound df G r P → sound_or_missing df G r P.
Proof. destruct r; simpl; auto. Qed.

Lemma traversal_sound_or_missing fuel :
  (∀ A c o,
     invariant df G A o → c ∉ mapped o →
     c ∉ sys_trail o →
     (sys_trail o = [] ∨
      ∃ t p, sys_trail o = t ++ [p] ∧ c ∈ inputs_of (sys_info o) p) →
     sound_or_missing df G (build_system_order df fuel c o)
       (λ o', step_post df G A c o o' ∧
              (sys_trail o' = sys_trail o ∨ sys_trail o' = []))) ∧
  (∀ A c idx o,
     invariant df G A o →
     (sys_trail o = [] ∨ ∃ t, sys_trail o = t ++ [c]) →
     (c ∈ mapped o ∨
      ∀ j y, j < idx → inputs_of (sys_info o) c !! j = Some y →
             y ∈ mapped o) →
     sound_or_missing df G (for_inputs df fuel c idx o)
       (λ o', step_post df G A c o o' ∧
              (sys_trail o' = [] ∨ sys_trail o = sys_trail o' ++ [c]))).
Proof.
  induction fuel as [|fuel [IHbuild IHloop]]; [done|]. split.
  - (* a call *)
    intros A c o Hinv Hcm Hct Hlast. rewrite build_system_order_unfold.
    destruct (sys_info o !! c) as [l|]; [|by left].
    eapply sound_or_missing_mono; cycle 1.
    { apply (IHloop (A ∪ {[c]}) c 0 (set_sys_trail (λ t, t ++ [c]) o)).
      - by apply invariant_push.
      - right. by exists (sys_trail o).
      - right. intros j y Hj. lia. }
    simpl. intros o' [(Hinv' & Hcm' & Hmono & Hlists & Hreach) Htrail].
    split.
    + split_and!; [|done..]. by eapply invariant_returned.
    + destruct Htrail as [?|Heq]; [by right|left].
      by apply app_inj_tail in Heq as [? _].
  - (* an iteration *)
    intros A c idx o Hinv Htrail HL. rewrite for_inputs_unfold.
    destruct (inputs_of (sys_info o) c !! idx) as [ic|] eqn:Hidx; cycle 1.
    { (* the end of the loop *)
      pose proof (finish_component_spec c o) as Hfin.
      destruct (decide (c ∈ mapped o)) as [Hcm|Hcm].
      - rewrite Hfin. simpl. split; [by apply step_post_refl|]. left.
        destruct Htrail as [?|[t Ht]]; [done|].
        destruct (inv_trail_unmapped _ _ _ _ Hinv c); [|done].
        rewrite Ht. set_solver.
      - clear Hfin. destruct HL as [?|HL]; [done|].
        destruct (invariant_finish df G A c o Hinv Hcm Htrail)
          as (o' & -> & Hinv' & Hinfo & Hmapped & Htrail').
        { intros y [j Hj]%list_elem_of_lookup. apply (HL j y); [|done].
          apply lookup_ge_None in Hidx. apply lookup_lt_Some in Hj. lia. }
        simpl. split; [|done]. split_and!; [done|set_solver|set_solver| |].
        + intros x. left. by rewrite Hinfo.
        + intros x. rewrite Hmapped.
          intros [->%elem_of_singleton|?]%elem_of_union; [|by left].
          right. apply rtc_refl. }
    assert (ic ∈ inputs_of (sys_info o) c) as Hic
      by by eapply list_elem_of_lookup_2.
    assert (depends G c ic) as Hdep by by apply (inv_sub _ _ _ _ Hinv).
    (* the severance, if any *)
    remember (if decide (ic ∈ sys_trail o)
              then _sever_system_loop df ic o else Ret tt o) as r1 eqn:Hr1.
    assert (sound_or_missing df G r1 (λ o1,
              invariant df G A o1 ∧ mapped o1 = mapped o ∧
              ic ∉ sys_trail o1 ∧ (sys_trail o1 = [] ∨ o1 = o) ∧
              ∃ x, rtc (hard_edge df G) ic x ∧
                   ∀ z, z ≠ x →
                        inputs_of (sys_info o1) z
                        = inputs_of (sys_info o) z)) as H1.
    { subst r1. destruct (decide (ic ∈ sys_trail o)) as [Hict|Hict].
      - destruct Htrail as [Hnil|[t Ht]].
        { rewrite Hnil in Hict. by apply elem_of_nil in Hict. }
        pose proof (_sever_system_loop_sound df G A t c ic o Hinv Ht Hict Hic)
          as Hs.
        destruct (_sever_system_loop df ic o) as [u o1|e' s|];
          [|by right|done].
        simpl. destruct Hs as (Hinv1 & Hnil & Hmapped & Hx).
        split_and!; [done|done| |by left|done].
        rewrite Hnil. apply not_elem_of_nil.
      - simpl. split_and!; [done|done|done|by right|].
        exists ic. split; [apply rtc_refl|done]. }
    clear Hr1. destruct r1 as [u1 o1|e1 s1|]; [|exact H1|exact I].
    simpl in H1.
    destruct H1 as (Hinv1 & Hmapped1 & Hict1 & Htrail1 & x & Hhard & Hsame).
    (* the recursive call, if any *)
    remember (if decide (ic ∈ mapped o1) then Ret tt o1
              else build_system_order df fuel ic o1) as r2 eqn:Hr2.
    assert (sound_or_missing df G r2 (λ o2,
              step_post df G A ic o1 o2 ∧
              (sys_trail o2 = sys_trail o1 ∨ sys_trail o2 = []))) as H2.
    { subst r2. destruct (decide (ic ∈ mapped o1)) as [Hicm|Hicm].
      - simpl. split; [by apply step_post_refl|by left].
      - apply IHbuild; [done|done|done|].
        destruct Htrail1 as [?| ->]; [by left|].
        destruct Htrail as [?|[t Ht]]; [by left|right]. by exists t, c. }
    clear Hr2. destruct r2 as [u2 o2|e2 s2|]; [|exact H2|exact I].
    simpl in H2.
    destruct H2 as [(Hinv2 & Hicm2 & Hmono2 & Hlists2 & Hreach2) Htrail2].
    assert (x ∈ mapped o2) as Hxm by by eapply hard_edge_mapped.
    (* the rest of the loop *)
    eapply sound_or_missing_mono; cycle 1.
    { apply (IHloop A c (S idx) o2); [done| |].
      - destruct Htrail2 as [->|?]; [|by left].
        destruct Htrail1 as [?| ->]; [by left|done].
      - destruct (decide (c = x)) as [->|Hcx]; [by left|].
        destruct (Hlists2 c) as [Hl2|?]; [|by left].
        destruct HL as [Hcm|HL]; [left; apply Hmono2; by rewrite Hmapped1|].
        right. intros j y Hj. rewrite Hl2, Hsame by done. intros Hy.
        destruct (decide (j = idx)) as [->|Hne].
        + rewrite Hidx in Hy. by injection Hy as <-.
        + apply Hmono2. rewrite Hmapped1. apply (HL j y); [lia|done]. }
    simpl. intros o3 [(Hinv3 & Hcm3 & Hmono3 & Hlists3 & Hreach3) Htrail3].
    split.
    + split_and!; [done|done| | |].
      * rewrite <- Hmapped1. set_solver.
      * intros z. destruct (Hlists3 z) as [Hl3|?]; [|by right].
        destruct (Hlists2 z) as [Hl2|?]; [|right; by apply Hmono3].
        destruct (decide (z = x)) as [->|Hzx]; [right; by apply Hmono3|].
        left. by rewrite Hl3, Hl2, Hsame.
      * intros z Hz. destruct (Hreach3 z Hz) as [Hz2|?]; [|by right].
        destruct (Hreach2 z Hz2) as [?|Hr]; [left; by rewrite <- Hmapped1|].
        right. by eapply rtc_l.
    + destruct Htrail3 as [?|Heq3]; [by left|].
      destruct Htrail2 as [Heq2|Hnil2]; cycle 1.
      { rewrite Hnil2 in Heq3. by destruct (sys_trail o3). }
      destruct Htrail1 as [Hnil1| ->].
      { rewrite Heq2, Hnil1 in Heq3. by destruct (sys_trail o3). }
      right. by rewrite <- Heq2.
Qed.
End traversal_fails.

(** What a call maps was mapped before or is a key of the working data. *)
Lemma traversal_maps_keys df fuel :
  (∀ c o, match build_system_order df fuel c o with
          | Ret _ o' | Raise _ o' =>
              ∀ x, x ∈ mapped o' → x ∈ mapped o ∨ is_Some (sys_info o !! x)
          | OutOfFuel => True
          end) ∧
  (∀ c idx o,
     is_Some (sys_info o !! c) →
     match for_inputs df fuel c idx o with
     | Ret _ o' | Raise _ o' =>
         ∀ x, x ∈ mapped o' → x ∈ mapped o ∨ is_Some (sys_info o !! x)
     | OutOfFuel => True
     end).
Proof.
  induction fuel as [|fuel [IHb IHl]]; [done|]. split.
  - intros c o. rewrite build_system_order_unfold.
    destruct (sys_info o !! c) as [l|] eqn:Hc; [|by left].
    apply (IHl c 0 (set_sys_trail (λ t, t ++ [c]) o)). simpl.
    by rewrite Hc.
  - intros c idx o Hc. rewrite for_inputs_unfold.
    destruct (inputs_of (sys_info o) c !! idx) as [ic|].
    2:{ pose proof (finish_component_spec c o) as Hfin.
        destruct (decide (c ∈ mapped o)); rewrite Hfin; simpl; [by left|].
        intros x [->%elem_of_singleton|?]%elem_of_union; auto. }
    assert (match (if decide (ic ∈ sys_trail o)
                   then _sever_system_loop df ic o else Ret tt o) with
            | Ret _ o' | Raise _ o' =>
                mapped o' = mapped o ∧ dom (sys_info o') = dom (sys_info o)
            | OutOfFuel => True
            end) as H1.
    { destruct (decide (ic ∈ sys_trail o)); [|done].
      pose proof (_sever_system_loop_changes df ic o) as Hch.
      pose proof (_sever_system_loop_spec df ic o) as Hs.
      destruct (_sever_system_loop df ic o) as [u o'|e' o'|]; [| |done].
      - split; [|apply Hch].
        by destruct Hs as (? & ? & ? & ? & ? & _ & _ & _ & _ & ->).
      - by destruct Hs as [-> _]. }
    destruct (if decide (ic ∈ sys_trail o)
              then _sever_system_loop df ic o else Ret tt o)
      as [u1 o1|e1 o1|]; [| |done]; destruct H1 as [Hm1 Hd1].
    2:{ intros x. rewrite Hm1. by left. }
    assert (∀ x, is_Some (sys_info o1 !! x) ↔ is_Some (sys_info o !! x))
      as Hk1.
    { intros x. by rewrite <- !elem_of_dom, Hd1. }
    assert (match (if decide (ic ∈ mapped o1) then Ret tt o1
                   else build_system_order df fuel ic o1) with
            | Ret _ o' | Raise _ o' =>
                (∀ x, x ∈ mapped o' →
                      x ∈ mapped o1 ∨ is_Some (sys_info o1 !! x)) ∧
                dom (sys_info o') = dom (sys_info o1)
            | OutOfFuel => True
            end) as H2.
    { destruct (decide (ic ∈ mapped o1)); [split; [by left|done]|].
      specialize (IHb ic o1).
      pose proof (proj1 (traversal_changes df fuel) ic o1) as Hch.
      destruct (build_system_order df fuel ic o1) as [u o'|e' o'|];
        [| |done]; (split; [done|apply Hch]). }
    destruct (if decide (ic ∈ mapped o1) then Ret tt o1
              else build_system_order df fuel ic o1)
      as [u2 o2|e2 o2|]; [| |done]; destruct H2 as [Hm2 Hd2].
    2:{ intros x Hx. destruct (Hm2 x Hx) as [?|?];
          [left; by rewrite <- Hm1|right; by apply Hk1]. }
    assert (∀ x, is_Some (sys_info o2 !! x) ↔ is_Some (sys_info o !! x))
      as Hk2.
    { intros x. by rewrite <- !elem_of_dom, Hd2, Hd1. }
    specialize (IHl c (S idx) o2 (proj2 (Hk2 c) Hc)).
    destruct (for_inputs df fuel c (S idx) o2) as [u3 o3|e3 o3|]; [| |done];
      (intros x Hx; destruct (IHl x Hx) as [Hx2|?]; [|right; by apply Hk2];
       destruct (Hm2 x Hx2) as [?|?];
         [left; by rewrite <- Hm1|right; by apply Hk1]).
Qed.

Section missing.
Variable df : nat → bool.
Variable G : gmap nat (list nat).

Lemma resolving_state o :
  resolving df G o →
  invariant df G ∅ o ∧ sys_trail o = [] ∧
  ∀ x, x ∈ mapped o → is_Some (G !! x).
Proof.
  induction 1 as [|o c fuel o' _ (IHinv & IHt & IHk) Hc Hcm Hrun].
  { split_and!; [apply fresh_invariant|done|]. simpl. set_solver. }
  pose proof (proj1 (traversal_sound_or_missing df G fuel) ∅ c o IHinv Hcm)
    as Hs.
  pose proof (proj1 (traversal_maps_keys df fuel) c o) as Hk.
  rewrite Hrun in Hs, Hk. rewrite IHt in Hs. simpl in Hs.
  destruct Hs as [(Hinv' & _) Ht]; [apply not_elem_of_nil|by left|].
  split_and!; [done|by destruct Ht|].
  intros x Hx. destruct (Hk x Hx) as [?|?]; [by apply IHk|].
  by apply (inv_keys _ _ _ _ IHinv).
Qed.
End missing.

(** X6.  When the component of a call reaches, along the dependencies of
    the diagram, a component that is no key of the working data, the call
    does not return: it ends with an exception, which is [KeyError] unless
    it is the exception of an algebraic loop that the diagram has.  This
    holds in the initial state and after earlier calls have returned. *)
Theorem build_system_order_missing_key df G o c x :
  resolving df G o → reachable G c x → G !! x = None →
  ∃ n e o',
    (∀ fuel, n ≤ fuel → build_system_order df fuel c o = Raise e o') ∧
    (e = KeyError ∨
     (e = AlgebraicLoopError ∧ ∃ y, algebraic_loop df G y)).
Proof.
  intros (Hinv & Ht & Hk)%resolving_state Hcx Hx.
  assert (∀ o', invariant df G ∅ o' → c ∈ mapped o' →
                (∀ y, y ∈ mapped o' →
                      y ∈ mapped o ∨ is_Some (sys_info o !! y)) → False)
    as Hno.
  { intros o' Hinv' Hcm' Hk'.
    pose proof (mapped_closed df G o' c x Hinv' Hcx Hcm') as Hxm.
    assert (is_Some (G !! x)) as [? ?]; [|congruence].
    destruct (Hk' x Hxm) as [?|?]; [by apply Hk|].
    by apply (inv_keys _ _ _ _ Hinv). }
  assert (c ∉ mapped o) as Hcm.
  { intros Hcm. apply (Hno o Hinv Hcm). by left. }
  destruct (build_system_order_ends df c o) as (n & r & Hrun & Hr).
  pose proof (proj1 (traversal_sound_or_missing df G n) ∅ c o Hinv Hcm)
    as Hs.
  pose proof (proj1 (traversal_maps_keys df n) c o) as Hk'.
  rewrite (Hrun n) in Hs, Hk' by done. rewrite Ht in Hs.
  destruct r as [u o'|e' o'|]; [| |done]; simpl in Hs.
  - exfalso. destruct Hs as [(Hinv' & Hcm' & _) _];
      [apply not_elem_of_nil|by left|]. by apply (Hno o').
  - exists n, e', o'. split; [done|].
    apply Hs; [apply not_elem_of_nil|by left].
Qed.

Lemma build_system_order_missing_key_witness :
  ∃ n e o',
    (∀ fuel, n ≤ fuel →
       build_system_order (λ _, true) fuel 0 (fresh {[ 0 := [1] ]})
       = Raise e o') ∧
    (e = KeyError ∨
     (e = AlgebraicLoopError ∧
      ∃ y, algebraic_loop (λ _, true) {[ 0 := [1] ]} y)).
Proof.
  apply (build_system_order_missing_key (λ _, true) {[ 0 := [1] ]}
           (fresh {[ 0 := [1] ]}) 0 1).
  - apply resolving_fresh.
  - apply rtc_once. unfold depends.
    change (inputs_of {[ 0 := [1] ]} 0) with [1]. set_solver.
  - reflexivity.
Defined.

(** ** Facts about the assembly of the imports *)

Import Builder.

Lemma _create_imports_loop_acc lib_deps : ∀ s : gset string,
  ∃ out, ∀ imports,
    _create_imports_loop lib_deps imports s
    = Ret (imports +:+ out) (s ∪ list_to_set lib_deps.*1).
Proof.
  induction lib_deps as [|[lib alt] rest IH]; intros s; simpl.
  { exists EmptyString. intros imports. rewrite append_nil_r.
    by rewrite (right_id_L ∅ (∪)). }
  run. destruct (decide (lib ∈ s)) as [Hin|Hin].
  - destruct (IH s) as (out & H). exists out. intros imports. rewrite H.
    f_equal. set_solver.
  - destruct (IH ({[lib]} ∪ s)) as (out & H).
    exists (import_line (lib, alt) +:+ out). intros imports. rewrite H.
    f_equal; [|set_solver].
    unfold import_line. destruct alt as [alt|]; simpl;
      by rewrite !append_assoc.
Qed.

Lemma _create_imports_loop_known lib_deps imports (s : gset string) :
  (∀ lib, lib ∈ lib_deps.*1 → lib ∈ s) →
  _create_imports_loop lib_deps imports s = Ret imports s.
Proof.
  induction lib_deps as [|[lib alt] rest IH]; intros Hs; simpl; [done|].
  run. rewrite decide_True by (apply Hs; simpl; by left).
  apply IH. intros lib' Hlib'. apply Hs. simpl. by right.
Qed.

Lemma _create_imports_loop_new lib_deps : ∀ imports (s : gset string),
  NoDup lib_deps.*1 → (∀ lib, lib ∈ lib_deps.*1 → lib ∉ s) →
  ∃ s', _create_imports_loop lib_deps imports s
        = Ret (imports +:+ concat_strings (import_line <$> lib_deps)) s'.
Proof.
  induction lib_deps as [|[lib alt] rest IH]; intros imports s Hnd Hs; simpl.
  { exists s. by rewrite append_nil_r. }
  run. rewrite decide_False by (apply Hs; simpl; by left).
  apply NoDup_cons in Hnd as [Hlib Hnd].
  edestruct (IH ((match alt with
                  | Some alt0 => (imports +:+ "import " +:+ lib)
                                 +:+ " as " +:+ alt0
                  | None => imports +:+ "import " +:+ lib
                  end) +:+ newline) ({[lib]} ∪ s) Hnd) as [s' Hrun].
  { intros lib' Hlib' [->%elem_of_singleton|Hin]%elem_of_union; [done|].
    apply (Hs lib'); [simpl; by right|done]. }
  exists s'. rewrite Hrun. f_equal.
  unfold import_line. destruct alt as [alt|]; simpl;
    by rewrite !append_assoc.
Qed.

(** X7.  [_create_imports] puts every library of the diagram into
    [all_imports] and returns; called again with the set it has left, it
    returns the empty text: no library is imported twice.  When none of
    the libraries was in the set, the text is one line for each of them,
    in their order. *)
Theorem _create_imports_once lib_deps (all_imports : gset string) :
  let all_imports' := all_imports ∪ list_to_set lib_deps.*1 in
  ∃ imports,
    _create_imports lib_deps all_imports = Ret imports all_imports' ∧
    _create_imports lib_deps all_imports' = Ret EmptyString all_imports' ∧
    (NoDup lib_deps.*1 → (∀ lib, lib ∈ lib_deps.*1 → lib ∉ all_imports) →
     imports = concat_strings (import_line <$> lib_deps)).
Proof.
  intros all_imports'. unfold _create_imports.
  destruct (_create_imports_loop_acc lib_deps all_imports) as (out & Hrun).
  exists out. split_and!.
  - by rewrite Hrun.
  - apply _create_imports_loop_known. intros lib Hlib.
    apply elem_of_union_r. by apply elem_of_list_to_set.
  - intros Hnd Hnew.
    destruct (_create_imports_loop_new lib_deps EmptyString all_imports
                Hnd Hnew) as (s' & Hrun').
    rewrite (Hrun EmptyString), !append_nil in Hrun'.
    by injection Hrun' as -> _.
Qed.

Lemma _create_imports_loop_app l1 l2 imports (s : gset string) :
  _create_imports_loop (l1 ++ l2) imports s
  = match _create_imports_loop l1 imports s with
    | Ret imports' s' => _create_imports_loop l2 imports' s'
    | Raise e s' => Raise e s'
    | OutOfFuel => OutOfFuel
    end.
Proof.
  revert imports s. induction l1 as [|[lib alt] l1 IH]; intros imports s;
    simpl; [done|].
  run. destruct (decide (lib ∈ s)); apply IH.
Qed.

Section code_string.
Variable diagram : Type.
Variable lib_deps : diagram → list (string * option string).
Variable create_diagram_code : diagram → string.

Lemma _create_code_string_loop_spec diagrams :
  ∀ code imports (s : gset string),
  ∃ out s',
    (∀ acc, _create_imports_loop (diagrams ≫= lib_deps) acc s
            = Ret (acc +:+ out) s') ∧
    _create_code_string_loop diagram lib_deps create_diagram_code
      diagrams code imports s
    = Ret ((imports +:+ out)
           +:+ (code +:+ concat_strings (create_diagram_code <$> diagrams)))
          s'.
Proof.
  induction diagrams as [|d rest IH]; intros code imports s; simpl.
  { exists EmptyString, s. split; [intros acc|]; by rewrite !append_nil_r. }
  run. unfold _create_imports.
  destruct (_create_imports_loop_acc (lib_deps d) s) as (out1 & H1).
  rewrite (H1 EmptyString). rewrite append_nil.
  destruct (IH (code +:+ create_diagram_code d) (imports +:+ out1)
               (s ∪ list_to_set (lib_deps d).*1)) as (out2 & s' & H2 & H3).
  exists (out1 +:+ out2), s'. split.
  - intros acc. rewrite _create_imports_loop_app, H1, H2.
    by rewrite append_assoc.
  - rewrite H3. by rewrite !append_assoc.
Qed.

(** X8.  The script of [_create_code_string] is the imports followed by
    the code of the diagrams in their order; the imports are what
    [_create_imports] returns for the libraries of all the diagrams taken
    together, so a library that several diagrams use is imported once. *)
Theorem _create_code_string_spec diagrams :
  ∃ imports all_imports,
    _create_imports (diagrams ≫= lib_deps) ∅ = Ret imports all_imports ∧
    _create_code_string diagram lib_deps create_diagram_code diagrams
    = imports +:+ concat_strings (create_diagram_code <$> diagrams).
Proof.
  destruct (_create_code_string_loop_spec diagrams EmptyString EmptyString ∅)
    as (out & s' & H1 & H2).
  exists out, s'. unfold _create_code_string, _create_imports.
  rewrite (H1 EmptyString), H2. by rewrite !append_nil.
Qed.
End code_string.

(** ** Further facts about the name registry *)

Local Open Scope Z_scope.

(** *** Names and their index *)

Lemma is_nonzero_digit_is_digit c :
  is_nonzero_digit c = true → is_digit c = true.
Proof.
  unfold is_nonzero_digit, is_digit.
  intros [H1 H2]%andb_true_iff. apply andb_true_iff. split; [|done].
  apply N.leb_le in H1. apply N.leb_le. lia.
Qed.

Lemma index_groups_digits n d v :
  int_digits n d = Some v → index_groups (in_digits n) d = Some v.
Proof.
  revert n. induction d as [|c d IH]; intros n; simpl; [done|].
  destruct (is_digit c); [apply IH|done].
Qed.

Lemma index_groups_numeral k :
  1 ≤ k → index_groups want_underscore (String "_" (str k)) = Some k.
Proof.
  intros Hk. destruct (str_numeral k Hk) as [Hnz Hint].
  simpl.
  destruct (str k) as [|c d]; [done|]. simpl in *. rewrite Hnz.
  rewrite (is_nonzero_digit_is_digit c Hnz) in Hint.
  by apply index_groups_digits.
Qed.

Lemma index_suffix_cons c s :
  index_suffix (String c s)
  = match index_groups want_underscore (String c s) with
    | Some n => Some (EmptyString, n)
    | None =>
        match index_suffix s with
        | Some (b, n) => Some (String c b, n)
        | None => None
        end
    end.
Proof. done. Qed.

Lemma index_groups_cons q c s :
  index_groups q (String c s)
  = match q with
    | want_underscore =>
        if decide (c = "_"%char) then index_groups want_nonzero s else None
    | want_nonzero =>
        if is_nonzero_digit c
        then index_groups (in_digits (digit_value c)) s else None
    | in_digits n =>
        if is_digit c
        then index_groups (in_digits (10 * n + digit_value c)) s
        else if decide (c = "_"%char)
             then index_groups want_nonzero s else None
    end.
Proof. done. Qed.

(** A match that goes on with a further group has read whole groups. *)
Lemma index_groups_before_group s : ∀ q t,
  s ≠ EmptyString →
  index_groups q (s +:+ String "_" t) ≠ None → index_groups q s ≠ None.
Proof.
  induction s as [|c s IH]; intros q t Hne H; [done|].
  rewrite append_cons in H.
  assert (∀ q', q' ≠ want_underscore →
                index_groups q' (s +:+ String "_" t) ≠ None →
                index_groups q' s ≠ None) as Hnext.
  { intros q' Hq' H'. destruct s as [|c' s'].
    - rewrite append_nil in H'. by destruct q'.
    - by eapply IH. }
  simpl in H |- *. destruct q.
  - destruct (decide (c = "_"%char)); [|done]. by apply Hnext.
  - destruct (is_nonzero_digit c); [|done]. by apply Hnext.
  - destruct (is_digit c); [by apply Hnext|].
    destruct (decide (c = "_"%char)); [|done]. by apply Hnext.
Qed.

Lemma index_suffix_generated b d k :
  index_suffix b = None →
  index_groups want_underscore (String "_" d) = Some k →
  index_suffix (b +:+ String "_" d) = Some (b, k).
Proof.
  intros Hb Hd. induction b as [|c b IH].
  - rewrite append_nil, index_suffix_cons. by rewrite Hd.
  - rewrite append_cons. rewrite index_suffix_cons in Hb.
    destruct (index_groups want_underscore (String c b)) eqn:Hcb; [done|].
    destruct (index_suffix b) as [[? ?]|] eqn:Hb'; [done|].
    specialize (IH eq_refl).
    assert (index_groups want_underscore (String c (b +:+ String "_" d))
            = None) as Hnone.
    { destruct (index_groups want_underscore
                  (String c (b +:+ String "_" d))) eqn:H; [|done].
      exfalso.
      apply (index_groups_before_group (String c b) want_underscore d);
        [done| |done].
      rewrite append_cons. by rewrite H. }
    by rewrite index_suffix_cons, Hnone, IH.
Qed.

(** A name that ends in a newline has no index suffix behind it. *)
Lemma strip_final_newline_cases name :
  strip_final_newline name = name ∨
  ((∀ q, index_groups q name = None) ∧ index_suffix name = None).
Proof.
  induction name as [|c s IH]; [by left|].
  destruct s as [|c' s'].
  - simpl. destruct (decide (c = "010"%char)) as [->|]; [right|by left].
    split; [by intros []|done].
  - destruct IH as [IH|[IHq IHs]].
    + left. change (strip_final_newline (String c (String c' s')))
        with (String c (strip_final_newline (String c' s'))).
      by rewrite IH.
    + right. assert (∀ q, index_groups q (String c (String c' s')) = None)
        as Hq.
      { intros q. rewrite index_groups_cons.
        destruct q; repeat case_match; auto. }
      split; [done|]. by rewrite index_suffix_cons, Hq, IHs.
Qed.

Lemma re_search_index_None name :
  re_search_index name = None → index_suffix name = None.
Proof.
  unfold re_search_index. intros H.
  destruct (strip_final_newline_cases name) as [Heq|[_ ?]]; [|done].
  by rewrite Heq in H.
Qed.

Lemma strip_final_newline_app s t :
  t ≠ EmptyString →
  strip_final_newline (s +:+ t) = s +:+ strip_final_newline t.
Proof.
  intros Ht. induction s as [|c s IH]; [done|].
  rewrite !append_cons.
  destruct (s +:+ t) as [|c' r] eqn:Hst.
  { destruct s; [by rewrite append_nil in Hst|by rewrite append_cons in Hst]. }
  change (strip_final_newline (String c (String c' r)))
    with (String c (strip_final_newline (String c' r))).
  by rewrite IH.
Qed.

Lemma strip_final_newline_digits acc d v :
  int_digits acc d = Some v → strip_final_newline d = d.
Proof.
  revert acc. induction d as [|c d IH]; intros acc; simpl; [done|].
  destruct (is_digit c) eqn:Hc; [|done]. intros Hd.
  destruct d as [|c' d']; [|by rewrite (IH _ Hd)].
  rewrite decide_False; [done|]. intros ->. done.
Qed.

Lemma strip_final_newline_generated name k :
  1 ≤ k → strip_final_newline (generated_name name k) = generated_name name k.
Proof.
  intros Hk. unfold generated_name.
  rewrite strip_final_newline_app by done. f_equal.
  destruct (str_numeral k Hk) as [Hnz Hint].
  destruct (str k) as [|c d] eqn:Hstr; [done|].
  change ("_" +:+ String c d) with (String "_" (String c d)).
  change (strip_final_newline (String "_" (String c d)))
    with (String "_" (strip_final_newline (String c d))).
  f_equal. by eapply (strip_final_newline_digits 0).
Qed.

Lemma re_search_index_generated name k :
  re_search_index name = None → 1 ≤ k →
  re_search_index (generated_name name k) = Some (name, k).
Proof.
  intros Hname Hk. unfold re_search_index.
  rewrite strip_final_newline_generated by done.
  apply index_suffix_generated; [by apply re_search_index_None|].
  by apply index_groups_numeral.
Qed.

(** X9.  A name without an index suffix, an underscore and the numeral of
    [k ≥ 1] make a name whose attributes are that name and [k]: the
    names that [register_name] generates are read back as they were
    made. *)
Theorem get_name_attrs_generated name k :
  re_search_index name = None → 1 ≤ k →
  get_name_attrs (name +:+ "_" +:+ str k) = (name, k) ∧
  get_name_attrs name = (name, 0).
Proof.
  intros Hname Hk. unfold get_name_attrs.
  change (name +:+ "_" +:+ str k) with (generated_name name k).
  rewrite (re_search_index_generated name k Hname Hk). by rewrite Hname.
Qed.

Lemma get_name_attrs_generated_witness :
  get_name_attrs ("gain" +:+ "_" +:+ str 12) = ("gain", 12) ∧
  get_name_attrs "gain" = ("gain", 0).
Proof.
  apply (get_name_attrs_generated "gain" 12); [reflexivity|lia].
Defined.

(** *** Registered names *)

Lemma is_name_registered_key name (reg : gmap string Z) :
  is_Some (reg !! name) → is_name_registered name reg = Ret true reg.
Proof. intros H. unfold is_name_registered. run. by rewrite decide_True. Qed.

Lemma is_name_registered_generated name k (reg : gmap string Z) cnt :
  re_search_index name = None → 1 ≤ k →
  reg !! generated_name name k = None → reg !! name = Some cnt →
  is_name_registered (generated_name name k) reg
  = Ret (bool_decide (k < cnt)) reg.
Proof.
  intros Hname Hk Hgen Hcnt. unfold is_name_registered. run.
  rewrite decide_False by (rewrite Hgen; by intros [? ?]).
  rewrite (re_search_index_generated name k Hname Hk).
  unfold _is_implicitly_registered, get_name_attrs. run.
  by rewrite (re_search_index_generated name k Hname Hk), Hcnt.
Qed.

(** X10.  For a name without an index suffix and a registry whose counts
    are at least 1, [register_name] returns a name that was not
    registered before the call and is registered after it. *)
Theorem register_name_fresh name (reg : gmap string Z) :
  re_search_index name = None → positive_counts reg →
  ∃ n : nat, ∀ fuel : nat, (n < fuel)%nat →
    ∃ new_name reg',
      register_name fuel name reg = Ret new_name reg' ∧
      is_name_registered new_name reg = Ret false reg ∧
      is_name_registered new_name reg' = Ret true reg'.
Proof.
  intros Hname Hpos. destruct (reg !! name) as [k|] eqn:Hk.
  - destruct (first_free_name reg name k) as (n & Hused & Hfree).
    exists n. intros fuel Hfuel.
    destruct (register_name_loop_spec n name reg k fuel Hk Hused Hfree Hfuel)
      as (reg' & Hrun & Hcnt & _ & Hother).
    exists (generated_name name (k + Z.of_nat n)), reg'.
    pose proof (Hpos name k Hk) as Hk1.
    assert (reg' !! generated_name name (k + Z.of_nat n) = None) as Hfree'.
    { rewrite Hother; [done|apply generated_name_ne|].
      intros j Hj Heq%generated_name_inj. lia. }
    split_and!.
    + unfold register_name. run. by rewrite decide_True by by rewrite Hk.
    + rewrite (is_name_registered_generated name _ reg k) by (done || lia).
      by rewrite bool_decide_eq_false_2 by lia.
    + rewrite (is_name_registered_generated name _ reg' (k + Z.of_nat n + 1))
        by (done || lia).
      by rewrite bool_decide_eq_true_2 by lia.
  - exists 0%nat. intros fuel _. exists name, (<[name := 1]> reg).
    split_and!.
    + unfold register_name. run.
      by rewrite decide_False by (rewrite Hk; by intros [? ?]).
    + unfold is_name_registered. run.
      rewrite decide_False by (rewrite Hk; by intros [? ?]).
      by rewrite Hname.
    + apply is_name_registered_key. by rewrite lookup_insert_eq.
Qed.

Lemma register_name_fresh_witness :
  ∃ n : nat, ∀ fuel : nat, (n < fuel)%nat →
    ∃ new_name reg',
      register_name fuel "gain" {[ "gain" := 2 ]} = Ret new_name reg' ∧
      is_name_registered new_name {[ "gain" := 2 ]}
      = Ret false {[ "gain" := 2 ]} ∧
      is_name_registered new_name reg' = Ret true reg'.
Proof.
  apply (register_name_fresh "gain" {[ "gain" := 2 ]}); [reflexivity|].
  intros key cnt [<- <-]%lookup_singleton_Some. lia.
Defined.

(** X11.  For a name without an index suffix whose registration does not
    collide, in a registry whose counts are at least 1: unregistering the
    name that [register_name] returned gives back the registry as it was
    before the registration. *)
Theorem register_then_unregister_returned name (reg : gmap string Z) fuel :
  re_search_index name = None → positive_counts reg →
  collides reg name = false → (0 < fuel)%nat →
  ∃ new_name reg',
    register_name fuel name reg = Ret new_name reg' ∧
    unregister_name new_name reg' = Ret tt reg.
Proof.
  intros Hname Hpos Hcol Hfuel.
  rewrite (register_name_counted fuel name reg Hcol Hfuel).
  eexists _, _. split; [done|]. unfold counted.
  destruct (reg !! name) as [k|] eqn:Hk; simpl.
  - pose proof (Hpos name k Hk) as Hk1.
    assert (reg !! generated_name name k = None) as Hfree.
    { unfold collides in Hcol. rewrite Hk in Hcol.
      apply bool_decide_eq_false in Hcol.
      by apply eq_None_not_Some. }
    unfold unregister_name. run.
    rewrite decide_False; cycle 1.
    { rewrite lookup_insert_ne by (apply not_eq_sym, generated_name_ne).
      rewrite Hfree. by intros [? ?]. }
    rewrite (re_search_index_generated name k Hname Hk1).
    unfold get_name_attrs.
    rewrite (re_search_index_generated name k Hname Hk1).
    rewrite decide_True by by rewrite lookup_insert_eq.
    unfold _unregister_name. run. rewrite lookup_insert_eq.
    rewrite decide_False by lia. rewrite decide_True by lia.
    f_equal. rewrite insert_insert_eq.
    replace (k + 1 - 1) with k by lia. by apply insert_id.
  - unfold unregister_name. run.
    rewrite decide_True by by rewrite lookup_insert_eq.
    unfold _unregister_name. run. rewrite lookup_insert_eq.
    rewrite decide_True by done. f_equal.
    rewrite delete_insert_eq. by apply delete_id.
Qed.

Lemma register_then_unregister_returned_witness :
  ∃ new_name reg',
    register_name 1 "gain" {[ "gain" := 2 ]} = Ret new_name reg' ∧
    unregister_name new_name reg' = Ret tt {[ "gain" := 2 ]}.
Proof.
  apply (register_then_unregister_returned "gain" {[ "gain" := 2 ]} 1).
  - reflexivity.
  - intros key cnt [<- <-]%lookup_singleton_Some. lia.
  - reflexivity.
  - lia.
Defined.

(** *** Unregistering *)

Lemma _unregister_name_alter key (reg : gmap string Z) :
  is_Some (reg !! key) →
  _unregister_name key reg = Ret tt (partial_alter unregistered key reg).
Proof.
  intros Hkey.
  destruct (_unregister_name_present key reg Hkey) as (reg' & -> & Hk & Ho).
  f_equal. apply map_eq. intros key'.
  destruct (decide (key' = key)) as [->|Hne].
  - by rewrite lookup_partial_alter_eq.
  - rewrite lookup_partial_alter_ne by done. by apply Ho.
Qed.

Lemma partial_alter_unregistered_None key (reg : gmap string Z) :
  reg !! key = None → partial_alter unregistered key reg = reg.
Proof.
  intros Hkey. apply map_eq. intros key'.
  destruct (decide (key' = key)) as [->|Hne].
  - by rewrite lookup_partial_alter_eq, Hkey.
  - by rewrite lookup_partial_alter_ne.
Qed.

(** X12.  [unregister_name] raises [NameError], and leaves the registry as
    it is, exactly for a name that is no key and has no index suffix;
    it raises nothing else.  In every other case it returns, and the only
    entry it may have changed is the one of the name when the name is a
    key, the one of its basename when it is not: a count of 1 is removed,
    a higher count is lowered by one. *)
Theorem unregister_name_outcome name (reg : gmap string Z) :
  unregister_name name reg
  = if decide (reg !! name = None ∧ re_search_index name = None)
    then Raise NameError reg
    else Ret tt (partial_alter unregistered
                   (if decide (is_Some (reg !! name)) then name
                    else (get_name_attrs name).1) reg).
Proof.
  unfold unregister_name. run.
  destruct (decide (is_Some (reg !! name))) as [Hkey|Hkey].
  - rewrite decide_False; [by apply _unregister_name_alter|].
    intros [Hnone _]. rewrite Hnone in Hkey. by destruct Hkey.
  - apply eq_None_not_Some in Hkey.
    unfold get_name_attrs.
    destruct (re_search_index name) as [[basename idx]|] eqn:Hre; simpl.
    + destruct (decide (reg !! name = None ∧ Some (basename, idx) = None))
        as [[_ Hnone]|_]; [discriminate Hnone|].
      destruct (decide (is_Some (reg !! basename))) as [Hb|Hb].
      * by apply _unregister_name_alter.
      * apply eq_None_not_Some in Hb.
        by rewrite partial_alter_unregistered_None.
    + by rewrite decide_True.
Qed.

(** X13.  [is_name_registered] and [get_name_count] agree and do not
    fail: both return and leave the registry as it is, and
    [get_name_count] returns a count exactly for the names that
    [is_name_registered] says are registered. *)
Theorem get_name_count_registered name (reg : gmap string Z) :
  ∃ (b : bool) (cnt : option Z),
    is_name_registered name reg = Ret b reg ∧
    get_name_count name reg = Ret cnt reg ∧
    (b = true ↔ is_Some cnt).
Proof.
  unfold is_name_registered, get_name_count, _is_implicitly_registered,
    get_name_attrs.
  run. destruct (reg !! name) as [k|] eqn:Hk.
  { rewrite decide_True by done. exists true, (Some k).
    split_and!; [done..|]. by split. }
  rewrite decide_False by by intros [? ?].
  destruct (re_search_index name) as [[basename idx]|] eqn:Hre; simpl.
  - destruct (reg !! basename) as [cnt|] eqn:Hb; simpl.
    + destruct (bool_decide (idx < cnt)) eqn:Hlt.
      * exists true, (Some cnt). split_and!; [done..|]. by split.
      * exists false, None. split_and!; [done..|].
        split; [done|by intros [? ?]].
    + exists false, None. split_and!; [done..|].
      split; [done|by intros [? ?]].
  - rewrite Hk. exists false, None. split_and!; [done..|].
    split; [done|by intros [? ?]].
Qed.

(** *** The counts stay positive *)

Lemma unregistered_positive (entry : option Z) cnt :
  (∀ k, entry = Some k → 1 ≤ k) → unregistered entry = Some cnt → 1 ≤ cnt.
Proof.
  intros He. unfold unregistered. destruct entry as [k|]; [|done].
  specialize (He k eq_refl). repeat case_decide; intros [= <-]; lia.
Qed.

Lemma unregister_name_positive name (reg : gmap string Z) :
  positive_counts reg →
  positive_counts (state_after (unregister_name name reg) reg).
Proof.
  intros Hpos. rewrite unregister_name_outcome.
  case_decide; [done|]. simpl. intros key cnt.
  match goal with |- context [partial_alter _ ?t _] => set (target := t) end.
  destruct (decide (key = target)) as [->|Hne].
  - rewrite lookup_partial_alter_eq. apply unregistered_positive.
    intros k. apply Hpos.
  - rewrite lookup_partial_alter_ne by done. apply Hpos.
Qed.

Lemma register_name_loop_positive fuel : ∀ name (reg : gmap string Z),
  positive_counts reg →
  match register_name_loop fuel name reg with
  | Ret _ reg' | Raise _ reg' => positive_counts reg'
  | OutOfFuel => True
  end.
Proof.
  induction fuel as [|fuel IH]; intros name reg Hpos; [done|].
  cbn [register_name_loop]. run.
  destruct (reg !! name) as [cnt|] eqn:Hcnt; [|done]. cbn beta iota.
  assert (positive_counts (<[name := cnt + 1]> reg)) as Hpos1.
  { intros key k [[<- <-]|[_ Hk]]%lookup_insert_Some; [|by eapply Hpos].
    pose proof (Hpos name cnt Hcnt). lia. }
  destruct (decide (is_Some (<[name := cnt + 1]> reg
                             !! (name +:+ "_" +:+ str cnt)))); [|done].
  pose proof (unregister_name_positive (name +:+ "_" +:+ str cnt) _ Hpos1)
    as Hpos2.
  destruct (unregister_name (name +:+ "_" +:+ str cnt)
              (<[name := cnt + 1]> reg)) as [u reg2|e' reg2|]; [|done..].
  by apply IH.
Qed.

Lemma register_name_positive fuel name (reg : gmap string Z) :
  positive_counts reg →
  match register_name fuel name reg with
  | Ret _ reg' | Raise _ reg' => positive_counts reg'
  | OutOfFuel => True
  end.
Proof.
  intros Hpos. unfold register_name. run.
  destruct (decide (is_Some (reg !! name))) as [Hkey|Hkey].
  - by apply register_name_loop_positive.
  - simpl. intros key k [[<- <-]|[_ Hk]]%lookup_insert_Some;
      [done|by eapply Hpos].
Qed.

Lemma register_custom_name_positive fuel name (reg : gmap string Z) :
  positive_counts reg →
  match register_custom_name fuel name reg with
  | Ret _ reg' | Raise _ reg' => positive_counts reg'
  | OutOfFuel => True
  end.
Proof.
  intros Hpos. unfold register_custom_name, _is_implicitly_registered. run.
  destruct (re_search_index name) as [[basename idx]|] eqn:Hre;
    [|by apply register_name_positive].
  destruct (decide (is_Some (reg !! name))); [done|].
  unfold get_name_attrs. rewrite Hre. simpl.
  destruct (reg !! basename) as [cnt|]; simpl;
    [|by apply register_name_positive].
  destruct (bool_decide (idx < cnt)); [|by apply register_name_positive].
  pose proof (register_name_positive fuel basename reg Hpos) as H.
  by destruct (register_name fuel basename reg).
Qed.

(** X14.  In the registry of a new name manager and in every registry
    that calls of [register_name], [register_custom_name] and
    [unregister_name] leave, whether they return or raise, every count is
    at least 1. *)
Theorem served_positive_counts (reg : gmap string Z) :
  served reg → positive_counts reg.
Proof.
  induction 1 as [|reg fuel r res _ IH Hres Hfuel].
  { intros key cnt. by rewrite lookup_empty. }
  subst res. destruct r as [name|name|name]; simpl in *.
  - pose proof (register_name_positive fuel name reg IH) as H.
    revert Hfuel H. run. by destruct (register_name fuel name reg).
  - pose proof (register_custom_name_positive fuel name reg IH) as H.
    revert Hfuel H. run. by destruct (register_custom_name fuel name reg).
  - by apply unregister_name_positive.
Qed.

Lemma served_positive_counts_witness :
  positive_counts
    (state_after (serve 1 (req_register_name "gain") ∅) (∅ : gmap string Z)).
Proof.
  apply (served_positive_counts _).
  by apply (served_request ∅ 1 (req_register_name "gain") _ served_new).
Defined.

(** *** Custom names *)

Lemma register_name_new fuel name (reg : gmap string Z) :
  reg !! name = None →
  register_name fuel name reg = Ret name (<[name := 1]> reg).
Proof.
  intros Hk. unfold register_name. run.
  by rewrite decide_False by (rewrite Hk; by intros [? ?]).
Qed.

(** X15.  For a name that is no key of the registry,
    [register_custom_name] returns that very name, and the name is
    registered afterwards: as a key of its own, or, when it has an index
    below the count of its basename, by one more count of the basename. *)
Theorem register_custom_name_returns_name name (reg : gmap string Z) :
  reg !! name = None →
  ∃ n : nat, ∀ fuel : nat, (n < fuel)%nat →
    ∃ reg', register_custom_name fuel name reg = Ret name reg' ∧
            is_name_registered name reg' = Ret true reg'.
Proof.
  intros Hname.
  assert (¬ is_Some (reg !! name)) as Hnokey
    by (rewrite Hname; by intros [? ?]).
  assert (∀ fuel, ∃ reg', register_name fuel name reg = Ret name reg' ∧
                          is_name_registered name reg' = Ret true reg')
    as Hnew.
  { intros fuel. eexists. split; [by apply register_name_new|].
    apply is_name_registered_key. by rewrite lookup_insert_eq. }
  destruct (re_search_index name) as [[basename idx]|] eqn:Hre; cycle 1.
  { exists 0%nat. intros fuel _. destruct (Hnew fuel) as (reg' & H1 & H2).
    exists reg'. split; [|done]. unfold register_custom_name. run.
    by rewrite Hre. }
  destruct (reg !! basename) as [cnt|] eqn:Hb; cycle 1.
  { exists 0%nat. intros fuel _. destruct (Hnew fuel) as (reg' & H1 & H2).
    exists reg'. split; [|done].
    unfold register_custom_name, _is_implicitly_registered, get_name_attrs.
    run. rewrite Hre. rewrite decide_False by done. simpl. by rewrite Hb. }
  destruct (bool_decide (idx < cnt)) eqn:Hlt; cycle 1.
  { exists 0%nat. intros fuel _. destruct (Hnew fuel) as (reg' & H1 & H2).
    exists reg'. split; [|done].
    unfold register_custom_name, _is_implicitly_registered, get_name_attrs.
    run. rewrite Hre. rewrite decide_False by done. simpl.
    by rewrite Hb, Hlt. }
  apply bool_decide_eq_true in Hlt.
  destruct (first_free_name reg basename cnt) as (n & Hused & Hfree).
  exists n. intros fuel Hfuel.
  destruct (register_name_loop_spec n basename reg cnt fuel Hb Hused Hfree
              Hfuel) as (reg' & Hrun & Hcnt & Hcol & Hother).
  exists reg'. split.
  { unfold register_custom_name, _is_implicitly_registered, get_name_attrs.
    run. rewrite Hre. rewrite decide_False by done. simpl. rewrite Hb.
    rewrite bool_decide_eq_true_2 by done.
    unfold register_name. run.
    rewrite decide_True by by rewrite Hb. by rewrite Hrun. }
  assert (reg' !! name = None) as Hname'.
  { destruct (decide (Exists (λ j : nat,
                name = generated_name basename (cnt + Z.of_nat j))
                (seq 0 n))) as [Hex|Hex].
    - apply Exists_exists in Hex as (j & Hj%elem_of_seq & ->).
      rewrite Hcol by lia. by rewrite Hname.
    - rewrite Hother; [done|congruence|].
      intros j Hj ->. apply Hex, Exists_exists. exists j.
      split; [apply elem_of_seq; lia|done]. }
  unfold is_name_registered, _is_implicitly_registered, get_name_attrs. run.
  rewrite decide_False by (rewrite Hname'; by intros [? ?]).
  rewrite Hre. simpl. rewrite Hcnt.
  by rewrite bool_decide_eq_true_2 by lia.
Qed.

Lemma register_custom_name_returns_name_witness :
  ∃ n : nat, ∀ fuel : nat, (n < fuel)%nat →
    ∃ reg', register_custom_name fuel "gain_1" {[ "gain" := 2 ]}
            = Ret "gain_1" reg' ∧
            is_name_registered "gain_1" reg' = Ret true reg'.
Proof.
  apply (register_custom_name_returns_name "gain_1" {[ "gain" := 2 ]}).
  reflexivity.
Defined.

(** ** Further facts about property collections *)

Local Open Scope Z_scope.

(** *** The sorted values *)

Section sorted.
Variable pn : string.
Variable allowed : value → bool.
Hypothesis pn_allowed : _ALLOWED_TYPES pn = Some allowed.

(** The values of a property whose keys are the generated ones. *)
Lemma sort_values_iff p vs :
  unordered pn p → 1 ≤ _key_gen_count p →
  sort p = sort_values vs ↔
  Z.of_nat (List.length vs) = _key_gen_count p - 1 ∧
  ∀ (i : nat) v, vs !! i = Some v →
                 items p !! generated_key pn (1 + Z.of_nat i) = Some v.
Proof.
  intros [Hpn Hoi] Hc. unfold sort. rewrite Hoi, Hpn.
  destruct (mapM _ _) as [ws|] eqn:Hm.
  - apply mapM_Some in Hm. apply Forall2_same_length_lookup in Hm.
    destruct Hm as [Hlen Hm]. rewrite length_seqZ in Hlen. split.
    + intros [= <-]. split; [lia|]. intros i v Hv.
      apply (Hm i (1 + Z.of_nat i) v); [|done].
      apply lookup_seqZ. apply lookup_lt_Some in Hv. lia.
    + intros [Hlen' Hvs]. f_equal. apply list_eq_same_length with
        (n := List.length vs); [done|lia|].
      intros i x y Hi Hx Hy.
      assert (items p !! generated_key pn (1 + Z.of_nat i) = Some y) as Hy'
        by by apply Hvs.
      rewrite (Hm i (1 + Z.of_nat i) x) in Hy'; [congruence| |done].
      apply lookup_seqZ. lia.
  - split; [done|]. intros [Hlen Hvs]. exfalso.
    assert (mapM (λ i, items p !! generated_key pn i)
              (seqZ 1 (_key_gen_count p - 1)) = Some vs) as Hm'.
    { apply mapM_Some, Forall2_same_length_lookup. split.
      - rewrite length_seqZ. lia.
      - intros i x v [-> Hi]%lookup_seqZ Hv. by apply Hvs. }
    congruence.
Qed.

Lemma compact_sort p :
  compact pn allowed p → ∃ vs, sort p = sort_values vs.
Proof using pn_allowed.
  intros ([Hpn Hoi] & [Hc Hkeys] & _). unfold sort. rewrite Hoi, Hpn.
  destruct (mapM _ _) as [ws|] eqn:Hm; [by eexists|].
  exfalso. apply mapM_None in Hm.
  apply Exists_exists in Hm as (i & [j [-> Hj]%lookup_seqZ]%list_elem_of_lookup & Hi).
  destruct (proj2 (Hkeys (generated_key pn (1 + Z.of_nat j)))) as [v Hv];
    [|congruence].
  exists (1 + Z.of_nat j). split; [lia|done].
Qed.

Lemma sort_set_within b p : sort (set_within b p) = sort p.
Proof. done. Qed.

Lemma add_args_all args : ∀ p,
  unordered pn p → _within_method p = true → 1 ≤ _key_gen_count p →
  Forall (λ v, allowed v = true) args →
  ∃ p', add_args args p = Ret tt p' ∧
        unordered pn p' ∧ _within_method p' = true ∧
        _key_gen_count p' = _key_gen_count p + Z.of_nat (List.length args) ∧
        (∀ (i : nat) v, args !! i = Some v →
           items p' !! generated_key pn (_key_gen_count p + Z.of_nat i)
           = Some v) ∧
        (∀ key, (∀ i : nat, (i < List.length args)%nat →
                   key ≠ generated_key pn (_key_gen_count p + Z.of_nat i)) →
                items p' !! key = items p !! key).
Proof using pn_allowed.
  induction args as [|v args IH]; intros p Hu Hw Hc Hargs; simpl.
  { exists p. split_and!; try done; lia. }
  apply Forall_cons in Hargs as [Hv Hargs].
  run. rewrite (proj1 Hu).
  rewrite (setitem_generated pn allowed) by (done || lia).
  destruct (IH (set_count (λ n, n + 1)
                  (set_items (<[generated_key pn (_key_gen_count p) := v]>) p)))
    as (p' & -> & Hu' & Hw' & Hc' & Hin & Hout); [done|done|simpl; lia|done|].
  simpl in *. exists p'. split_and!; try done.
  - lia.
  - intros [|i] w Hi; simpl in Hi.
    + injection Hi as <-. rewrite Hout.
      * rewrite Z.add_0_r. apply lookup_insert_eq.
      * intros i _ Heq%(generated_key_inj pn). lia.
    + rewrite <- (Hin i w Hi). f_equal. f_equal. lia.
  - intros key Hkey. rewrite Hout.
    + apply lookup_insert_ne. intros <-. apply (Hkey 0%nat); [lia|].
      f_equal. lia.
    + intros i Hi Heq. apply (Hkey (S i)); [lia|]. rewrite Heq.
      f_equal. lia.
Qed.

Lemma add_sorted p vs args kwargs :
  compact pn allowed p → sort p = sort_values vs →
  Forall (λ v, allowed v = true) args →
  ∃ p', add args kwargs p = Ret tt p' ∧
        sort p' = sort_values (vs ++ args) ∧
        _within_method p' = false ∧ compact pn allowed p'.
Proof using pn_allowed.
  intros Hp Hsort Hargs. pose proof Hp as (Hu & [Hc Hk] & Ht).
  apply (sort_values_iff p vs Hu Hc) in Hsort as [Hlen Hvs].
  destruct (add_args_all args (set_within true p))
    as (p1 & Hadd & Hu1 & Hw1 & Hc1 & Hin & Hout); [done..|].
  simpl in *.
  assert (add args kwargs p = Ret tt (set_within false p1)) as Hrun.
  { unfold add. run. simpl. by rewrite (proj2 Hu), Hadd. }
  exists (set_within false p1). split_and!; [done| |done|].
  - rewrite sort_set_within.
    apply (sort_values_iff p1 _ Hu1); [lia|]. split.
    + rewrite length_app. lia.
    + intros i v Hv.
      destruct (decide (i < List.length vs)%nat) as [Hlt|Hge].
      * rewrite lookup_app_l in Hv by done. rewrite Hout; [by apply Hvs|].
        intros j _ Heq%(generated_key_inj pn). lia.
      * rewrite lookup_app_r in Hv by lia.
        rewrite <- (Hin _ v Hv). f_equal. f_equal. lia.
  - destruct (add_compact pn allowed pn_allowed args kwargs p Hp)
      as (p2 & [Hr|Hr] & Hp2); rewrite Hrun in Hr; by simplify_eq.
Qed.

Lemma pop_sorted p vs (i : nat) :
  compact pn allowed p → sort p = sort_values vs →
  (i < List.length vs)%nat →
  ∃ p', pop (generated_key pn (1 + Z.of_nat i)) p = Ret tt p' ∧
        sort p' = sort_values (delete i vs) ∧
        _within_method p' = false ∧ compact pn allowed p'.
Proof using pn_allowed.
  intros Hp Hsort Hi. pose proof Hp as (Hu & [Hc Hk] & Ht).
  apply (sort_values_iff p vs Hu Hc) in Hsort as [Hlen Hvs].
  destruct (pop_generated pn allowed pn_allowed p (1 + Z.of_nat i))
    as (p' & Hpop & Hp' & Hw' & Hc' & Hlo & Hhi); [done|lia|].
  exists p'. split_and!; [done| |done|done].
  pose proof Hp' as (Hu' & [Hc1' _] & _).
  apply (sort_values_iff p' _ Hu' Hc1'). split.
  - rewrite length_delete by by apply lookup_lt_is_Some_2. lia.
  - intros j v Hv. destruct (decide (j < i)%nat) as [Hlt|Hge].
    + rewrite list_lookup_delete_lt in Hv by done.
      rewrite Hlo by lia. by apply Hvs.
    + rewrite list_lookup_delete_ge in Hv by lia.
      pose proof (lookup_lt_Some _ _ _ Hv) as Hj.
      rewrite Hhi by lia.
      replace (1 + Z.of_nat j + 1) with (1 + Z.of_nat (S j)) by lia.
      by apply Hvs.
Qed.

Lemma popitem_sorted p vs v :
  compact pn allowed p → sort p = sort_values (vs ++ [v]) →
  ∃ p', popitem p = Ret tt p' ∧ sort p' = sort_values vs ∧
        _within_method p' = false ∧ compact pn allowed p'.
Proof using pn_allowed.
  intros Hp Hsort. pose proof Hp as ([Hpn Hoi] & [Hc Hk] & Ht).
  pose proof Hsort as Hsort'.
  apply (sort_values_iff p _ (conj Hpn Hoi) Hc) in Hsort' as [Hlen Hvs].
  rewrite length_app in Hlen. simpl in Hlen.
  destruct (pop_sorted p (vs ++ [v]) (List.length vs) Hp Hsort)
    as (p' & Hpop & Hsort1 & Hw' & Hp'); [rewrite length_app; simpl; lia|].
  exists p'. split_and!; [|by rewrite Hsort1, delete_middle, app_nil_r|done..].
  clear Hsort1. revert Hpop.
  replace (1 + Z.of_nat (List.length vs)) with (_key_gen_count p - 1) by lia.
  unfold pop, popitem, _detect_invalid_key_entry, try_except,
    _non_erasable_order_dependent_method.
  run. simpl. rewrite Hoi, Hpn.
  destruct (dict_getitem _ _) as [w p1|e' p1|]; [|done..].
  destruct (delitem _ p1) as [u p2|e' p2|]; done.
Qed.

Lemma popitem_empty p :
  compact pn allowed p → sort p = sort_values [] →
  popitem p = Raise KeyError (set_within true p).
Proof using pn_allowed.
  intros Hp Hsort. pose proof Hp as ([Hpn Hoi] & [Hc Hk] & Ht).
  apply (sort_values_iff p _ (conj Hpn Hoi) Hc) in Hsort as [Hlen _].
  simpl in Hlen.
  unfold popitem, _detect_invalid_key_entry, try_except,
    _non_erasable_order_dependent_method, dict_getitem.
  run. simpl. rewrite Hoi, Hpn.
  assert (items p !! generated_key pn (_key_gen_count p - 1) = None) as ->;
    [|done].
  apply eq_None_not_Some. intros (j & Hj & Heq%generated_key_inj)%Hk. lia.
Qed.
End sorted.

(** X16.  On an order-invariant property whose keys are the generated ones
    below the counter, [add] with values of an allowed type returns, and
    afterwards [sort] gives the values it gave before followed by the
    added values in their order; the guard is off again. *)
Theorem add_appends_to_sort pn allowed p vs args kwargs :
  _ALLOWED_TYPES pn = Some allowed → compact pn allowed p →
  sort p = sort_values vs → Forall (λ v, allowed v = true) args →
  ∃ p', add args kwargs p = Ret tt p' ∧
        sort p' = sort_values (vs ++ args) ∧
        _within_method p' = false ∧ compact pn allowed p'.
Proof. intros. by apply add_sorted. Qed.

Lemma add_appends_to_sort_witness :
  ∃ p', add [Component 1; PyNone] [] unordered_inputs = Ret tt p' ∧
        sort p' = sort_values ([] ++ [Component 1; PyNone]) ∧
        _within_method p' = false ∧
        compact "inputs" is_component_or_none p'.
Proof.
  apply (add_appends_to_sort "inputs" is_component_or_none unordered_inputs
           [] [Component 1; PyNone] []).
  - reflexivity.
  - by apply (init_compact "inputs" is_component_or_none).
  - reflexivity.
  - by repeat constructor.
Defined.

(** X17.  On such a property, let [sort] give [vs].  [pop] of the key
    generated for the position [i] of [vs] (the key with the number
    [i + 1]) returns, and afterwards [sort] gives [vs] without its
    element at position [i]: the values behind it have moved one key
    down.  The guard is off again. *)
Theorem pop_deletes_from_sort pn allowed p vs (i : nat) :
  _ALLOWED_TYPES pn = Some allowed → compact pn allowed p →
  sort p = sort_values vs → (i < List.length vs)%nat →
  ∃ p', pop (generated_key pn (1 + Z.of_nat i)) p = Ret tt p' ∧
        sort p' = sort_values (delete i vs) ∧
        _within_method p' = false ∧ compact pn allowed p'.
Proof. intros. by apply pop_sorted. Qed.

Lemma pop_deletes_from_sort_witness :
  let p := run_calls
             [call_add [Component 1; Component 2; Component 3] []]
             unordered_inputs in
  ∃ p', pop (generated_key "inputs" (1 + Z.of_nat 1)) p = Ret tt p' ∧
        sort p' = sort_values
                    (delete 1%nat [Component 1; Component 2; Component 3]) ∧
        _within_method p' = false ∧
        compact "inputs" is_component_or_none p'.
Proof.
  apply (pop_deletes_from_sort "inputs" is_component_or_none).
  - reflexivity.
  - apply run_calls_compact; [reflexivity|].
    by apply (init_compact "inputs" is_component_or_none).
  - reflexivity.
  - simpl. lia.
Defined.

(** X18.  On such a property, [popitem] returns when [sort] gives a list
    that is not empty, and [sort] gives that list without its last
    element afterwards.  When [sort] gives the empty list, [popitem]
    raises [KeyError], and the guard that it has switched on stays on. *)
Theorem popitem_removes_last pn allowed p vs :
  _ALLOWED_TYPES pn = Some allowed → compact pn allowed p →
  sort p = sort_values vs →
  (vs = [] → popitem p = Raise KeyError (set_within true p)) ∧
  (∀ vs' v, vs = vs' ++ [v] →
     ∃ p', popitem p = Ret tt p' ∧ sort p' = sort_values vs' ∧
           _within_method p' = false ∧ compact pn allowed p').
Proof.
  intros Hal Hp Hsort. split.
  - intros ->. by eapply popitem_empty.
  - intros vs' v ->. by eapply popitem_sorted.
Qed.

Lemma popitem_removes_last_witness :
  let p := run_calls
             [call_add [Component 1; Component 2; Component 3] []]
             unordered_inputs in
  ([Component 1; Component 2; Component 3] = [] →
   popitem p = Raise KeyError (set_within true p)) ∧
  (∀ vs' v, [Component 1; Component 2; Component 3] = vs' ++ [v] →
     ∃ p', popitem p = Ret tt p' ∧ sort p' = sort_values vs' ∧
           _within_method p' = false ∧
           compact "inputs" is_component_or_none p').
Proof.
  apply (popitem_removes_last "inputs" is_component_or_none).
  - reflexivity.
  - apply run_calls_compact; [reflexivity|].
    by apply (init_compact "inputs" is_component_or_none).
  - reflexivity.
Defined.

(** *** All the public methods *)

Lemma _update_outcome kwargs p :
  _update kwargs p
  = if decide (map_Forall (λ key _, is_Some (items p !! key)) kwargs)
    then Ret tt (set_items (λ d, kwargs ∪ d) p)
    else Raise KeyError p.
Proof. unfold _update. run. by case_decide. Qed.

Lemma lookup_union_present (kwargs d : gmap string value) key :
  map_Forall (λ key _, is_Some (d !! key)) kwargs →
  is_Some ((kwargs ∪ d) !! key) ↔ is_Some (d !! key).
Proof.
  intros Hk. rewrite lookup_union_is_Some. split; [|by right].
  intros [[v Hv]|?]; [|done]. by apply (Hk key v).
Qed.

Section methods.
Variable pn : string.
Variable allowed : value → bool.
Hypothesis pn_allowed : _ALLOWED_TYPES pn = Some allowed.

Lemma _update_compact kwargs p :
  compact pn allowed p → map_Forall (λ _ v, allowed v = true) kwargs →
  compact pn allowed (state_after (_update kwargs p) p).
Proof.
  intros (Hu & [Hc Hk] & Ht) Hkw. rewrite _update_outcome.
  case_decide as Hpresent; [|done]. simpl.
  split_and!; [done|split; [done|]|].
  - intros key. simpl. by rewrite lookup_union_present.
  - intros key v. simpl. intros [Hv|[_ Hv]]%lookup_union_Some_raw.
    + by apply (Hkw key v).
    + by apply (Ht key v).
Qed.

Lemma update_compact update_dict kwargs p :
  compact pn allowed p → typed_update allowed (m_update update_dict kwargs) →
  compact pn allowed (state_after (update update_dict kwargs p) p).
Proof.
  intros Hp [Hd Hkw]. unfold update. run.
  destruct update_dict as [|d|]; [|..|done].
  - by apply _update_compact.
  - pose proof (_update_compact d p Hp Hd) as H1.
    destruct (_update d p) as [u p1|e' p1|]; [|done..]. simpl in H1.
    pose proof (_update_compact kwargs p1 H1 Hkw) as H2.
    by destruct (_update kwargs p1).
Qed.

Lemma clear_compact p :
  compact pn allowed p → compact pn allowed (state_after (clear p) p).
Proof.
  intros ([Hpn Hoi] & _). unfold clear, _non_erasable_order_dependent_method.
  run. rewrite Hoi. simpl. split_and!; [done|split; [done|]|].
  - intros key. simpl. rewrite lookup_empty. split; [by intros [? ?]|].
    intros (i & Hi & _). lia.
  - intros key v. simpl. by rewrite lookup_empty.
Qed.

Lemma run_method_compact m p :
  typed_update allowed m → compact pn allowed p →
  compact pn allowed (run_method m p).
Proof using pn_allowed.
  intros Hm Hp. destruct m as [args kwargs|key| | |ud kwargs|order v]; simpl.
  - destruct (add_compact pn allowed pn_allowed args kwargs p Hp)
      as (p' & [-> | ->] & Hp'); done.
  - destruct (pop_compact pn allowed pn_allowed key p Hp)
      as (p' & [-> | ->] & Hp'); done.
  - destruct (popitem_compact pn allowed pn_allowed p Hp)
      as (p' & [-> | ->] & Hp'); done.
  - by apply clear_compact.
  - by apply update_compact.
  - done.
Qed.

Lemma run_methods_compact ms p :
  Forall (typed_update allowed) ms → compact pn allowed p →
  compact pn allowed (run_methods ms p).
Proof using pn_allowed.
  intros Hms. revert p. induction Hms as [|m ms Hm _ IH]; intros p Hp;
    [done|].
  simpl. by apply IH, run_method_compact.
Qed.
End methods.

(** X19.  An order-invariant property is driven, from its construction, by
    any calls of [add], [pop], [popitem], [clear] and [update], the calls
    of [update] bringing values of an allowed type, whether the calls
    return or raise.  After every call its keys are the generated ones
    below the counter, its values have an allowed type, and [sort]
    returns them: it does not meet a missing key. *)
Theorem typed_methods_keep_compact pn allowed p0 ms :
  _ALLOWED_TYPES pn = Some allowed → init pn None = inr p0 →
  Forall (typed_update allowed) ms →
  let p := run_methods ms p0 in
  contiguous pn p ∧ well_typed allowed p ∧
  ∃ vs, sort p = sort_values vs ∧ Forall (λ v, allowed v = true) vs.
Proof.
  intros Hal Hinit Hms p.
  assert (compact pn allowed p) as Hp.
  { apply run_methods_compact; [done..|]. by apply init_compact. }
  pose proof Hp as (Hu & [Hc Hk] & Ht). split_and!; [done..|].
  destruct (compact_sort pn allowed Hal p Hp) as [vs Hvs].
  exists vs. split; [done|].
  apply (sort_values_iff pn p vs Hu Hc) in Hvs as [_ Hvs].
  apply Forall_lookup. intros i v Hv.
  by apply (Ht (generated_key pn (1 + Z.of_nat i)) v), Hvs.
Qed.

Lemma typed_methods_keep_compact_witness :
  let p := run_methods
             [m_add [Component 1; Component 2] []; m_clear;
              m_add [PyNone] [];
              m_update no_dict {[ "inputs_1" := Component 3 ]}; m_popitem]
             unordered_inputs in
  contiguous "inputs" p ∧ well_typed is_component_or_none p ∧
  ∃ vs, sort p = sort_values vs ∧
        Forall (λ v, is_component_or_none v = true) vs.
Proof.
  apply (typed_methods_keep_compact "inputs" is_component_or_none);
    [reflexivity..|].
  repeat constructor. by apply map_Forall_singleton.
Defined.

(** *** Order-dependent properties *)

Lemma same_schema_refl p : same_schema p p.
Proof. done. Qed.

Lemma same_schema_trans p1 p2 p3 :
  same_schema p1 p2 → same_schema p2 p3 → same_schema p1 p3.
Proof. intros (? & ? & ?) (? & ? & ?). split_and!; congruence. Qed.

Lemma same_schema_set_within b p : same_schema p (set_within b p).
Proof. done. Qed.

(** What an assignment does to an order-dependent property. *)
Lemma setitem_ordered key v p :
  is_order_invariant p = false → _within_method p = true →
  setitem key v p
  = match _ALLOWED_TYPES (prop_name p) with
    | None => Raise KeyError p
    | Some prop_types =>
        if prop_types v then
          match items p !! key with
          | Some _ => Ret tt (set_items (<[key := v]>) p)
          | None => Raise KeyError p
          end
        else Raise TypeError p
    end.
Proof.
  intros Hoi Hw.
  unfold setitem, _block_outside_modification, setitem_body, _check_key_type,
    _check_value_type, _check_if_key_is_in_defined_variables, dict_setitem.
  run. rewrite Hw.
  destruct (_ALLOWED_TYPES (prop_name p)) as [prop_types|]; [|done].
  destruct (prop_types v); [|done]. rewrite Hoi.
  by destruct (items p !! key).
Qed.

Lemma setitem_ordered_schema key v p :
  is_order_invariant p = false → _within_method p = true →
  match setitem key v p with
  | Ret _ p' | Raise _ p' => same_schema p p' ∧ _within_method p' = true
  | OutOfFuel => False
  end.
Proof.
  intros Hoi Hw. rewrite setitem_ordered by done.
  destruct (_ALLOWED_TYPES (prop_name p)) as [prop_types|]; [|done].
  destruct (prop_types v); [|done].
  destruct (items p !! key) as [w|] eqn:Hkey; [|done].
  split; [|done]. split_and!; [|done..]. simpl.
  apply dom_insert_lookup_L. by rewrite Hkey.
Qed.

Lemma add_kwargs_ordered_schema kwargs : ∀ p,
  is_order_invariant p = false → _within_method p = true →
  match add_kwargs kwargs p with
  | Ret _ p' | Raise _ p' => same_schema p p' ∧ _within_method p' = true
  | OutOfFuel => False
  end.
Proof.
  induction kwargs as [|[key v] kwargs IH]; intros p Hoi Hw; simpl; [done|].
  run. pose proof (setitem_ordered_schema key v p Hoi Hw) as H1.
  destruct (setitem key v p) as [u p1|e' p1|]; [|done..].
  destruct H1 as [Hs1 Hw1].
  assert (is_order_invariant p1 = false) as Hoi1
    by (destruct Hs1 as (_ & _ & ->); done).
  specialize (IH p1 Hoi1 Hw1).
  destruct (add_kwargs kwargs p1) as [u2 p2|e2 p2|]; [| |done];
    destruct IH as [Hs2 Hw2]; (split; [by eapply same_schema_trans|done]).
Qed.

Lemma remove_loop_ordered_schema snapshot v : ∀ p,
  is_order_invariant p = false → _within_method p = true →
  match remove_loop snapshot v p with
  | Ret _ p' | Raise _ p' => same_schema p p' ∧ _within_method p' = true
  | OutOfFuel => False
  end.
Proof.
  induction snapshot as [|[key w] snapshot IH]; intros p Hoi Hw; simpl;
    [done|].
  run. destruct (decide (w = v)) as [->|Hne]; [|by apply IH].
  rewrite Hoi. pose proof (setitem_ordered_schema key PyNone p Hoi Hw) as H1.
  destruct (setitem key PyNone p) as [u p1|e' p1|]; [|done..].
  destruct H1 as [Hs1 Hw1].
  assert (is_order_invariant p1 = false) as Hoi1
    by (destruct Hs1 as (_ & _ & ->); done).
  specialize (IH p1 Hoi1 Hw1).
  destruct (remove_loop snapshot v p1) as [u2 p2|e2 p2|]; [| |done];
    destruct IH as [Hs2 Hw2]; (split; [by eapply same_schema_trans|done]).
Qed.

Lemma _update_schema kwargs p :
  same_schema p (state_after (_update kwargs p) p).
Proof.
  rewrite _update_outcome. case_decide as Hk; [|done]. simpl.
  split_and!; [|done..]. simpl. apply set_eq. intros key.
  rewrite !elem_of_dom. by apply lookup_union_present.
Qed.

Lemma run_method_ordered_schema m p :
  is_order_invariant p = false → same_schema p (run_method m p).
Proof.
  intros Hoi. destruct m as [args kwargs|key| | |ud kwargs|order v]; simpl.
  - unfold add. run. simpl. rewrite Hoi.
    pose proof (add_kwargs_ordered_schema kwargs (set_within true p) Hoi
                  eq_refl) as H.
    destruct (add_kwargs kwargs (set_within true p)) as [u p1|e' p1|];
      [| |done]; by destruct H as [(? & ? & ?) _].
  - unfold pop, _detect_invalid_key_entry, try_except, dict_getitem, delitem,
      _block_outside_modification, _non_erasable_order_dependent_method.
    run. simpl. destruct (items p !! key); simpl; [|done].
    by rewrite Hoi.
  - unfold popitem, _detect_invalid_key_entry, try_except,
      _non_erasable_order_dependent_method.
    run. by rewrite Hoi.
  - unfold clear, _non_erasable_order_dependent_method. run. by rewrite Hoi.
  - unfold update. run. destruct ud as [|d|]; [|..|done].
    + apply _update_schema.
    + pose proof (_update_schema d p) as H1.
      destruct (_update d p) as [u p1|e' p1|]; [|done..]. simpl in H1.
      pose proof (_update_schema kwargs p1) as H2.
      destruct (_update kwargs p1) as [u2 p2|e2 p2|]; [| |done];
        by eapply same_schema_trans.
  - unfold remove. run. simpl.
    pose proof (remove_loop_ordered_schema
                  (omap (λ key, pair key <$> items p !! key) order) v
                  (set_within true p) Hoi eq_refl) as H.
    destruct (remove_loop _ v (set_within true p)) as [u p1|e' p1|];
      [| |done]; by destruct H as [(? & ? & ?) _].
Qed.

Lemma run_methods_ordered_schema ms : ∀ p,
  is_order_invariant p = false → same_schema p (run_methods ms p).
Proof.
  induction ms as [|m ms IH]; intros p Hoi; [done|]. simpl.
  pose proof (run_method_ordered_schema m p Hoi) as H1.
  eapply same_schema_trans; [done|]. apply IH.
  destruct H1 as (_ & _ & ->). done.
Qed.

Lemma dom_foldl_insert (keys : list string) (d : gmap string value) :
  dom (foldl (λ d key, <[key := PyNone]> d) d keys)
  = list_to_set keys ∪ dom d.
Proof.
  revert d. induction keys as [|key keys IH]; intros d; simpl.
  - set_solver.
  - rewrite IH, dom_insert_L. set_solver.
Qed.

(** X20.  An order-dependent property is constructed with the keys that
    its component declares.  Whatever calls of [add], [pop], [popitem],
    [clear], [update] and [remove] follow, with whatever arguments and
    whether they return or raise, its keys are the declared ones: none is
    added and none is lost. *)
Theorem ordered_keys_are_declared pn req_keys all_keys p0 ms :
  init pn (Some (req_keys, all_keys)) = inr p0 →
  let p := run_methods ms p0 in
  dom (items p) = list_to_set all_keys ∧ is_order_invariant p = false.
Proof.
  intros Hinit p. unfold init in Hinit.
  destruct (_ALLOWED_TYPES pn); [|done]. injection Hinit as <-.
  destruct (run_methods_ordered_schema ms
              (Property pn false 0 false
                 (foldl (λ d key, <[key := PyNone]> d) ∅ all_keys)) eq_refl)
    as (Hdom & _ & Hoi).
  split; [|done]. fold p in Hdom. rewrite Hdom. simpl.
  rewrite dom_foldl_insert. set_solver.
Qed.

Lemma ordered_keys_are_declared_witness :
  let p := run_methods
             [m_add [] [("gain", Other 2)]; m_pop "gain"; m_popitem;
              m_add [] [("offset", Other 1)]; m_clear;
              m_update no_dict {[ "bias" := Other 0 ]};
              m_remove ["gain"] (Other 2)]
             (Property "parameters" false 0 false {[ "gain" := PyNone ]}) in
  dom (items p) = list_to_set ["gain"] ∧ is_order_invariant p = false.
Proof.
  apply (ordered_keys_are_declared "parameters" ["gain"] ["gain"]).
  reflexivity.
Defined.

(** *** [remove] *)

Lemma allowed_None pn allowed :
  _ALLOWED_TYPES pn = Some allowed → allowed PyNone = true.
Proof.
  unfold _ALLOWED_TYPES. repeat case_decide; intros [= <-]; done.
Qed.

Lemma remove_loop_ordered pn allowed (d0 : gmap string value) v order :
  _ALLOWED_TYPES pn = Some allowed →
  ∀ p, prop_name p = pn → is_order_invariant p = false →
       _within_method p = true → dom (items p) = dom d0 →
  ∃ p', remove_loop (omap (λ key, pair key <$> d0 !! key) order) v p
        = Ret tt p' ∧
        _within_method p' = true ∧
        ∀ key, items p' !! key
               = if decide (key ∈ order ∧ d0 !! key = Some v)
                 then Some PyNone else items p !! key.
Proof.
  intros Hal. induction order as [|key order IH]; intros p Hpn Hoi Hw Hdom.
  { exists p. split_and!; [done..|]. intros key.
    rewrite decide_False; [done|]. by intros [?%elem_of_nil _]. }
  simpl. destruct (d0 !! key) as [w|] eqn:Hkey; simpl.
  - run. destruct (decide (w = v)) as [->|Hne].
    + rewrite Hoi, setitem_ordered by done. rewrite Hpn, Hal.
      rewrite (allowed_None pn allowed Hal).
      assert (is_Some (items p !! key)) as [w Hw'].
      { apply elem_of_dom. rewrite Hdom. apply elem_of_dom. by rewrite Hkey. }
      rewrite Hw'.
      destruct (IH (set_items (<[key := PyNone]>) p))
        as (p' & Hrun & Hw1 & Hk); [done..| |].
      { simpl. rewrite dom_insert_lookup_L by by rewrite Hw'. done. }
      cbn beta iota.
      exists p'. split_and!; [exact Hrun|done|]. intros key'. rewrite Hk.
      simpl.
      destruct (decide (key' = key)) as [->|Hne].
      * rewrite lookup_insert_eq.
        rewrite (decide_True (P := key ∈ key :: order ∧ _))
          by (split; [by left|done]).
        by case_decide.
      * rewrite lookup_insert_ne by done.
        destruct (decide (key' ∈ order ∧ d0 !! key' = Some v)) as [[? ?]|Hn].
        -- by rewrite decide_True by (split; [by right|done]).
        -- rewrite decide_False; [done|].
           intros [[?|?]%elem_of_cons ?]; [done|]. by apply Hn.
    + destruct (IH p Hpn Hoi Hw Hdom) as (p' & Hrun & Hw1 & Hk).
      exists p'. split_and!; [exact Hrun|done|]. intros key'. rewrite Hk.
      destruct (decide (key' ∈ order ∧ d0 !! key' = Some v)) as [[? ?]|Hn].
      * by rewrite decide_True by (split; [by right|done]).
      * rewrite decide_False; [done|].
        intros [[->|?]%elem_of_cons ?]; [congruence|]. by apply Hn.
  - destruct (IH p Hpn Hoi Hw Hdom) as (p' & Hrun & Hw1 & Hk).
    exists p'. split_and!; [exact Hrun|done|]. intros key'. rewrite Hk.
    destruct (decide (key' ∈ order ∧ d0 !! key' = Some v)) as [[? ?]|Hn].
    + by rewrite decide_True by (split; [by right|done]).
    + rewrite decide_False; [done|].
      intros [[->|?]%elem_of_cons ?]; [congruence|]. by apply Hn.
Qed.

(** X21.  On an order-dependent property, [remove] of a value returns;
    afterwards every key that held the value holds [None], every other
    key holds what it held, and the guard is off again. *)
Theorem remove_resets_ordered pn allowed p order v :
  _ALLOWED_TYPES pn = Some allowed → prop_name p = pn →
  is_order_invariant p = false →
  (∀ key, is_Some (items p !! key) → key ∈ order) →
  ∃ p', remove order v p = Ret tt p' ∧
        items p'
        = (λ w, if decide (w = v) then PyNone else w) <$> items p ∧
        _within_method p' = false.
Proof.
  intros Hal Hpn Hoi Hcover.
  destruct (remove_loop_ordered pn allowed (items p) v order Hal
              (set_within true p)) as (p1 & Hrun & Hw1 & Hk); [done..|].
  exists (set_within false p1). unfold remove. run. simpl.
  rewrite Hrun. split_and!; [done| |done].
  simpl. apply map_eq. intros key. rewrite Hk, lookup_fmap. simpl.
  destruct (items p !! key) as [w|] eqn:Hkey; simpl.
  - destruct (decide (w = v)) as [->|Hne].
    + rewrite decide_True; [done|]. split; [|done].
      apply Hcover. by rewrite Hkey.
    + rewrite decide_False; [done|]. intros [_ ?]. congruence.
  - rewrite decide_False; [done|]. by intros [_ ?].
Qed.

Lemma remove_resets_ordered_witness :
  let p := Property "inputs" false 0 false
             {[ "left" := Component 1; "right" := Component 2 ]} in
  ∃ p', remove ["left"; "right"] (Component 1) p = Ret tt p' ∧
        items p'
        = (λ w, if decide (w = Component 1) then PyNone else w) <$> items p ∧
        _within_method p' = false.
Proof.
  apply (remove_resets_ordered "inputs" is_component_or_none);
    [reflexivity..|].
  intros key [w Hw]. simpl in Hw.
  apply lookup_insert_Some in Hw as [[<- _]|[_ Hw]]; [by left|].
  apply lookup_singleton_Some in Hw as [<- _]. right. by left.
Defined.

Section remove_single.
Variable d0 : gmap string value.
Variable v : value.

Lemma remove_loop_none order p :
  (∀ key, key ∈ order → d0 !! key ≠ Some v) →
  remove_loop (omap (λ key, pair key <$> d0 !! key) order) v p = Ret tt p.
Proof.
  induction order as [|key order IH]; intros Hno; [done|]. simpl.
  assert (∀ key', key' ∈ order → d0 !! key' ≠ Some v) as Hno'.
  { intros key' ?. apply Hno. by right. }
  destruct (d0 !! key) as [w|] eqn:Hkey; simpl; [|by apply IH].
  run. rewrite decide_False; [by apply IH|].
  intros ->. apply (Hno key); [by left|done].
Qed.

Lemma remove_loop_single order k0 : ∀ p p1,
  NoDup order → k0 ∈ order → d0 !! k0 = Some v →
  (∀ key, key ∈ order → d0 !! key = Some v → key = k0) →
  is_order_invariant p = true → delitem k0 p = Ret tt p1 →
  remove_loop (omap (λ key, pair key <$> d0 !! key) order) v p = Ret tt p1.
Proof.
  induction order as [|key order IH]; intros p p1 Hnd Hin Hk0 Huniq Hoi Hdel.
  { by apply elem_of_nil in Hin. }
  apply NoDup_cons in Hnd as [Hkey Hnd]. simpl.
  destruct (decide (key = k0)) as [->|Hne].
  - rewrite Hk0. simpl. run. rewrite decide_True by done.
    rewrite Hoi, Hdel. apply remove_loop_none.
    intros key' Hkey' Hv. apply Hkey.
    assert (key' = k0) as <-; [|done].
    apply Huniq; [by right|done].
  - apply elem_of_cons in Hin as [?|Hin]; [done|].
    assert (remove_loop (omap (λ key, pair key <$> d0 !! key) order) v p
            = Ret tt p1) as Hrest.
    { apply IH; try done. intros key' ? ?. apply Huniq; [by right|done]. }
    destruct (d0 !! key) as [w|] eqn:Hw; simpl; [|done].
    run. rewrite decide_False; [done|].
    intros ->. apply Hne, Huniq; [by left|done].
Qed.
End remove_single.

(** X22.  On an order-invariant property whose keys are the generated
    ones, let [sort] give [vs].  [remove] of a value that is not in [vs]
    returns and changes nothing.  [remove] of a value that is in [vs] at
    one position only returns, and [sort] gives [vs] without that element
    afterwards, as after [pop] of its key.  The guard is off again. *)
Theorem remove_single_value pn allowed p vs order v :
  _ALLOWED_TYPES pn = Some allowed → compact pn allowed p →
  sort p = sort_values vs → key_order p order →
  (v ∉ vs → remove order v p = Ret tt (set_within false p)) ∧
  (∀ i : nat, vs !! i = Some v → (∀ j, vs !! j = Some v → j = i) →
     ∃ p', remove order v p = Ret tt p' ∧
           pop (generated_key pn (1 + Z.of_nat i)) p = Ret tt p' ∧
           sort p' = sort_values (delete i vs) ∧
           _within_method p' = false ∧ compact pn allowed p').
Proof.
  intros Hal Hp Hsort [Hnd Horder]. pose proof Hp as (Hu & [Hc Hk] & Ht).
  pose proof Hsort as Hsort'.
  apply (sort_values_iff pn p vs Hu Hc) in Hsort' as [Hlen Hvs].
  assert (∀ key, items p !! key = Some v →
                 ∃ j : nat, vs !! j = Some v ∧
                            key = generated_key pn (1 + Z.of_nat j))
    as Hheld.
  { intros key Hkey. destruct (proj1 (Hk key)) as (j & Hj & ->); [done|].
    exists (Z.to_nat (j - 1)).
    replace (1 + Z.of_nat (Z.to_nat (j - 1))) with j by lia.
    split; [|done].
    destruct (vs !! Z.to_nat (j - 1)) as [w|] eqn:Hw.
    - apply Hvs in Hw.
      replace (1 + Z.of_nat (Z.to_nat (j - 1))) with j in Hw by lia.
      congruence.
    - apply lookup_ge_None in Hw. lia. }
  split.
  - intros Hv. unfold remove. run. simpl.
    rewrite remove_loop_none; [done|].
    intros key _ Hkey. destruct (Hheld key Hkey) as (j & Hj & _).
    apply Hv. by eapply list_elem_of_lookup_2.
  - intros i Hi Huniq.
    pose proof (Hvs i v Hi) as Hkey.
    destruct (delitem_compact pn allowed Hal (set_within true p)
                (1 + Z.of_nat i)) as (p1 & Hdel & _);
      [by apply compact_set_within|done|
       apply lookup_lt_Some in Hi; simpl; lia|].
    destruct (pop_sorted pn allowed Hal p vs i Hp Hsort)
      as (p' & Hpop & Hsort1 & Hw' & Hp'); [by eapply lookup_lt_Some|].
    assert (pop (generated_key pn (1 + Z.of_nat i)) p
            = Ret tt (set_within false p1)) as Hpop1.
    { unfold pop, _detect_invalid_key_entry, try_except, dict_getitem.
      run. simpl. by rewrite Hkey, Hdel. }
    rewrite Hpop1 in Hpop. injection Hpop as <-.
    exists (set_within false p1). split_and!; [|done..].
    unfold remove. run. simpl.
    rewrite (remove_loop_single (items p) v order
               (generated_key pn (1 + Z.of_nat i)) (set_within true p) p1);
      try done.
    + apply Horder. by rewrite Hkey.
    + intros key _ Hv. destruct (Hheld key Hv) as (j & Hj & ->).
      by rewrite (Huniq j Hj).
    + apply Hu.
Qed.

Lemma remove_single_value_witness :
  let p := run_calls
             [call_add [Component 1; Component 2; Component 3] []]
             unordered_inputs in
  (Component 2 ∉ [Component 1; Component 2; Component 3] →
   remove ["inputs_1"; "inputs_2"; "inputs_3"] (Component 2) p
   = Ret tt (set_within false p)) ∧
  (∀ i : nat,
     [Component 1; Component 2; Component 3] !! i = Some (Component 2) →
     (∀ j, [Component 1; Component 2; Component 3] !! j
           = Some (Component 2) → j = i) →
     ∃ p', remove ["inputs_1"; "inputs_2"; "inputs_3"] (Component 2) p
           = Ret tt p' ∧
           pop (generated_key "inputs" (1 + Z.of_nat i)) p = Ret tt p' ∧
           sort p' = sort_values
                       (delete i [Component 1; Component 2; Component 3]) ∧
           _within_method p' = false ∧
           compact "inputs" is_component_or_none p').
Proof.
  apply (remove_single_value "inputs" is_component_or_none).
  - reflexivity.
  - apply run_calls_compact; [reflexivity|].
    by apply (init_compact "inputs" is_component_or_none).
  - reflexivity.
  - split; [by apply (bool_decide_unpack _)|].
    intros key. split.
    + intros Hkey. repeat (apply elem_of_cons in Hkey as [->|Hkey]);
        [by eexists..|by apply elem_of_nil in Hkey].
    + intros [w Hw]. simpl in Hw.
      destruct (decide (key = "inputs_1")) as [->|?]; [by left|].
      destruct (decide (key = "inputs_2")) as [->|?]; [right; by left|].
      destruct (decide (key = "inputs_3")) as [->|?];
        [right; right; by left|].
      exfalso. revert Hw. unfold run_calls, run_call. simpl.
      vm_compute items.
      rewrite !lookup_insert_ne by done. by rewrite lookup_empty.
Defined.

(** *** Default parameters *)

Lemma non_init_parameters_of_spec req all_parameters : ∀ acc p,
  NoDup all_parameters.*1 →
  (∀ key, key ∈ all_parameters.*1 → is_Some (items p !! key)) →
  ∃ E, non_init_parameters_of req all_parameters acc p = Ret E p ∧
       ∀ key, E !! key
              = match (list_to_map all_parameters : gmap string value) !! key
                with
                | Some default_value =>
                    if decide (key ∉ req ∧ items p !! key = Some PyNone)
                    then Some default_value else acc !! key
                | None => acc !! key
                end.
Proof.
  induction all_parameters as [|[parameter default_value] rest IH];
    intros acc p Hnd Hpresent; simpl.
  { exists acc. split; [done|]. intros key. by rewrite lookup_empty. }
  apply NoDup_cons in Hnd as [Hfirst Hnd].
  assert (∀ key, key ∈ rest.*1 → is_Some (items p !! key)) as Hpresent'.
  { intros key ?. apply Hpresent. simpl. by right. }
  assert ((list_to_map rest : gmap string value) !! parameter = None)
    as Hrest by by apply not_elem_of_list_to_map_1.
  destruct (Hpresent parameter) as [w Hw]; [simpl; by left|].
  unfold dict_getitem. run.
  destruct (decide (parameter ∉ req)) as [Hreq|Hreq].
  - rewrite Hw. cbn beta iota. destruct (decide (w = PyNone)) as [->|Hne].
    + destruct (IH (<[parameter := default_value]> acc) p Hnd Hpresent')
        as (E & -> & HE).
      exists E. split; [done|]. intros key. rewrite HE.
      destruct (decide (key = parameter)) as [->|Hkey].
      * rewrite Hrest, !lookup_insert_eq. by rewrite decide_True.
      * by rewrite !lookup_insert_ne by done.
    + destruct (IH acc p Hnd Hpresent') as (E & -> & HE).
      exists E. split; [done|]. intros key. rewrite HE.
      destruct (decide (key = parameter)) as [->|Hkey].
      * rewrite Hrest, lookup_insert_eq. rewrite decide_False; [done|].
        intros [_ ?]. congruence.
      * by rewrite lookup_insert_ne by done.
  - destruct (IH acc p Hnd Hpresent') as (E & -> & HE).
    exists E. split; [done|]. intros key. rewrite HE.
    destruct (decide (key = parameter)) as [->|Hkey].
    + rewrite Hrest, lookup_insert_eq. rewrite decide_False; [done|].
      by intros [? _].
    + by rewrite lookup_insert_ne by done.
Qed.

(** X23.  Let the component declare its parameters with a dict of default
    values, each parameter once, and let every one of them be a key of
    its [parameters] property.  [pass_default_parameters] returns; a
    parameter that is not required and holds [None] gets its default
    value, and every other entry is what it was. *)
Theorem pass_default_parameters_fills req_parameters all_parameters p :
  NoDup all_parameters.*1 →
  (∀ key, key ∈ all_parameters.*1 → is_Some (items p !! key)) →
  ∃ p', pass_default_parameters
          (Some (req_parameters, defaults_dict all_parameters)) p
        = Ret tt p' ∧
        _within_method p' = _within_method p ∧
        ∀ key, items p' !! key
               = match (list_to_map all_parameters : gmap string value)
                       !! key with
                 | Some default_value =>
                     if decide (key ∉ req_parameters ∧
                                items p !! key = Some PyNone)
                     then Some default_value else items p !! key
                 | None => items p !! key
                 end.
Proof.
  intros Hnd Hpresent.
  destruct (non_init_parameters_of_spec req_parameters all_parameters ∅ p
              Hnd Hpresent) as (E & HE & Hlookup).
  unfold pass_default_parameters, update. run. rewrite HE. cbn beta iota.
  rewrite _update_outcome.
  rewrite decide_True; cycle 1.
  { intros key v Hv. rewrite Hlookup in Hv.
    destruct (list_to_map all_parameters !! key) as [dv|] eqn:Hkey;
      [|by rewrite lookup_empty in Hv].
    apply Hpresent. apply list_elem_of_fmap. exists (key, dv).
    split; [done|]. by apply elem_of_list_to_map. }
  cbn beta iota. rewrite _update_outcome.
  rewrite decide_True by apply map_Forall_empty.
  eexists. split_and!; [done..|]. intros key. simpl.
  rewrite (left_id_L ∅ (∪)). rewrite lookup_union, Hlookup.
  destruct (list_to_map all_parameters !! key) as [dv|];
    [|by rewrite lookup_empty, (left_id_L None union)].
  case_decide as Hcase.
  - destruct Hcase as [_ ->]. done.
  - by rewrite lookup_empty, (left_id_L None union).
Qed.

Lemma pass_default_parameters_fills_witness :
  let p := Property "parameters" false 0 false
             {[ "gain" := PyNone; "offset" := PyNone ]} in
  ∃ p', pass_default_parameters
          (Some (["gain"],
                 defaults_dict [("gain", Other 1); ("offset", Other 0)])) p
        = Ret tt p' ∧
        _within_method p' = _within_method p ∧
        ∀ key, items p' !! key
               = match (list_to_map [("gain", Other 1); ("offset", Other 0)]
                          : gmap string value) !! key with
                 | Some default_value =>
                     if decide (key ∉ ["gain"] ∧ items p !! key = Some PyNone)
                     then Some default_value else items p !! key
                 | None => items p !! key
                 end.
Proof.
  apply (pass_default_parameters_fills ["gain"]
           [("gain", Other 1); ("offset", Other 0)]).
  - by apply (bool_decide_unpack _).
  - intros key Hkey. simpl in Hkey.
    repeat (apply elem_of_cons in Hkey as [->|Hkey]);
      [by eexists..|by apply elem_of_nil in Hkey].
Defined.
